(** * libsystemd-terminal: the internal header [term-internal.h]

    A shallow embedding of the inline functions, constants and record
    layouts of [src/libsystemd-terminal/term-internal.h], together with
    models of the functions the header only declares.  Fixed-width C
    integers are represented in [Z]; a [uint64_t] handle is the integer
    it holds, bit tests are [Z.land]/[Z.shiftr]. *)

From Stdlib Require Import ZArith List Bool Lia.
From stdpp Require Import base option list gmap.

Local Open Scope Z_scope.

(** ** Characters *)

Module Char.

(** [struct term_char { uint64_t _value; }] with its initialiser macro
    [TERM_CHAR_INIT]. *)
Record term_char_t : Type := TERM_CHAR_INIT { _value : Z }.

Definition TERM_CHAR_NULL : term_char_t := TERM_CHAR_INIT 0.

#[global] Instance term_char_eq_dec : EqDecision term_char_t.
Proof. solve_decision. Defined.

(** true if [ch] is TERM_CHAR_NULL, otherwise false *)
Definition term_char_is_null (ch : term_char_t) : bool :=
  _value ch =? 0.

(** true if [ch] is dynamically allocated and needs to be freed:
    [!term_char_is_null(ch) && !(ch._value & 0x1)] *)
Definition term_char_is_allocated (ch : term_char_t) : bool :=
  negb (term_char_is_null ch) && (Z.land (_value ch) 0x1 =? 0).

(** true if (a == b), otherwise false; this is (a == b), NOT ( *a == *b ) *)
Definition term_char_same (a b : term_char_t) : bool :=
  _value a =? _value b.

(** [memcmp] restricted to what its callers here observe: the first [n]
    elements of two [uint32_t] arrays are compared, the result is [0]
    exactly when they agree.  Reading past the end of an array does not
    compare equal. *)
Fixpoint memcmp (sa sb : list Z) (n : nat) : Z :=
  match n with
  | O => 0
  | S n' =>
      match sa, sb with
      | x :: sa', y :: sb' =>
          if x =? y then memcmp sa' sb' n' else if x <? y then -1 else 1
      | _, _ => 1
      end
  end.

(** The functions that the header declares and [term-page.c] defines.
    [Mem] is the state of the allocator they work on.  [term_char_resolve]
    yields the UCS-4 sequence behind a handle (the array it returns,
    cut at the length it stores through [s]); it has no result when the
    handle points to storage that is not there. *)
Class TermCharImpl (Mem : Type) : Type := {
  term_char_set : Mem -> term_char_t -> Z -> Mem * term_char_t;
  term_char_dup : Mem -> term_char_t -> Mem * term_char_t;
  term_char_resolve : Mem -> term_char_t -> option (list Z)
}.

Section Inline.
Context {Mem : Type} `{!TermCharImpl Mem}.

(** true if ( *a == *b ), otherwise false; this is implied by (a == b) *)
Definition term_char_equal (m : Mem) (a b : term_char_t) : option bool :=
  sa ← term_char_resolve m a;
  sb ← term_char_resolve m b;
  let na := length sa in
  let nb := length sb in
  Some ((na =? nb)%nat && (memcmp sa sb na =? 0)).

(** free [ch] in case it is dynamically allocated *)
Definition term_char_free (m : Mem) (ch : term_char_t) : Mem * term_char_t :=
  let m' := if term_char_is_allocated ch
            then fst (term_char_set m ch 0)
            else m in
  (m', TERM_CHAR_NULL).

(** [term_char_freep]: the cleanup helper, which drops the result. *)
Definition term_char_freep (m : Mem) (p : term_char_t) : Mem :=
  fst (term_char_free m p).
End Inline.

(** *** The allocator behind the handles *)

(** The heap of allocated characters: the address stored in a handle is
    mapped to the UCS-4 sequence kept there (without the terminating
    zero). *)
Abbreviation heap := (gmap Z (list Z)).

Definition CHAR_MASK : Z := 0x1FFFFF.

(** Modelled from the spec: the inline layout, which lives in
    [term-page.c].  "Low bit set.  Up to three 21-bit UCS-4 code points
    packed into the remaining 63 bits (first = base, rest = combining)."
    The spec does not say which slot is lowest; the base is put in bits
    1..21 here and an empty slot holds zero. *)
Definition char_pack (v1 v2 v3 : Z) : Z :=
  Z.lor 0x1
    (Z.lor (Z.shiftl (Z.land v1 CHAR_MASK) 1)
       (Z.lor (Z.shiftl (Z.land v2 CHAR_MASK) 22)
              (Z.shiftl (Z.land v3 CHAR_MASK) 43))).

Definition char_slot (v : Z) (i : Z) : Z :=
  Z.land (Z.shiftr v (1 + 21 * i)) CHAR_MASK.

Definition char_unpack (v : Z) : list Z :=
  let v1 := char_slot v 0 in
  let v2 := char_slot v 1 in
  let v3 := char_slot v 2 in
  if v1 =? 0 then []
  else if v2 =? 0 then [v1]
  else if v3 =? 0 then [v1; v2]
  else [v1; v2; v3].

(** [malloc], as far as the handles need it: the block returned is new,
    not null and aligned, so the low bit of its address is clear.  The
    address space is not bounded here. *)
Definition malloc_addr (m : heap) : Z :=
  2 * (1 + foldr Z.max 0 (map fst (map_to_list m))).

(** Modelled from the spec: [term_char_resolve] of [term-page.c].  "Return
    a read-only pointer to the UCS-4 sequence and its length, using the
    caller-supplied charbuf as backing when the handle is inline."  The
    null handle is the empty cell and has no code point. *)
Definition heap_char_resolve (m : heap) (ch : term_char_t) : option (list Z) :=
  if term_char_is_null ch then Some []
  else if term_char_is_allocated ch then m !! _value ch
  else Some (char_unpack (_value ch)).

(** Modelled from the spec: [term_char_dup] of [term-page.c].  "Deep-copy
    an allocated handle; no-op on inline."  A handle whose storage is not
    there is handed back as it is. *)
Definition heap_char_dup (m : heap) (ch : term_char_t) : heap * term_char_t :=
  if term_char_is_allocated ch then
    match m !! _value ch with
    | Some s => let p := malloc_addr m in (<[p := s]> m, TERM_CHAR_INIT p)
    | None => (m, ch)
    end
  else (m, ch).

(** Modelled from the spec: [term_char_set] of [term-page.c].  "Free prev
    if allocated, return inline handle holding base (or CHAR_NULL if
    base==0)." *)
Definition heap_char_set (m : heap) (previous : term_char_t) (append_ucs4 : Z)
  : heap * term_char_t :=
  (if term_char_is_allocated previous then delete (_value previous) m else m,
   if append_ucs4 =? 0 then TERM_CHAR_NULL
   else TERM_CHAR_INIT (char_pack append_ucs4 0 0)).

#[global] Instance heap_impl : TermCharImpl heap := {
  term_char_set := heap_char_set;
  term_char_dup := heap_char_dup;
  term_char_resolve := heap_char_resolve
}.

(** A handle is live in a heap when its sequence can be read: every
    inline handle is, an allocated one when its block is in the heap. *)
Definition live (m : heap) (ch : term_char_t) : Prop :=
  is_Some (heap_char_resolve m ch).

(** An implementation that only records the calls of [term_char_set],
    to observe whether a caller made any. *)
Definition log_impl : TermCharImpl (list (term_char_t * Z)) := {|
  term_char_set := fun log previous append_ucs4 =>
    (log ++ [(previous, append_ucs4)], TERM_CHAR_NULL);
  term_char_dup := fun log ch => (log, ch);
  term_char_resolve := fun log ch => None
|}.

(** An allocated character of four code points, too long for the inline
    form, stored at address 16. *)
Definition heap_example : heap := {[ 16 := [0x65; 0x301; 0x302; 0x303] ]}.

End Char.

(** ** Sequences: types, intermediate flags, commands, charsets *)

Module Seq.

(** [unsigned int] arithmetic: [1U << n] is computed modulo [2^32]. *)
Definition u32 (z : Z) : Z := z mod 2 ^ 32.
Definition shl1U (n : Z) : Z := u32 (Z.shiftl 1 n).

(** The anonymous enum of sequence types. *)
Inductive seq_type : Type :=
| TERM_SEQ_NONE         (* placeholder, no sequence parsed *)
| TERM_SEQ_IGNORE       (* no-op character *)
| TERM_SEQ_GRAPHIC      (* graphic character *)
| TERM_SEQ_CONTROL      (* control character *)
| TERM_SEQ_ESCAPE       (* escape sequence *)
| TERM_SEQ_CSI          (* control sequence function *)
| TERM_SEQ_DCS          (* device control string *)
| TERM_SEQ_OSC.         (* operating system control *)

(** The flag enum; "these must be kept compatible to (1U << (ch - 0x20))". *)
Definition TERM_SEQ_FLAG_SPACE   : Z := shl1U 0.   (* char:   *)
Definition TERM_SEQ_FLAG_BANG    : Z := shl1U 1.   (* char: ! *)
Definition TERM_SEQ_FLAG_DQUOTE  : Z := shl1U 2.   (* char: double quote *)
Definition TERM_SEQ_FLAG_HASH    : Z := shl1U 3.   (* char: # *)
Definition TERM_SEQ_FLAG_CASH    : Z := shl1U 4.   (* char: $ *)
Definition TERM_SEQ_FLAG_PERCENT : Z := shl1U 5.   (* char: % *)
Definition TERM_SEQ_FLAG_AND     : Z := shl1U 6.   (* char: & *)
Definition TERM_SEQ_FLAG_SQUOTE  : Z := shl1U 7.   (* char: single quote *)
Definition TERM_SEQ_FLAG_POPEN   : Z := shl1U 8.   (* char: ( *)
Definition TERM_SEQ_FLAG_PCLOSE  : Z := shl1U 9.   (* char: ) *)
Definition TERM_SEQ_FLAG_MULT    : Z := shl1U 10.  (* char: * *)
Definition TERM_SEQ_FLAG_PLUS    : Z := shl1U 11.  (* char: + *)
Definition TERM_SEQ_FLAG_COMMA   : Z := shl1U 12.  (* char: , *)
Definition TERM_SEQ_FLAG_MINUS   : Z := shl1U 13.  (* char: - *)
Definition TERM_SEQ_FLAG_DOT     : Z := shl1U 14.  (* char: . *)
Definition TERM_SEQ_FLAG_SLASH   : Z := shl1U 15.  (* char: / *)
(* 16-35 is reserved for numbers; unused *)
(* COLON is reserved     = (1U << 26),  char: : *)
(* SEMICOLON is reserved = (1U << 27),  char: ; *)
Definition TERM_SEQ_FLAG_LT      : Z := shl1U 28.  (* char: < *)
Definition TERM_SEQ_FLAG_EQUAL   : Z := shl1U 29.  (* char: = *)
Definition TERM_SEQ_FLAG_GT      : Z := shl1U 30.  (* char: > *)
Definition TERM_SEQ_FLAG_WHAT    : Z := shl1U 31.  (* char: ? *)

(** The enum read as a table: each enumerator against the character its
    comment names; a character without an enumerator has no entry. *)
Definition term_seq_flag_table : list (Z * Z) :=
  [ (0x20, TERM_SEQ_FLAG_SPACE);   (0x21, TERM_SEQ_FLAG_BANG);
    (0x22, TERM_SEQ_FLAG_DQUOTE);  (0x23, TERM_SEQ_FLAG_HASH);
    (0x24, TERM_SEQ_FLAG_CASH);    (0x25, TERM_SEQ_FLAG_PERCENT);
    (0x26, TERM_SEQ_FLAG_AND);     (0x27, TERM_SEQ_FLAG_SQUOTE);
    (0x28, TERM_SEQ_FLAG_POPEN);   (0x29, TERM_SEQ_FLAG_PCLOSE);
    (0x2A, TERM_SEQ_FLAG_MULT);    (0x2B, TERM_SEQ_FLAG_PLUS);
    (0x2C, TERM_SEQ_FLAG_COMMA);   (0x2D, TERM_SEQ_FLAG_MINUS);
    (0x2E, TERM_SEQ_FLAG_DOT);     (0x2F, TERM_SEQ_FLAG_SLASH);
    (0x3C, TERM_SEQ_FLAG_LT);      (0x3D, TERM_SEQ_FLAG_EQUAL);
    (0x3E, TERM_SEQ_FLAG_GT);      (0x3F, TERM_SEQ_FLAG_WHAT) ].

Fixpoint assoc (k : Z) (l : list (Z * Z)) : option Z :=
  match l with
  | [] => None
  | (k', v) :: l' => if k =? k' then Some v else assoc k l'
  end.

Definition term_seq_flag (ch : Z) : option Z := assoc ch term_seq_flag_table.

(** The first enumerators of the command enum. *)
Definition TERM_CMD_NONE : Z := 0.                 (* placeholder *)
Definition TERM_CMD_GRAPHIC : Z := TERM_CMD_NONE + 1.

(** The charset enum.  An enumerator without an initialiser is its
    predecessor plus one. *)
Definition TERM_CHARSET_NONE : Z := 0.
(* 96-compat charsets *)
Definition TERM_CHARSET_ISO_LATIN1_SUPPLEMENTAL : Z := TERM_CHARSET_NONE + 1.
Definition TERM_CHARSET_BRITISH_NRCS : Z := TERM_CHARSET_ISO_LATIN1_SUPPLEMENTAL.
Definition TERM_CHARSET_ISO_LATIN2_SUPPLEMENTAL : Z := TERM_CHARSET_BRITISH_NRCS + 1.
Definition TERM_CHARSET_AMERICAN_NRCS : Z := TERM_CHARSET_ISO_LATIN2_SUPPLEMENTAL.
Definition TERM_CHARSET_ISO_LATIN5_SUPPLEMENTAL : Z := TERM_CHARSET_AMERICAN_NRCS + 1.
Definition TERM_CHARSET_ISO_GREEK_SUPPLEMENTAL : Z := TERM_CHARSET_ISO_LATIN5_SUPPLEMENTAL + 1.
Definition TERM_CHARSET_ISO_HEBREW_SUPPLEMENTAL : Z := TERM_CHARSET_ISO_GREEK_SUPPLEMENTAL + 1.
Definition TERM_CHARSET_ISO_LATIN_CYRILLIC : Z := TERM_CHARSET_ISO_HEBREW_SUPPLEMENTAL + 1.
Definition TERM_CHARSET_96_CNT : Z := TERM_CHARSET_ISO_LATIN_CYRILLIC + 1.
(* 94-compat charsets *)
Definition TERM_CHARSET_DEC_SPECIAL_GRAPHIC : Z := TERM_CHARSET_96_CNT.
Definition TERM_CHARSET_DEC_SUPPLEMENTAL : Z := TERM_CHARSET_DEC_SPECIAL_GRAPHIC + 1.
Definition TERM_CHARSET_DEC_TECHNICAL : Z := TERM_CHARSET_DEC_SUPPLEMENTAL + 1.
Definition TERM_CHARSET_CYRILLIC_DEC : Z := TERM_CHARSET_DEC_TECHNICAL + 1.
Definition TERM_CHARSET_DUTCH_NRCS : Z := TERM_CHARSET_CYRILLIC_DEC + 1.
Definition TERM_CHARSET_FINNISH_NRCS : Z := TERM_CHARSET_DUTCH_NRCS + 1.
Definition TERM_CHARSET_FRENCH_NRCS : Z := TERM_CHARSET_FINNISH_NRCS + 1.
Definition TERM_CHARSET_FRENCH_CANADIAN_NRCS : Z := TERM_CHARSET_FRENCH_NRCS + 1.
Definition TERM_CHARSET_GERMAN_NRCS : Z := TERM_CHARSET_FRENCH_CANADIAN_NRCS + 1.
Definition TERM_CHARSET_GREEK_DEC : Z := TERM_CHARSET_GERMAN_NRCS + 1.
Definition TERM_CHARSET_GREEK_NRCS : Z := TERM_CHARSET_GREEK_DEC + 1.
Definition TERM_CHARSET_HEBREW_DEC : Z := TERM_CHARSET_GREEK_NRCS + 1.
Definition TERM_CHARSET_HEBREW_NRCS : Z := TERM_CHARSET_HEBREW_DEC + 1.
Definition TERM_CHARSET_ITALIAN_NRCS : Z := TERM_CHARSET_HEBREW_NRCS + 1.
Definition TERM_CHARSET_NORWEGIAN_DANISH_NRCS : Z := TERM_CHARSET_ITALIAN_NRCS + 1.
Definition TERM_CHARSET_PORTUGUESE_NRCS : Z := TERM_CHARSET_NORWEGIAN_DANISH_NRCS + 1.
Definition TERM_CHARSET_RUSSIAN_NRCS : Z := TERM_CHARSET_PORTUGUESE_NRCS + 1.
Definition TERM_CHARSET_SCS_NRCS : Z := TERM_CHARSET_RUSSIAN_NRCS + 1.
Definition TERM_CHARSET_SPANISH_NRCS : Z := TERM_CHARSET_SCS_NRCS + 1.
Definition TERM_CHARSET_SWEDISH_NRCS : Z := TERM_CHARSET_SPANISH_NRCS + 1.
Definition TERM_CHARSET_SWISS_NRCS : Z := TERM_CHARSET_SWEDISH_NRCS + 1.
Definition TERM_CHARSET_TURKISH_DEC : Z := TERM_CHARSET_SWISS_NRCS + 1.
Definition TERM_CHARSET_TURKISH_NRCS : Z := TERM_CHARSET_TURKISH_DEC + 1.
Definition TERM_CHARSET_94_CNT : Z := TERM_CHARSET_TURKISH_NRCS + 1.
(* special charsets *)
Definition TERM_CHARSET_USERPREF_SUPPLEMENTAL : Z := TERM_CHARSET_94_CNT.
Definition TERM_CHARSET_CNT : Z := TERM_CHARSET_USERPREF_SUPPLEMENTAL + 1.

Definition TERM_PARSER_ARG_MAX : Z := 16.
Definition TERM_PARSER_ST_MAX : Z := 4096.

End Seq.

(** ** Cells, lines and histories *)

Module History.
Import Char Seq.

(** [term_age_t] is a [uint64_t]; [TERM_AGE_NULL] forces a redraw. *)
Definition TERM_AGE_NULL : Z := 0.

Record term_color : Type := {
  ccode : Z; c256 : Z; red : Z; green : Z; blue : Z
}.

Record term_attr : Type := {
  fg : term_color;              (* foreground color *)
  bg : term_color;              (* background color *)
  bold : bool; italic : bool; underline : bool; inverse : bool;
  protect : bool; blink : bool; hidden : bool
}.

Record term_cell : Type := {
  cell_ch : term_char_t;        (* stored char or TERM_CHAR_NULL *)
  cell_age : Z;                 (* cell age or TERM_AGE_NULL *)
  cell_attr : term_attr;        (* cell attributes *)
  cwidth : Z                    (* cached term_char_lookup_width(cell->ch) *)
}.

(** [struct term_line] without its two list pointers: the position of a
    line in a history is its position in the list of lines below. *)
Record term_line : Type := {
  width : Z;                    (* visible width of line *)
  n_cells : Z;                  (* # of allocated cells *)
  cells : list term_cell;       (* cell-array *)
  line_age : Z;                 (* line age *)
  fill : Z                      (* # of valid cells; starting left *)
}.

(** [struct term_history]: the doubly linked list from [lines_first] to
    [lines_last] is the list [lines], head first. *)
Record term_history : Type := {
  lines : list term_line;
  n_lines : Z;
  max_lines : Z
}.

Section Ops.
(** [term_line_reserve] of [term-page.c], which [term_history_pop] calls
    on the line it hands out; the history itself does not depend on what
    it does to the cells. *)
Variable term_line_reserve :
  term_line -> Z -> term_attr -> Z -> Z -> term_line.

(** Modelled from the spec: [term_history_clear] of [term-page.c].
    "Drop all." *)
Definition term_history_clear (history : term_history) : term_history :=
  {| lines := []; n_lines := 0; max_lines := max_lines history |}.

(** Modelled from the spec: [term_history_trim] of [term-page.c].  "Drop
    head entries until n_lines <= max."  The loop runs down the list; it
    stops when the list is exhausted. *)
Fixpoint trim_loop (ls : list term_line) (n max : Z) : list term_line * Z :=
  if n <=? max then (ls, n)
  else match ls with
       | [] => ([], n)
       | _ :: ls' => trim_loop ls' (u32 (n - 1)) max
       end.

Definition term_history_trim (history : term_history) (max : Z) : term_history :=
  let '(ls, n) := trim_loop (lines history) (n_lines history) max in
  {| lines := ls; n_lines := n; max_lines := max_lines history |}.

(** Modelled from the spec: [term_history_push] of [term-page.c].
    "Append at tail; if n_lines == max_lines, drop head."  The count is
    the one the history had when the line arrived; a full history keeps
    its count and loses its head, any other one grows by a line. *)
Definition term_history_push (history : term_history) (line : term_line)
  : term_history :=
  let ls := lines history ++ [line] in
  if n_lines history =? max_lines history
  then {| lines := tail ls;
          n_lines := n_lines history;
          max_lines := max_lines history |}
  else {| lines := ls;
          n_lines := u32 (n_lines history + 1);
          max_lines := max_lines history |}.

(** Modelled from the spec: [term_history_pop] of [term-page.c].  "Detach
    tail, reserve(reserve_width, attr, age, old_width) so it is compatible
    with the current page width, return.  Returns null if empty." *)
Definition term_history_pop (history : term_history)
    (reserve_width : Z) (attr : term_attr) (age : Z)
  : term_history * option term_line :=
  match last (lines history) with
  | None => (history, None)
  | Some line =>
      ({| lines := removelast (lines history);
          n_lines := u32 (n_lines history - 1);
          max_lines := max_lines history |},
       Some (term_line_reserve line reserve_width attr age (width line)))
  end.

(** Modelled from the spec: [term_history_peek] of [term-page.c].
    "Returns the count of lines that can be popped up to max; no side
    effects." *)
Definition term_history_peek (history : term_history)
    (max reserve_width : Z) (attr : term_attr) (age : Z)
  : term_history * Z :=
  (history, Z.min max (n_lines history)).

(** The operations a caller can apply to a history. *)
Inductive history_op : Type :=
| OpClear
| OpTrim (max : Z)
| OpPush (line : term_line)
| OpPop (reserve_width : Z) (attr : term_attr) (age : Z)
| OpPeek (max reserve_width : Z) (attr : term_attr) (age : Z).

Definition history_step (history : term_history) (op : history_op)
  : term_history :=
  match op with
  | OpClear => term_history_clear history
  | OpTrim max => term_history_trim history max
  | OpPush line => term_history_push history line
  | OpPop w attr age => fst (term_history_pop history w attr age)
  | OpPeek max w attr age => fst (term_history_peek history max w attr age)
  end.

Definition history_run (history : term_history) (ops : list history_op)
  : term_history :=
  fold_left history_step ops history.

End Ops.

(** The state a history is in between calls: the count is the length of
    the list and stays within the cap, which is an [unsigned int]. *)
Definition history_ok (history : term_history) : Prop :=
  n_lines history = Z.of_nat (length (lines history)) /\
  n_lines history <= max_lines history /\
  max_lines history < 2 ^ 32.

(** An empty line of the given width, and a history of two lines that is
    full. *)
Definition line_of_width (w : Z) : term_line :=
  {| width := w; n_cells := 0; cells := []; line_age := TERM_AGE_NULL;
     fill := 0 |}.

Definition attr_default : term_attr :=
  let c := {| ccode := 0; c256 := 0; red := 0; green := 0; blue := 0 |} in
  {| fg := c; bg := c; bold := false; italic := false; underline := false;
     inverse := false; protect := false; blink := false; hidden := false |}.

Definition history_example : term_history :=
  {| lines := [line_of_width 1; line_of_width 2]; n_lines := 2;
     max_lines := 2 |}.

Definition reserve_example (l : term_line) (w : Z) (a : term_attr)
    (age protect_width : Z) : term_line :=
  {| width := width l; n_cells := Z.max w (n_cells l); cells := cells l;
     line_age := line_age l; fill := fill l |}.

End History.

(** ** UTF-8 *)

Module Utf8.

(** [struct term_utf8]; [i_bytes] and [n_bytes] are bit-fields of three
    bits, [valid] is one bit. *)
Record term_utf8 : Type := {
  chars : list Z;               (* uint32_t chars[5] *)
  ucs4 : Z;
  i_bytes : Z;
  n_bytes : Z;
  valid : bool
}.

Definition bits3 (z : Z) : Z := z mod 8.

(** A decoder as its owner zero-initialises it. *)
Definition term_utf8_init : term_utf8 :=
  {| chars := [0; 0; 0; 0; 0]; ucs4 := 0; i_bytes := 0; n_bytes := 0;
     valid := false |}.

(** A store into [chars[i]]: there are five slots, a store outside them
    has no result. *)
Definition chars_store (cs : list Z) (i : Z) (v : Z) : option (list Z) :=
  if (0 <=? i) && (i <? 5) then Some (<[Z.to_nat i := v]> cs) else None.

(** The first bytes of standard UTF-8 that start a sequence of several
    bytes, with the number of bytes they announce and the payload bits
    they carry: C2..DF, E0..EF and F0..F4.  C0, C1 and F5..FF start no
    encoding of a code point up to U+10FFFF and are no lead bytes. *)
Definition utf8_lead (byte : Z) : option (Z * Z) :=
  if (0xC2 <=? byte) && (byte <=? 0xDF) then Some (2, Z.land byte 0x1F)
  else if (0xE0 <=? byte) && (byte <=? 0xEF) then Some (3, Z.land byte 0x0F)
  else if (0xF0 <=? byte) && (byte <=? 0xF4) then Some (4, Z.land byte 0x07)
  else None.

(** The bytes that may stand at place [i] of a sequence that started
    with [lead]: 80..BF, and narrower at the second place after E0 (no
    overlong form), ED (no surrogate), F0 (no overlong form) and F4
    (nothing above U+10FFFF). *)
Definition utf8_tail_lo (lead i : Z) : Z :=
  if i =? 1 then
    if lead =? 0xE0 then 0xA0 else if lead =? 0xF0 then 0x90 else 0x80
  else 0x80.

Definition utf8_tail_hi (lead i : Z) : Z :=
  if i =? 1 then
    if lead =? 0xED then 0x9F else if lead =? 0xF4 then 0x8F else 0xBF
  else 0xBF.

Definition utf8_is_continuation (lead i byte : Z) : bool :=
  (utf8_tail_lo lead i <=? byte) && (byte <=? utf8_tail_hi lead i).

(** The decoder once it has handed out a result. *)
Definition utf8_done (p : term_utf8) : term_utf8 :=
  {| chars := chars p; ucs4 := ucs4 p; i_bytes := 0; n_bytes := 0;
     valid := false |}.

(** Modelled from the spec: [term_utf8_decode] of [term-parser.c].
    "Stateful, one byte at a time.  Input: current byte; output: resolved
    sequence (1-5 code points) and its length, or need more.  For any
    invalid lead or continuation byte, emit the code points decoded so
    far plus the offending byte re-interpreted as Latin-1.  The decoder's
    scratch holds up to 4 bytes of a pending sequence."  A byte is
    invalid where standard UTF-8, which the encoder below writes, has no
    encoding of a valid code point with that byte at that place.  The
    result is the new decoder and the code points handed out, none when
    more input is needed; there is no result at all if a store leaves
    [chars].  Sequences have two to four bytes, so at most three bytes
    are kept and at most four code points handed out, which is within
    the bounds quoted. *)
Definition term_utf8_decode (p : term_utf8) (c : Z)
  : option (term_utf8 * list Z) :=
  let byte := c mod 256 in
  if negb (valid p) || (n_bytes p <=? i_bytes p) then
    (* no sequence is pending: the byte starts one, or stands alone *)
    match utf8_lead byte with
    | Some (n, t) =>
        cs ← chars_store (chars p) 0 byte;
        Some ({| chars := cs; ucs4 := Z.shiftl t (6 * (n - 1));
                 i_bytes := 1; n_bytes := bits3 n; valid := true |}, [])
    | None =>
        cs ← chars_store (chars p) 0 byte;
        Some (utf8_done {| chars := cs; ucs4 := byte; i_bytes := 1;
                           n_bytes := 1; valid := false |}, take 1 cs)
    end
  else if utf8_is_continuation (nth 0 (chars p) 0) (i_bytes p) byte then
    cs ← chars_store (chars p) (i_bytes p) byte;
    let i := bits3 (i_bytes p + 1) in
    let u := Z.lor (ucs4 p) (Z.shiftl (Z.land byte 0x3F) (6 * (n_bytes p - i))) in
    let p' := {| chars := cs; ucs4 := u; i_bytes := i; n_bytes := n_bytes p;
                 valid := true |} in
    if i <? n_bytes p then Some (p', []) else Some (utf8_done p', [u])
  else
    (* the sequence breaks off: the bytes kept so far and the offending
       byte are handed out as they are *)
    cs ← chars_store (chars p) (i_bytes p) byte;
    let i := bits3 (i_bytes p + 1) in
    Some (utf8_done {| chars := cs; ucs4 := ucs4 p; i_bytes := i;
                       n_bytes := n_bytes p; valid := false |},
          take (Z.to_nat i) cs).

(** A whole byte string through the decoder: the code points handed out
    after each byte, in order. *)
Fixpoint utf8_decode_bytes (p : term_utf8) (bs : list Z)
  : option (term_utf8 * list (list Z)) :=
  match bs with
  | [] => Some (p, [])
  | c :: bs' =>
      '(p', out) ← term_utf8_decode p c;
      '(p'', outs) ← utf8_decode_bytes p' bs';
      Some (p'', out :: outs)
  end.

Definition utf8_valid_ucs4 (g : Z) : bool :=
  (0 <=? g) && (g <=? 0x10FFFF) && negb ((0xD800 <=? g) && (g <=? 0xDFFF)).

(** Modelled from the spec: [term_utf8_encode] of [term-parser.c].  "UCS-4
    to up to 4 bytes, standard UTF-8.  Invalid code points (surrogates,
    > 0x10FFFF) encode as U+FFFD."  The result is the bytes written to
    [out_utf8]; the C function returns their number. *)
Definition term_utf8_encode (g : Z) : list Z :=
  let g := if utf8_valid_ucs4 g then g else 0xFFFD in
  if g <? 0x80 then [g]
  else if g <? 0x800 then
    [Z.lor 0xC0 (Z.shiftr g 6);
     Z.lor 0x80 (Z.land g 0x3F)]
  else if g <? 0x10000 then
    [Z.lor 0xE0 (Z.shiftr g 12);
     Z.lor 0x80 (Z.land (Z.shiftr g 6) 0x3F);
     Z.lor 0x80 (Z.land g 0x3F)]
  else
    [Z.lor 0xF0 (Z.shiftr g 18);
     Z.lor 0x80 (Z.land (Z.shiftr g 12) 0x3F);
     Z.lor 0x80 (Z.land (Z.shiftr g 6) 0x3F);
     Z.lor 0x80 (Z.land g 0x3F)].

(** *** What the decoder is measured against *)

(** A byte string can still become the encoding of a valid code point:
    it is the beginning of one. *)
Definition utf8_viable (s : list Z) : Prop :=
  exists v rest, utf8_valid_ucs4 v = true /\ term_utf8_encode v = s ++ rest.

(** The bytes of the input that the decoder is holding back: the last
    [i_bytes] bytes it was fed. *)
Definition utf8_kept (p : term_utf8) (bs : list Z) : list Z :=
  drop (length bs - Z.to_nat (i_bytes p)) (map (fun c => c mod 256) bs).

(** *** The byte sequences of standard UTF-8, by ranges *)

(** The length of the sequence a first byte starts, 0 if it starts
    none, and the payload bits of a first byte. *)
Definition utf8_seq_len (b0 : Z) : Z :=
  if b0 <? 0x80 then 1
  else if b0 <? 0xC2 then 0
  else if b0 <? 0xE0 then 2
  else if b0 <? 0xF0 then 3
  else if b0 <? 0xF5 then 4
  else 0.

Definition utf8_payload (b0 : Z) : Z :=
  if b0 <? 0x80 then b0
  else if b0 <? 0xE0 then b0 - 0xC0
  else if b0 <? 0xF0 then b0 - 0xE0
  else b0 - 0xF0.

Fixpoint utf8_tails_ok (lead i : Z) (tl : list Z) : bool :=
  match tl with
  | [] => true
  | b :: tl' => utf8_is_continuation lead i b && utf8_tails_ok lead (i + 1) tl'
  end.

(** A beginning of a sequence: a first byte, and no more bytes than it
    announces, each in its range. *)
Definition utf8_wf (s : list Z) : bool :=
  match s with
  | [] => false
  | b0 :: tl =>
      (0 <=? b0) && (Z.of_nat (length s) <=? utf8_seq_len b0)
      && utf8_tails_ok b0 1 tl
  end.

Definition utf8_len (s : list Z) : Z :=
  match s with
  | [] => 0
  | b0 :: _ => utf8_seq_len b0
  end.

(** The payload bits of a beginning, the first byte's on top. *)
Definition utf8_value (s : list Z) : Z :=
  match s with
  | [] => 0
  | b0 :: tl => fold_left (fun v b => v * 64 + (b - 0x80)) tl (utf8_payload b0)
  end.

(** A decoder that holds back the bytes [kept]: they are in its buffer,
    counted by [i_bytes], and when there are any they are the beginning
    of a sequence whose payload so far is in [ucs4], shifted to where it
    belongs. *)
Definition utf8_tracks (kept : list Z) (p : term_utf8) : Prop :=
  length (chars p) = 5%nat /\
  i_bytes p = Z.of_nat (length kept) /\
  take (length kept) (chars p) = kept /\
  Forall (fun b => 0 <= b <= 0xFF) kept /\
  match kept with
  | [] => valid p = false
  | _ :: _ =>
      valid p = true /\ utf8_wf kept = true /\
      Z.of_nat (length kept) < utf8_len kept /\
      n_bytes p = utf8_len kept /\
      ucs4 p = utf8_value kept * 2 ^ (6 * (utf8_len kept - Z.of_nat (length kept)))
  end.

End Utf8.

(** ** The control-sequence parser *)

Module Parser.
Import Seq.

(** [struct term_seq]; [st] is the string payload, a [char *] and so a
    list of bytes, [n_st] its length in bytes. *)
Record term_seq : Type := {
  type : seq_type;
  command : Z;
  terminator : Z;
  intermediates : Z;
  charset : Z;
  n_args : Z;
  args : list Z;                (* int args[TERM_PARSER_ARG_MAX] *)
  n_st : Z;
  st : list Z                   (* char *st *)
}.

(** Modelled from the spec: the states of the parser, which
    [term-parser.c] defines.  "States include GROUND, ESCAPE,
    ESCAPE_INTERMEDIATE, CSI_ENTRY, CSI_PARAM, CSI_INTERMEDIATE,
    CSI_IGNORE, DCS_ENTRY, DCS_PARAM, DCS_INTERMEDIATE, DCS_PASSTHROUGH,
    DCS_IGNORE, OSC_STRING, SOS_PM_APC_STRING." *)
Inductive parser_state : Type :=
| STATE_GROUND
| STATE_ESCAPE
| STATE_ESCAPE_INTERMEDIATE
| STATE_CSI_ENTRY
| STATE_CSI_PARAM
| STATE_CSI_INTERMEDIATE
| STATE_CSI_IGNORE
| STATE_DCS_ENTRY
| STATE_DCS_PARAM
| STATE_DCS_INTERMEDIATE
| STATE_DCS_PASSTHROUGH
| STATE_DCS_IGNORE
| STATE_OSC_STRING
| STATE_SOS_PM_APC_STRING.

#[global] Instance parser_state_eq_dec : EqDecision parser_state.
Proof. solve_decision. Defined.

(** [struct term_parser]. *)
Record term_parser : Type := {
  seq : term_seq;
  st_alloc : Z;
  state : parser_state;
  is_host : bool
}.

(** [int] arithmetic on an argument: the value wraps into 32 bits. *)
Definition int32 (z : Z) : Z := (z + 2 ^ 31) mod 2 ^ 32 - 2 ^ 31.

Definition seq_clear : term_seq :=
  {| type := TERM_SEQ_NONE; command := TERM_CMD_NONE; terminator := 0;
     intermediates := 0; charset := TERM_CHARSET_NONE;
     n_args := 0; args := replicate (Z.to_nat TERM_PARSER_ARG_MAX) (-1);
     n_st := 0; st := [] |}.

Definition between (lo hi raw : Z) : bool := (lo <=? raw) && (raw <=? hi).

(** What a transition does besides changing the state. *)
Inductive parser_action : Type :=
| ACTION_NONE
| ACTION_CLEAR
| ACTION_IGNORE
| ACTION_PRINT
| ACTION_EXECUTE
| ACTION_COLLECT
| ACTION_PARAM
| ACTION_ESC_DISPATCH
| ACTION_CSI_DISPATCH
| ACTION_DCS_START
| ACTION_OSC_START
| ACTION_SOS_START
| ACTION_PUT
| ACTION_STRING_END
| ACTION_CLOSE_IGNORED.

Section Feed.
(** The command tables of [term-parser.c]: "a table lookup keyed by
    (type, final byte, intermediates, private-marker bits, is_host)
    returns the TERM_CMD enumerator"; and the charset an SCS sequence
    selects, from its final byte and intermediates. *)
Variable term_cmd_lookup : bool -> seq_type -> Z -> Z -> Z.
Variable term_charset_lookup : Z -> Z -> Z.

(** Modelled from the spec: "Intermediate characters accumulate into the
    intermediates bitmask; the mapping is 1U << (ch - 0x20)", private
    markers included. *)
Definition seq_collect (s : term_seq) (raw : Z) : term_seq :=
  {| type := type s; command := command s; terminator := terminator s;
     intermediates := Z.lor (intermediates s) (shl1U (raw - 0x20));
     charset := charset s; n_args := n_args s; args := args s;
     n_st := n_st s; st := st s |}.

(** Modelled from the spec: "Up to 16 signed integer parameters; the DFA
    treats ; as a separator and : as a sub-parameter separator (folded
    into the preceding parameter position).  Missing parameters are
    represented as -1."  While a sequence is read [n_args] is the index
    of the parameter being read; there is no result when a separator
    asks for a seventeenth one. *)
Definition seq_param (s : term_seq) (raw : Z) : option term_seq :=
  if raw =? 0x3B then
    if n_args s + 1 <? TERM_PARSER_ARG_MAX then
      Some {| type := type s; command := command s;
              terminator := terminator s; intermediates := intermediates s;
              charset := charset s; n_args := n_args s + 1; args := args s;
              n_st := n_st s; st := st s |}
    else None
  else if raw =? 0x3A then Some s
  else
    let i := Z.to_nat (n_args s) in
    let old := nth i (args s) (-1) in
    let new := (if old <? 0 then 0 else old) * 10 + (raw - 0x30) in
    Some {| type := type s; command := command s;
            terminator := terminator s; intermediates := intermediates s;
            charset := charset s; n_args := n_args s;
            args := <[i := int32 new]> (args s);
            n_st := n_st s; st := st s |}.

(** Modelled from the spec: "growth is amortized by doubling up to
    TERM_PARSER_ST_MAX = 4096".  The size of a buffer of [alloc] bytes
    once it has been doubled until [need] bytes fit, or as often as
    [fuel] allows. *)
Fixpoint st_grow (fuel : nat) (alloc need : Z) : Z :=
  match fuel with
  | O => alloc
  | S fuel' =>
      if need <=? alloc then alloc
      else st_grow fuel' (Z.min (2 * alloc) TERM_PARSER_ST_MAX) need
  end.

(** Modelled from the spec: "Bytes between the introducer and ST are
    appended to st[]; growth is amortized by doubling up to
    TERM_PARSER_ST_MAX = 4096; overflow transitions to IGNORE."  The
    value is a code point and [st] a [char *]: what is appended are the
    bytes of its UTF-8 encoding, and [n_st] counts bytes.  A byte is
    kept free for the zero that closes the string.  There is no result
    when the bytes do not fit into 4096 bytes or the buffer cannot grow
    to hold them. *)
Definition parser_put (p : term_parser) (raw : Z) : option term_parser :=
  let s := seq p in
  let bytes := Utf8.term_utf8_encode raw in
  let need := n_st s + Z.of_nat (length bytes) + 1 in
  let a := st_grow 12 (st_alloc p) need in
  if (need <=? TERM_PARSER_ST_MAX) && (need <=? a) then
    Some {| seq := {| type := type s; command := command s;
                      terminator := terminator s;
                      intermediates := intermediates s;
                      charset := charset s; n_args := n_args s;
                      args := args s;
                      n_st := n_st s + Z.of_nat (length bytes);
                      st := st s ++ bytes |};
            st_alloc := a; state := state p; is_host := is_host p |}
  else None.

(** Modelled from the spec: the string of a finished sequence is a C
    string, closed by a zero that [n_st] counts: "bytes ESC ] 0 ; hi
    BEL.  Parser emits type=OSC, n_st=5, st=0;hi". *)
Definition seq_terminate (s : term_seq) : term_seq :=
  {| type := type s; command := command s; terminator := terminator s;
     intermediates := intermediates s; charset := charset s;
     n_args := n_args s; args := args s;
     n_st := n_st s + 1; st := st s ++ [0] |}.

(** A finished sequence: its type, the byte that ended it, the command
    found for it; [bump] turns the index of the last parameter into the
    number of parameters. *)
Definition seq_finish (s : term_seq) (ty : seq_type) (raw cmd cs bump : Z)
  : term_seq :=
  {| type := ty; command := cmd; terminator := raw;
     intermediates := intermediates s; charset := cs;
     n_args := n_args s + bump; args := args s;
     n_st := n_st s; st := st s |}.

Definition with_seq (p : term_parser) (s : term_seq) (next : parser_state)
  : term_parser :=
  {| seq := s; st_alloc := st_alloc p; state := next; is_host := is_host p |}.

(** The IGNORE state of the family a state belongs to. *)
Definition ignore_state (s : parser_state) : parser_state :=
  match s with
  | STATE_CSI_ENTRY | STATE_CSI_PARAM | STATE_CSI_INTERMEDIATE
  | STATE_CSI_IGNORE => STATE_CSI_IGNORE
  | _ => STATE_DCS_IGNORE
  end.

(** Modelled from the spec: one transition, to state [next] with action
    [act].  The result is the parser and the record handed out, if any.
    "Exceeding 16 args or 4096 string bytes routes the current sequence
    to IGNORE; the final terminator still closes the sequence, with a
    synthetic command = TERM_CMD_NONE."  A string that ends is closed
    by its zero; one that was given up is handed out as it stood. *)
Definition parser_transition (p : term_parser) (raw : Z)
    (next : parser_state) (act : parser_action)
  : term_parser * option term_seq :=
  let s := seq p in
  let emit s' := (with_seq p s' next, Some s') in
  match act with
  | ACTION_NONE => (with_seq p s next, None)
  | ACTION_CLEAR => (with_seq p seq_clear next, None)
  | ACTION_IGNORE | ACTION_CLOSE_IGNORED =>
      emit (seq_finish s TERM_SEQ_IGNORE raw TERM_CMD_NONE (charset s) 0)
  | ACTION_PRINT =>
      emit (seq_finish s TERM_SEQ_GRAPHIC raw TERM_CMD_GRAPHIC (charset s) 0)
  | ACTION_EXECUTE =>
      emit (seq_finish s TERM_SEQ_CONTROL raw
              (term_cmd_lookup (is_host p) TERM_SEQ_CONTROL raw 0)
              (charset s) 0)
  | ACTION_COLLECT => (with_seq p (seq_collect s raw) next, None)
  | ACTION_PARAM =>
      match seq_param s raw with
      | Some s' => (with_seq p s' next, None)
      | None => (with_seq p s (ignore_state next), None)
      end
  | ACTION_ESC_DISPATCH =>
      emit (seq_finish s TERM_SEQ_ESCAPE raw
              (term_cmd_lookup (is_host p) TERM_SEQ_ESCAPE raw (intermediates s))
              (term_charset_lookup raw (intermediates s)) 0)
  | ACTION_CSI_DISPATCH =>
      emit (seq_finish s TERM_SEQ_CSI raw
              (term_cmd_lookup (is_host p) TERM_SEQ_CSI raw (intermediates s))
              (charset s) 1)
  | ACTION_DCS_START =>
      (with_seq p
         (seq_finish s TERM_SEQ_DCS raw
            (term_cmd_lookup (is_host p) TERM_SEQ_DCS raw (intermediates s))
            (charset s) 1) next, None)
  | ACTION_OSC_START =>
      (with_seq p (seq_finish seq_clear TERM_SEQ_OSC raw TERM_CMD_NONE
                     TERM_CHARSET_NONE 0) next, None)
  | ACTION_SOS_START =>
      (with_seq p (seq_finish seq_clear TERM_SEQ_IGNORE raw TERM_CMD_NONE
                     TERM_CHARSET_NONE 0) next, None)
  | ACTION_PUT =>
      match parser_put p raw with
      | Some p' => (with_seq p' (seq p') next, None)
      | None => (with_seq p s (ignore_state next), None)
      end
  | ACTION_STRING_END =>
      let s := seq_terminate s in
      match type s with
      | TERM_SEQ_OSC =>
          emit (seq_finish s TERM_SEQ_OSC raw
                  (term_cmd_lookup (is_host p) TERM_SEQ_OSC raw 0)
                  (charset s) 0)
      | TERM_SEQ_DCS => emit s
      | _ => emit (seq_finish s TERM_SEQ_IGNORE raw TERM_CMD_NONE (charset s) 0)
      end
  end.

(** The states in which a string, kept or ignored, is being read. *)
Definition string_state (s : parser_state) : bool :=
  match s with
  | STATE_DCS_PASSTHROUGH | STATE_DCS_IGNORE | STATE_OSC_STRING
  | STATE_SOS_PM_APC_STRING => true
  | _ => false
  end.

(** How a string ends in each of them. *)
Definition string_end_action (s : parser_state) : parser_action :=
  match s with
  | STATE_DCS_IGNORE => ACTION_CLOSE_IGNORED
  | _ => ACTION_STRING_END
  end.

(** Modelled from the spec: the transitions of one state, "the canonical
    state diagram commonly attributed to Paul Williams", with what the
    spec adds to it. *)
Definition parser_feed_to_state (p : term_parser) (raw : Z)
  : term_parser * option term_seq :=
  let go := parser_transition p raw in
  let c0 := between 0x00 0x1F raw in
  match state p with
  | STATE_GROUND =>
      if c0 || between 0x80 0x9F raw then go STATE_GROUND ACTION_EXECUTE
      else go STATE_GROUND ACTION_PRINT
  | STATE_ESCAPE =>
      if c0 then go STATE_ESCAPE ACTION_EXECUTE
      else if between 0x20 0x2F raw then go STATE_ESCAPE_INTERMEDIATE ACTION_COLLECT
      else if raw =? 0x50 then go STATE_DCS_ENTRY ACTION_CLEAR
      else if raw =? 0x5B then go STATE_CSI_ENTRY ACTION_CLEAR
      else if raw =? 0x5D then go STATE_OSC_STRING ACTION_OSC_START
      else if (raw =? 0x58) || (raw =? 0x5E) || (raw =? 0x5F)
           then go STATE_SOS_PM_APC_STRING ACTION_SOS_START
      else if between 0x30 0x7E raw then go STATE_GROUND ACTION_ESC_DISPATCH
      else go STATE_ESCAPE ACTION_NONE
  | STATE_ESCAPE_INTERMEDIATE =>
      if c0 then go STATE_ESCAPE_INTERMEDIATE ACTION_EXECUTE
      else if between 0x20 0x2F raw then go STATE_ESCAPE_INTERMEDIATE ACTION_COLLECT
      else if between 0x30 0x7E raw then go STATE_GROUND ACTION_ESC_DISPATCH
      else go STATE_ESCAPE_INTERMEDIATE ACTION_NONE
  | STATE_CSI_ENTRY | STATE_CSI_PARAM =>
      if c0 then go (state p) ACTION_EXECUTE
      else if between 0x20 0x2F raw then go STATE_CSI_INTERMEDIATE ACTION_COLLECT
      else if between 0x30 0x3B raw then go STATE_CSI_PARAM ACTION_PARAM
      else if between 0x3C 0x3F raw then
        match state p with
        | STATE_CSI_ENTRY => go STATE_CSI_PARAM ACTION_COLLECT
        | _ => go STATE_CSI_IGNORE ACTION_NONE
        end
      else if between 0x40 0x7E raw then go STATE_GROUND ACTION_CSI_DISPATCH
      else go (state p) ACTION_NONE
  | STATE_CSI_INTERMEDIATE =>
      if c0 then go STATE_CSI_INTERMEDIATE ACTION_EXECUTE
      else if between 0x20 0x2F raw then go STATE_CSI_INTERMEDIATE ACTION_COLLECT
      else if between 0x30 0x3F raw then go STATE_CSI_IGNORE ACTION_NONE
      else if between 0x40 0x7E raw then go STATE_GROUND ACTION_CSI_DISPATCH
      else go STATE_CSI_INTERMEDIATE ACTION_NONE
  | STATE_CSI_IGNORE =>
      if c0 then go STATE_CSI_IGNORE ACTION_EXECUTE
      else if between 0x40 0x7E raw then go STATE_GROUND ACTION_CLOSE_IGNORED
      else go STATE_CSI_IGNORE ACTION_NONE
  | STATE_DCS_ENTRY | STATE_DCS_PARAM =>
      if c0 then go (state p) ACTION_NONE
      else if between 0x20 0x2F raw then go STATE_DCS_INTERMEDIATE ACTION_COLLECT
      else if between 0x30 0x3B raw then go STATE_DCS_PARAM ACTION_PARAM
      else if between 0x3C 0x3F raw then
        match state p with
        | STATE_DCS_ENTRY => go STATE_DCS_PARAM ACTION_COLLECT
        | _ => go STATE_DCS_IGNORE ACTION_NONE
        end
      else if between 0x40 0x7E raw then go STATE_DCS_PASSTHROUGH ACTION_DCS_START
      else go (state p) ACTION_NONE
  | STATE_DCS_INTERMEDIATE =>
      if c0 then go STATE_DCS_INTERMEDIATE ACTION_NONE
      else if between 0x20 0x2F raw then go STATE_DCS_INTERMEDIATE ACTION_COLLECT
      else if between 0x30 0x3F raw then go STATE_DCS_IGNORE ACTION_NONE
      else if between 0x40 0x7E raw then go STATE_DCS_PASSTHROUGH ACTION_DCS_START
      else go STATE_DCS_INTERMEDIATE ACTION_NONE
  | STATE_DCS_PASSTHROUGH =>
      if raw =? 0x7F then go STATE_DCS_PASSTHROUGH ACTION_NONE
      else go STATE_DCS_PASSTHROUGH ACTION_PUT
  | STATE_DCS_IGNORE => go STATE_DCS_IGNORE ACTION_NONE
  | STATE_OSC_STRING =>
      if c0 then go STATE_OSC_STRING ACTION_NONE
      else go STATE_OSC_STRING ACTION_PUT
  | STATE_SOS_PM_APC_STRING =>
      if c0 then go STATE_SOS_PM_APC_STRING ACTION_NONE
      else go STATE_SOS_PM_APC_STRING ACTION_PUT
  end.

(** Modelled from the spec: [term_parser_feed] of [term-parser.c].  "Input
    per step: one 32-bit value.  Output: a pointer to the accumulated seq
    when a complete sequence is recognized, otherwise null."  The bytes
    that act in every state come first: CAN and SUB abort ("back to
    GROUND and emits SEQ_IGNORE"); ESC, ST and, as its alias, BEL end a
    string; ESC and the C1 introducers start a sequence.  ST is the one
    value 0x9C or the two bytes ESC \: there the ESC ends the string,
    and the \ that follows it is an escape sequence of its own. *)
Definition term_parser_feed (p : term_parser) (raw : Z)
  : term_parser * option term_seq :=
  let go := parser_transition p raw in
  if (raw =? 0x18) || (raw =? 0x1A) then go STATE_GROUND ACTION_IGNORE
  else if raw =? 0x1B then
    if string_state (state p) then
      let '(p', out) := go STATE_ESCAPE (string_end_action (state p)) in
      (with_seq p' seq_clear STATE_ESCAPE, out)
    else go STATE_ESCAPE ACTION_CLEAR
  else if (raw =? 0x9C) || ((raw =? 0x07) && string_state (state p)) then
    if string_state (state p)
    then go STATE_GROUND (string_end_action (state p))
    else go STATE_GROUND ACTION_NONE
  else if string_state (state p) then parser_feed_to_state p raw
  else if raw =? 0x90 then go STATE_DCS_ENTRY ACTION_CLEAR
  else if raw =? 0x9B then go STATE_CSI_ENTRY ACTION_CLEAR
  else if raw =? 0x9D then go STATE_OSC_STRING ACTION_OSC_START
  else if (raw =? 0x98) || (raw =? 0x9E) || (raw =? 0x9F)
       then go STATE_SOS_PM_APC_STRING ACTION_SOS_START
  else if between 0x80 0x9F raw then go STATE_GROUND ACTION_EXECUTE
  else parser_feed_to_state p raw.

(** Modelled from the spec: [term_parser_new], with the string buffer at
    the size [alloc] the constructor gives it. *)
Definition term_parser_new (host : bool) (alloc : Z) : term_parser :=
  {| seq := seq_clear; st_alloc := alloc; state := STATE_GROUND;
     is_host := host |}.

(** A whole input through the parser: what each value handed out. *)
Fixpoint parser_feed_all (p : term_parser) (raws : list Z)
  : term_parser * list (option term_seq) :=
  match raws with
  | [] => (p, [])
  | raw :: raws' =>
      let '(p', out) := term_parser_feed p raw in
      let '(p'', outs) := parser_feed_all p' raws' in
      (p'', out :: outs)
  end.

End Feed.

(** The states in which parameters are still counted by index. *)
Definition counting_state (s : parser_state) : bool :=
  match s with
  | STATE_CSI_ENTRY | STATE_CSI_PARAM | STATE_CSI_INTERMEDIATE
  | STATE_DCS_ENTRY | STATE_DCS_PARAM | STATE_DCS_INTERMEDIATE => true
  | _ => false
  end.

(** The states in which parameter bytes are read, the state the next
    one is read in, and the two IGNORE states. *)
Definition param_state (s : parser_state) : bool :=
  match s with
  | STATE_CSI_ENTRY | STATE_CSI_PARAM | STATE_DCS_ENTRY | STATE_DCS_PARAM =>
      true
  | _ => false
  end.

Definition param_next (s : parser_state) : parser_state :=
  match s with
  | STATE_CSI_ENTRY | STATE_CSI_PARAM => STATE_CSI_PARAM
  | _ => STATE_DCS_PARAM
  end.

Definition is_ignore_state (s : parser_state) : bool :=
  match s with
  | STATE_CSI_IGNORE | STATE_DCS_IGNORE => true
  | _ => false
  end.

(** The states in which the bytes of a string are kept. *)
Definition put_state (s : parser_state) : bool :=
  match s with
  | STATE_DCS_PASSTHROUGH | STATE_OSC_STRING | STATE_SOS_PM_APC_STRING =>
      true
  | _ => false
  end.

(** The number of separators among the parameter bytes. *)
Definition count_separators (params : list Z) : Z :=
  Z.of_nat (count_occ Z.eq_dec params 0x3B).

(** The values that are part of a string in every state that keeps
    one, and the bytes a run of them adds to it. *)
Definition string_value (raw : Z) : Prop :=
  0x20 <= raw /\ raw <> 0x7F /\ raw <> 0x9C.

Definition string_bytes (raws : list Z) : list Z :=
  concat (map Utf8.term_utf8_encode raws).

(** The values that end a string: ST as 0x9C, BEL, and the ESC of
    ESC \; and the state the parser is in after them. *)
Definition string_terminator (raw : Z) : Prop :=
  raw = 0x9C \/ raw = 0x07 \/ raw = 0x1B.

Definition state_after (term : Z) : parser_state :=
  if term =? 0x1B then STATE_ESCAPE else STATE_GROUND.

(** The values that leave an IGNORE state of a string: the terminators,
    CAN and SUB. *)
Definition leaves_string (raw : Z) : bool :=
  (raw =? 0x9C) || (raw =? 0x07) || (raw =? 0x1B) || (raw =? 0x18)
  || (raw =? 0x1A).

(** The bounds of a record: sixteen argument slots, at most that many
    arguments, a payload of at most 4096 bytes. *)
Definition seq_ok (s : term_seq) : Prop :=
  length (args s) = Z.to_nat TERM_PARSER_ARG_MAX /\
  0 <= n_args s <= TERM_PARSER_ARG_MAX /\
  n_st s = Z.of_nat (length (st s)) /\
  n_st s <= TERM_PARSER_ST_MAX /\
  Forall (fun b => 0 <= b <= 0xFF) (st s).

(** A record that closes a sequence that was given up. *)
Definition seq_ignored (r : term_seq) (raw : Z) : Prop :=
  type r = TERM_SEQ_IGNORE /\ command r = TERM_CMD_NONE /\
  terminator r = raw.

(** The transitions the diagram makes: a parameter is only counted, and a
    sequence with parameters only finished, from a state that counts by
    index, and such a state is only entered afresh or from another one;
    the ground state is not left with a string under way. *)
Definition transition_allowed (cur next : parser_state) (act : parser_action)
  : bool :=
  match act with
  | ACTION_CLEAR | ACTION_OSC_START | ACTION_SOS_START => true
  | ACTION_CSI_DISPATCH =>
      counting_state cur && bool_decide (next = STATE_GROUND)
  | ACTION_DCS_START =>
      counting_state cur && negb (counting_state next)
  | ACTION_PUT => put_state cur && negb (counting_state next)
  | ACTION_PARAM => counting_state cur
  | ACTION_STRING_END =>
      put_state cur && bool_decide (next = STATE_GROUND)
  | _ =>
      implb (counting_state next) (counting_state cur)
      && (bool_decide (next = STATE_GROUND)
          || negb (bool_decide (cur = STATE_GROUND)))
  end.

(** The bounds a parser keeps, for a string buffer that started with
    [alloc] bytes: those of its record, room for the closing zero of a
    string under way, a buffer no larger than 4096 bytes unless it
    started larger, and, if it started with a byte at least, large
    enough for the string in it. *)
Definition parser_ok (alloc : Z) (p : term_parser) : Prop :=
  seq_ok (seq p) /\
  (counting_state (state p) = true ->
     n_args (seq p) + 1 <= TERM_PARSER_ARG_MAX) /\
  (state p <> STATE_GROUND -> n_st (seq p) + 1 <= TERM_PARSER_ST_MAX) /\
  st_alloc p <= Z.max alloc TERM_PARSER_ST_MAX /\
  (1 <= alloc ->
     1 <= st_alloc p /\ n_st (seq p) <= st_alloc p /\
     (state p <> STATE_GROUND -> n_st (seq p) + 1 <= st_alloc p)).

(** A command table that answers with the final byte, and no charsets. *)
Definition cmd_lookup_example (host : bool) (ty : seq_type) (raw i : Z) : Z :=
  raw.

Definition charset_lookup_example (raw i : Z) : Z := TERM_CHARSET_NONE.

End Parser.

(** ** Color codes *)

Module Color.

(** The anonymous enum of color codes; the field [ccode] of
    [struct term_color] that holds one is a [uint8_t]. *)
(* special color-codes *)
Definition TERM_CCODE_DEFAULT : Z := 0.
Definition TERM_CCODE_256 : Z := TERM_CCODE_DEFAULT + 1.
Definition TERM_CCODE_RGB : Z := TERM_CCODE_256 + 1.
(* dark color-codes *)
Definition TERM_CCODE_BLACK : Z := TERM_CCODE_RGB + 1.
Definition TERM_CCODE_RED : Z := TERM_CCODE_BLACK + 1.
Definition TERM_CCODE_GREEN : Z := TERM_CCODE_RED + 1.
Definition TERM_CCODE_YELLOW : Z := TERM_CCODE_GREEN + 1.
Definition TERM_CCODE_BLUE : Z := TERM_CCODE_YELLOW + 1.
Definition TERM_CCODE_MAGENTA : Z := TERM_CCODE_BLUE + 1.
Definition TERM_CCODE_CYAN : Z := TERM_CCODE_MAGENTA + 1.
Definition TERM_CCODE_WHITE : Z := TERM_CCODE_CYAN + 1.
(* light color-codes *)
Definition TERM_CCODE_LIGHT_BLACK : Z := TERM_CCODE_BLACK + 8.
Definition TERM_CCODE_LIGHT_RED : Z := TERM_CCODE_RED + 8.
Definition TERM_CCODE_LIGHT_GREEN : Z := TERM_CCODE_GREEN + 8.
Definition TERM_CCODE_LIGHT_YELLOW : Z := TERM_CCODE_YELLOW + 8.
Definition TERM_CCODE_LIGHT_BLUE : Z := TERM_CCODE_BLUE + 8.
Definition TERM_CCODE_LIGHT_MAGENTA : Z := TERM_CCODE_MAGENTA + 8.
Definition TERM_CCODE_LIGHT_CYAN : Z := TERM_CCODE_CYAN + 8.
Definition TERM_CCODE_LIGHT_WHITE : Z := TERM_CCODE_WHITE + 8.
Definition TERM_CCODE_CNT : Z := TERM_CCODE_LIGHT_WHITE + 1.

(** The enumerators in the order of their declaration, [TERM_CCODE_CNT]
    left out, and the two groups of eight colors. *)
Definition term_ccodes_dark : list Z :=
  [ TERM_CCODE_BLACK; TERM_CCODE_RED; TERM_CCODE_GREEN; TERM_CCODE_YELLOW;
    TERM_CCODE_BLUE; TERM_CCODE_MAGENTA; TERM_CCODE_CYAN; TERM_CCODE_WHITE ].

Definition term_ccodes_light : list Z :=
  [ TERM_CCODE_LIGHT_BLACK; TERM_CCODE_LIGHT_RED; TERM_CCODE_LIGHT_GREEN;
    TERM_CCODE_LIGHT_YELLOW; TERM_CCODE_LIGHT_BLUE; TERM_CCODE_LIGHT_MAGENTA;
    TERM_CCODE_LIGHT_CYAN; TERM_CCODE_LIGHT_WHITE ].

Definition term_ccodes : list Z :=
  [ TERM_CCODE_DEFAULT; TERM_CCODE_256; TERM_CCODE_RGB ]
  ++ term_ccodes_dark ++ term_ccodes_light.

End Color.

(** ** The enums as catalogs *)

Module Catalog.
Import Seq.

(** The charset enumerators that name a table, in the order of their
    declaration: the 96-compat ones, then the 94-compat ones.  The two
    NRCS aliases and the counters are left out. *)
Definition term_charsets_96 : list Z :=
  [ TERM_CHARSET_ISO_LATIN1_SUPPLEMENTAL; TERM_CHARSET_ISO_LATIN2_SUPPLEMENTAL;
    TERM_CHARSET_ISO_LATIN5_SUPPLEMENTAL; TERM_CHARSET_ISO_GREEK_SUPPLEMENTAL;
    TERM_CHARSET_ISO_HEBREW_SUPPLEMENTAL; TERM_CHARSET_ISO_LATIN_CYRILLIC ].

Definition term_charsets_94 : list Z :=
  [ TERM_CHARSET_DEC_SPECIAL_GRAPHIC; TERM_CHARSET_DEC_SUPPLEMENTAL;
    TERM_CHARSET_DEC_TECHNICAL; TERM_CHARSET_CYRILLIC_DEC;
    TERM_CHARSET_DUTCH_NRCS; TERM_CHARSET_FINNISH_NRCS;
    TERM_CHARSET_FRENCH_NRCS; TERM_CHARSET_FRENCH_CANADIAN_NRCS;
    TERM_CHARSET_GERMAN_NRCS; TERM_CHARSET_GREEK_DEC;
    TERM_CHARSET_GREEK_NRCS; TERM_CHARSET_HEBREW_DEC;
    TERM_CHARSET_HEBREW_NRCS; TERM_CHARSET_ITALIAN_NRCS;
    TERM_CHARSET_NORWEGIAN_DANISH_NRCS; TERM_CHARSET_PORTUGUESE_NRCS;
    TERM_CHARSET_RUSSIAN_NRCS; TERM_CHARSET_SCS_NRCS;
    TERM_CHARSET_SPANISH_NRCS; TERM_CHARSET_SWEDISH_NRCS;
    TERM_CHARSET_SWISS_NRCS; TERM_CHARSET_TURKISH_DEC;
    TERM_CHARSET_TURKISH_NRCS ].

(** The flags of a list of characters combined with [|], as a caller
    builds a mask to compare [intermediates] with; a character without
    an enumerator adds nothing. *)
Definition term_seq_mask (chs : list Z) : Z :=
  foldr (fun ch m => Z.lor (default 0 (term_seq_flag ch)) m) 0 chs.

End Catalog.

(** * Properties *)

(** ** Character handles *)

Import Char.

Lemma memcmp_refl (s : list Z) (n : nat) :
  (n <= length s)%nat -> memcmp s s n = 0.
Proof.
  revert n; induction s as [|x s IH]; intros [|n] Hn; simpl in *;
    try reflexivity; try lia.
  rewrite Z.eqb_refl. apply IH. lia.
Qed.

Lemma memcmp_zero (sa sb : list Z) :
  length sa = length sb -> memcmp sa sb (length sa) = 0 -> sa = sb.
Proof.
  revert sb; induction sa as [|x sa IH]; intros [|y sb] Hlen H;
    simpl in *; try reflexivity; try discriminate.
  destruct (Z.eqb_spec x y) as [->|Hne].
  - f_equal. apply IH; [lia | assumption].
  - destruct (x <? y); discriminate.
Qed.

Lemma term_char_same_eq (a b : term_char_t) :
  term_char_same a b = true <-> a = b.
Proof.
  destruct a as [va], b as [vb]; unfold term_char_same; simpl.
  rewrite Z.eqb_eq. split; [intros ->; reflexivity | intros [= ->]; reflexivity].
Qed.

Lemma term_char_equal_refl {Mem : Type} `{!TermCharImpl Mem}
    (m : Mem) (a : term_char_t) :
  is_Some (term_char_resolve m a) -> term_char_equal m a a = Some true.
Proof.
  intros [s Hs]. unfold term_char_equal. rewrite Hs. simpl.
  rewrite Nat.eqb_refl, memcmp_refl by lia. reflexivity.
Qed.

(** What the header's comment on [term_char_equal] promises, for every
    implementation of [term_char_resolve]. *)
Lemma term_char_same_equal {Mem : Type} `{!TermCharImpl Mem}
    (m : Mem) (a b : term_char_t) :
  is_Some (term_char_resolve m a) ->
  term_char_same a b = true -> term_char_equal m a b = Some true.
Proof.
  intros Hlive Hsame. apply term_char_same_eq in Hsame as <-.
  by apply term_char_equal_refl.
Qed.

Lemma foldr_max_nonneg (l : list Z) : 0 <= foldr Z.max 0 l.
Proof. induction l as [|x l IH]; cbn [foldr]; lia. Qed.

Lemma malloc_addr_bound (m : heap) (k : Z) (s : list Z) :
  m !! k = Some s -> k <= foldr Z.max 0 (map fst (map_to_list m)).
Proof.
  intros Hk. apply elem_of_map_to_list in Hk.
  induction (map_to_list m) as [|[k' s'] l IH]; cbn [map foldr fst].
  - by apply elem_of_nil in Hk.
  - apply elem_of_cons in Hk as [[= <- <-]|Hin]; [lia|].
    specialize (IH Hin). lia.
Qed.

Lemma malloc_addr_fresh (m : heap) : m !! malloc_addr m = None.
Proof.
  destruct (m !! malloc_addr m) as [s|] eqn:E; [|reflexivity].
  apply malloc_addr_bound in E. unfold malloc_addr in E.
  pose proof (foldr_max_nonneg (map fst (map_to_list m))). lia.
Qed.

Lemma malloc_addr_allocated (m : heap) :
  term_char_is_allocated (TERM_CHAR_INIT (malloc_addr m)) = true.
Proof.
  unfold term_char_is_allocated, term_char_is_null, malloc_addr; simpl.
  pose proof (foldr_max_nonneg (map fst (map_to_list m))) as HM.
  set (M := foldr Z.max 0 (map fst (map_to_list m))) in *.
  apply andb_true_iff; split.
  - apply negb_true_iff, Z.eqb_neq. lia.
  - apply Z.eqb_eq. change 1 with (Z.ones 1). rewrite Z.land_ones by lia.
    change (2 ^ 1) with 2. rewrite Z.mul_comm. apply Z.mod_mul. lia.
Qed.

Lemma heap_char_resolve_allocated (m : heap) (ch : term_char_t) :
  term_char_is_allocated ch = true ->
  heap_char_resolve m ch = m !! _value ch.
Proof.
  intros H. unfold heap_char_resolve. rewrite H.
  unfold term_char_is_allocated in H.
  destruct (term_char_is_null ch); [discriminate | reflexivity].
Qed.

(** C1: identity of two handles implies equality of their contents, and
    the converse fails: a live handle is always [term_char_equal] to its
    [term_char_dup], while an allocated one is never [term_char_same] as
    its copy. *)
Theorem term_char_same_implies_equal_not_conversely
    (m : heap) (a b : term_char_t) :
  live m a ->
  (term_char_same a b = true -> term_char_equal m a b = Some true) /\
  (let '(m', d) := term_char_dup m a in
   term_char_equal m' a d = Some true /\
   (term_char_is_allocated a = true -> term_char_same a d = false)).
Proof.
  intros Hlive. split.
  - intros Hsame. by apply term_char_same_equal.
  - unfold live in Hlive. simpl. unfold heap_char_dup.
    destruct (term_char_is_allocated a) eqn:Ealloc.
    + rewrite heap_char_resolve_allocated in Hlive by assumption.
      destruct Hlive as [s Hs]. rewrite Hs.
      pose proof (malloc_addr_fresh m) as Hfresh.
      pose proof (malloc_addr_allocated m) as Hp.
      assert (Hne : malloc_addr m <> _value a) by congruence.
      split.
      * unfold term_char_equal; simpl.
        rewrite (heap_char_resolve_allocated _ a Ealloc).
        rewrite (heap_char_resolve_allocated _ _ Hp). simpl.
        rewrite lookup_insert_eq, lookup_insert_ne by assumption.
        rewrite Hs. simpl.
        rewrite Nat.eqb_refl, memcmp_refl by lia. reflexivity.
      * intros _. unfold term_char_same. simpl. apply Z.eqb_neq. congruence.
    + split; [|discriminate].
      apply term_char_equal_refl. exact Hlive.
Qed.

Lemma term_char_same_implies_equal_not_conversely_witness :
  term_char_equal heap_example (TERM_CHAR_INIT 16) (TERM_CHAR_INIT 16) = Some true /\
  (let '(m', d) := term_char_dup heap_example (TERM_CHAR_INIT 16) in
   term_char_equal m' (TERM_CHAR_INIT 16) d = Some true /\
   term_char_same (TERM_CHAR_INIT 16) d = false).
Proof.
  assert (Hlive : live heap_example (TERM_CHAR_INIT 16)).
  { unfold live. vm_compute. eauto. }
  pose proof (term_char_same_implies_equal_not_conversely
                heap_example (TERM_CHAR_INIT 16) (TERM_CHAR_INIT 16) Hlive)
    as [Hsame Hdup].
  split; [apply Hsame; reflexivity|].
  destruct (term_char_dup heap_example (TERM_CHAR_INIT 16)) as [m' d].
  destruct Hdup as [Heq Hns]. split; [exact Heq | apply Hns; reflexivity].
Defined.

(** C2: a handle is allocated exactly when it is not the null handle and
    its low bit is clear; the null handle is not allocated, and no handle
    is both null and allocated. *)
Theorem term_char_is_allocated_iff (h : term_char_t) :
  (term_char_is_allocated h = true <->
     h <> TERM_CHAR_NULL /\ Z.land (_value h) 0x1 = 0) /\
  term_char_is_allocated TERM_CHAR_NULL = false /\
  (term_char_is_null h && term_char_is_allocated h = false).
Proof.
  destruct h as [v]. unfold term_char_is_allocated, term_char_is_null,
    TERM_CHAR_NULL; simpl.
  split; [|split].
  - rewrite andb_true_iff, negb_true_iff, !Z.eqb_eq, Z.eqb_neq.
    split; intros [H1 H2]; split; try assumption; congruence.
  - reflexivity.
  - destruct (v =? 0); reflexivity.
Qed.

(** C3: [term_char_free] leaves the allocator alone when the handle is not
    allocated, and otherwise its effect is that of [term_char_set (ch, 0)];
    this holds for every implementation of [term_char_set], so in the
    first case no call of it can have happened. *)
Theorem term_char_free_noop_unless_allocated
    {Mem : Type} `{!TermCharImpl Mem} (m : Mem) (ch : term_char_t) :
  (term_char_is_allocated ch = false ->
     term_char_free m ch = (m, TERM_CHAR_NULL)) /\
  (term_char_is_allocated ch = true ->
     term_char_free m ch = (fst (term_char_set m ch 0), TERM_CHAR_NULL)).
Proof.
  unfold term_char_free. split; intros ->; reflexivity.
Qed.

Lemma term_char_free_noop_unless_allocated_witness :
  term_char_free heap_example (TERM_CHAR_INIT 0xCB)
    = (heap_example, TERM_CHAR_NULL) /\
  term_char_free heap_example (TERM_CHAR_INIT 16)
    = (fst (term_char_set heap_example (TERM_CHAR_INIT 16) 0), TERM_CHAR_NULL) /\
  @term_char_free _ log_impl [] (TERM_CHAR_INIT 0xCB) = ([], TERM_CHAR_NULL) /\
  @term_char_free _ log_impl [] (TERM_CHAR_INIT 16)
    = ([(TERM_CHAR_INIT 16, 0)], TERM_CHAR_NULL).
Proof.
  split; [|split; [|split]].
  - apply (proj1 (term_char_free_noop_unless_allocated
                    heap_example (TERM_CHAR_INIT 0xCB))). reflexivity.
  - apply (proj2 (term_char_free_noop_unless_allocated
                    heap_example (TERM_CHAR_INIT 16))). reflexivity.
  - apply (proj1 (@term_char_free_noop_unless_allocated _ log_impl
                    [] (TERM_CHAR_INIT 0xCB))). reflexivity.
  - apply (proj2 (@term_char_free_noop_unless_allocated _ log_impl
                    [] (TERM_CHAR_INIT 16))). reflexivity.
Defined.

(** In the heap model the block of an allocated handle is gone after
    [term_char_free], and every other block is where it was. *)
Lemma heap_char_free_releases (m : heap) (ch : term_char_t) (k : Z) :
  term_char_is_allocated ch = true ->
  fst (term_char_free m ch) !! k
    = if decide (k = _value ch) then None else m !! k.
Proof.
  intros H. unfold term_char_free. rewrite H. simpl.
  unfold heap_char_set. rewrite H. simpl.
  destruct (decide (k = _value ch)) as [->|Hne].
  - apply lookup_delete_eq.
  - by apply lookup_delete_ne.
Qed.

Example char_pack_e : char_pack 0x65 0 0 = 0xCB.
Proof. reflexivity. Qed.

Example char_resolve_inline :
  heap_char_resolve heap_example (TERM_CHAR_INIT (char_pack 0x65 0x301 0))
    = Some [0x65; 0x301].
Proof. reflexivity. Qed.

(** C10: whatever the handle, [term_char_free] returns [TERM_CHAR_NULL];
    the returned handle is not allocated, and freeing it again changes
    nothing. *)
Theorem term_char_free_returns_null
    {Mem : Type} `{!TermCharImpl Mem} (m : Mem) (ch : term_char_t) :
  snd (term_char_free m ch) = TERM_CHAR_NULL /\
  term_char_is_allocated (snd (term_char_free m ch)) = false /\
  term_char_free (fst (term_char_free m ch)) (snd (term_char_free m ch))
    = term_char_free m ch.
Proof.
  unfold term_char_free; simpl. repeat split.
Qed.

(** ** Intermediate flags and the charset catalog *)

Import Seq.

(** C7: the flag of an intermediate character [ch] in 0x20..0x2F is
    [1U << (ch - 0x20)], from SPACE (bit 0) to SLASH (bit 15); colon and
    semicolon (bits 26 and 27) have no flag; the private markers
    [<], [=], [>], [?] have the flags of bits 28 to 31 under the same
    mapping. *)
Theorem term_seq_flag_mapping (ch : Z) :
  (0x20 <= ch <= 0x2F -> term_seq_flag ch = Some (shl1U (ch - 0x20))) /\
  (0x3C <= ch <= 0x3F ->
     term_seq_flag ch = Some (shl1U (ch - 0x20)) /\ 28 <= ch - 0x20 <= 31) /\
  (0x30 <= ch <= 0x3B -> term_seq_flag ch = None) /\
  term_seq_flag 0x20 = Some TERM_SEQ_FLAG_SPACE /\
  TERM_SEQ_FLAG_SPACE = 2 ^ 0 /\
  term_seq_flag 0x2F = Some TERM_SEQ_FLAG_SLASH /\
  TERM_SEQ_FLAG_SLASH = 2 ^ 15 /\
  term_seq_flag 0x3A = None /\ term_seq_flag 0x3B = None /\
  ~ In (shl1U 26) (map snd term_seq_flag_table) /\
  ~ In (shl1U 27) (map snd term_seq_flag_table) /\
  map (fun k => term_seq_flag k) [0x3C; 0x3D; 0x3E; 0x3F]
    = [Some (2 ^ 28); Some (2 ^ 29); Some (2 ^ 30); Some (2 ^ 31)].
Proof.
  split; [|split; [|split]].
  - intros H.
    assert (Hc : ch = 0x20 \/ ch = 0x21 \/ ch = 0x22 \/ ch = 0x23 \/
                 ch = 0x24 \/ ch = 0x25 \/ ch = 0x26 \/ ch = 0x27 \/
                 ch = 0x28 \/ ch = 0x29 \/ ch = 0x2A \/ ch = 0x2B \/
                 ch = 0x2C \/ ch = 0x2D \/ ch = 0x2E \/ ch = 0x2F) by lia.
    repeat (destruct Hc as [->|Hc]; [reflexivity|]). subst ch; reflexivity.
  - intros H. split; [|lia].
    assert (Hc : ch = 0x3C \/ ch = 0x3D \/ ch = 0x3E \/ ch = 0x3F) by lia.
    repeat (destruct Hc as [->|Hc]; [reflexivity|]). subst ch; reflexivity.
  - intros H.
    assert (Hc : ch = 0x30 \/ ch = 0x31 \/ ch = 0x32 \/ ch = 0x33 \/
                 ch = 0x34 \/ ch = 0x35 \/ ch = 0x36 \/ ch = 0x37 \/
                 ch = 0x38 \/ ch = 0x39 \/ ch = 0x3A \/ ch = 0x3B) by lia.
    repeat (destruct Hc as [->|Hc]; [reflexivity|]). subst ch; reflexivity.
  - repeat split; try reflexivity; vm_compute; intuition discriminate.
Qed.

Lemma term_seq_flag_mapping_witness :
  term_seq_flag 0x24 = Some (shl1U 4) /\
  term_seq_flag 0x3F = Some (shl1U 31) /\
  term_seq_flag 0x35 = None.
Proof.
  split; [|split].
  - apply (proj1 (term_seq_flag_mapping 0x24)). lia.
  - apply (proj1 (proj2 (term_seq_flag_mapping 0x3F))). lia.
  - apply (proj1 (proj2 (proj2 (term_seq_flag_mapping 0x35)))). lia.
Defined.

(** C9: in the charset enum the British NRCS is the same selector as ISO
    Latin-1 Supplemental and the American NRCS the same as ISO Latin-2
    Supplemental. *)
Theorem term_charset_nrcs_aliases :
  TERM_CHARSET_BRITISH_NRCS = TERM_CHARSET_ISO_LATIN1_SUPPLEMENTAL /\
  TERM_CHARSET_AMERICAN_NRCS = TERM_CHARSET_ISO_LATIN2_SUPPLEMENTAL /\
  TERM_CHARSET_BRITISH_NRCS = 1 /\ TERM_CHARSET_AMERICAN_NRCS = 2 /\
  TERM_CHARSET_96_CNT = 7 /\ TERM_CHARSET_CNT = 31.
Proof. repeat split. Qed.

(** ** Histories *)

Import History.

Lemma u32_small (z : Z) : 0 <= z < 2 ^ 32 -> u32 z = z.
Proof. intros H. unfold u32. apply Z.mod_small. exact H. Qed.

Lemma trim_loop_ok (ls : list term_line) (n max : Z) :
  n = Z.of_nat (length ls) -> n < 2 ^ 32 ->
  let '(ls', n') := trim_loop ls n max in
  n' = Z.of_nat (length ls') /\ n' <= n /\ (0 <= max -> n' <= max).
Proof.
  revert n; induction ls as [|l ls IH]; intros n Hn Hlt; cbn [trim_loop].
  - destruct (Z.leb_spec n max); simpl in *; lia.
  - destruct (Z.leb_spec n max); [simpl in *; lia|].
    cbn [length] in Hn. rewrite u32_small by lia.
    specialize (IH (n - 1) ltac:(lia) ltac:(lia)).
    destruct (trim_loop ls (n - 1) max) as [ls' n']. lia.
Qed.

Section HistoryFacts.
Variable reserve : term_line -> Z -> term_attr -> Z -> Z -> term_line.

Lemma history_step_ok (h : term_history) (op : history_op) :
  history_ok h -> history_ok (history_step reserve h op).
Proof.
  intros (Hn & Hle & Hmax). destruct op; cbn [history_step].
  - unfold history_ok, term_history_clear; simpl. lia.
  - unfold term_history_trim.
    pose proof (trim_loop_ok (lines h) (n_lines h) max Hn ltac:(lia)) as Ht.
    destruct (trim_loop (lines h) (n_lines h) max) as [ls' n'].
    unfold history_ok; simpl. lia.
  - unfold term_history_push.
    destruct (Z.eqb_spec (n_lines h) (max_lines h)) as [Heq|Hne];
      unfold history_ok; cbn [lines n_lines max_lines].
    + destruct (lines h) as [|l0 ls]; cbn [app tail length] in *;
        [|rewrite length_app; cbn [length]]; lia.
    + rewrite u32_small by lia. rewrite length_app; cbn [length]. lia.
  - unfold term_history_pop.
    destruct (lines h) as [|l0 ls] eqn:El using rev_ind.
    + simpl. unfold history_ok. rewrite El. simpl in *. lia.
    + rewrite last_snoc. cbn [fst]. unfold history_ok; cbn [lines n_lines max_lines].
      rewrite removelast_last. rewrite length_app in Hn; cbn [length] in Hn.
      rewrite u32_small by lia. lia.
  - unfold history_ok; simpl. lia.
Qed.

Lemma history_run_ok (ops : list history_op) (h : term_history) :
  history_ok h -> history_ok (history_run reserve h ops).
Proof.
  revert h; induction ops as [|op ops IH]; intros h Hok; simpl.
  - exact Hok.
  - apply IH. by apply history_step_ok.
Qed.

(** C8: whatever operations are applied to a history, its count stays
    within its cap; pushing onto a full history keeps the count and drops
    the head, the new line being the tail. *)
Theorem term_history_n_lines_le_max_lines
    (h : term_history) (ops : list history_op) (line : term_line) :
  history_ok h ->
  n_lines (history_run reserve h ops) <= max_lines (history_run reserve h ops) /\
  history_ok (history_run reserve h ops) /\
  (n_lines h = max_lines h ->
     n_lines (term_history_push h line) = max_lines h /\
     max_lines (term_history_push h line) = max_lines h /\
     lines (term_history_push h line) = tail (lines h ++ [line]) /\
     (0 < max_lines h ->
        lines (term_history_push h line) = tail (lines h) ++ [line])).
Proof.
  intros Hok. pose proof (history_run_ok ops h Hok) as Hrun.
  split; [apply Hrun|]. split; [exact Hrun|].
  intros Hfull. unfold term_history_push.
  rewrite (proj2 (Z.eqb_eq _ _) Hfull). cbn [lines n_lines max_lines].
  repeat split; try assumption.
  intros Hpos. destruct Hok as (Hn & _ & _).
  destruct (lines h); simpl in *; [lia | reflexivity].
Qed.

End HistoryFacts.

Lemma term_history_n_lines_le_max_lines_witness :
  let ops := [OpPush (line_of_width 3); OpPop 80 attr_default 1;
              OpPush (line_of_width 4); OpPush (line_of_width 5);
              OpTrim 1; OpPush (line_of_width 6)] in
  n_lines (history_run reserve_example history_example ops)
    <= max_lines (history_run reserve_example history_example ops) /\
  lines (term_history_push history_example (line_of_width 3))
    = [line_of_width 2; line_of_width 3].
Proof.
  intros ops.
  assert (Hok : history_ok history_example).
  { unfold history_ok; simpl. lia. }
  destruct (term_history_n_lines_le_max_lines reserve_example
              history_example ops (line_of_width 3) Hok)
    as (Hle & _ & Hfull).
  split; [exact Hle|].
  destruct (Hfull eq_refl) as (_ & _ & _ & Hlines).
  apply Hlines. reflexivity.
Defined.

Example history_run_example :
  map width
    (lines (history_run reserve_example history_example
              [OpPush (line_of_width 3); OpPop 80 attr_default 1;
               OpPush (line_of_width 4); OpPush (line_of_width 5)]))
  = [4; 5].
Proof. reflexivity. Qed.

(** ** The UTF-8 decoder and encoder *)

Import Utf8.

Lemma take_S_insert (cs : list Z) (i : nat) (x : Z) :
  (i < length cs)%nat -> take (S i) (<[i := x]> cs) = take i cs ++ [x].
Proof.
  intros Hi. rewrite (take_S_r _ _ x) by (by apply list_lookup_insert_eq).
  by rewrite take_insert_ge.
Qed.

Lemma chars_store_Some (cs : list Z) (i v : Z) :
  0 <= i < 5 -> chars_store cs i v = Some (<[Z.to_nat i := v]> cs).
Proof.
  intros Hi. unfold chars_store.
  destruct (Z.leb_spec 0 i), (Z.ltb_spec i 5); simpl; (reflexivity || lia).
Qed.

(** *** Bit arithmetic of the codec *)

Lemma lor_disjoint_add (a b k : Z) :
  0 <= k -> 0 <= b < 2 ^ k -> Z.lor (a * 2 ^ k) b = a * 2 ^ k + b.
Proof.
  intros Hk Hb. rewrite <- Z.add_lor_land.
  assert (Z.land (a * 2 ^ k) b = 0) as ->; [|lia].
  apply Z.bits_inj'. intros n Hn. rewrite Z.land_spec, Z.bits_0.
  destruct (Z.lt_ge_cases n k).
  - rewrite <- Z.shiftl_mul_pow2 by lia.
    rewrite Z.shiftl_spec_low by lia. reflexivity.
  - rewrite <- (Z.mod_small b (2 ^ k)) by lia.
    rewrite Z.mod_pow2_bits_high by lia. apply andb_false_r.
Qed.

Lemma ucs4_accumulate (v y k : Z) :
  0 <= k -> 0 <= y < 64 ->
  Z.lor (v * 2 ^ (k + 6)) (Z.shiftl y k) = (v * 64 + y) * 2 ^ k.
Proof.
  intros Hk Hy. rewrite Z.pow_add_r by lia.
  replace (v * (2 ^ k * 2 ^ 6)) with (v * 2 ^ 6 * 2 ^ k) by ring.
  rewrite <- !Z.shiftl_mul_pow2 by lia.
  rewrite <- Z.shiftl_lor. f_equal.
  rewrite Z.shiftl_mul_pow2 by lia.
  rewrite lor_disjoint_add by (change (2 ^ 6) with 64; lia).
  reflexivity.
Qed.

Lemma byte_forall (P : Z -> bool) :
  forallb P (map Z.of_nat (seq 0 256)) = true ->
  forall b, 0 <= b < 256 -> P b = true.
Proof.
  intros H b Hb. rewrite forallb_forall in H. apply H.
  apply in_map_iff. exists (Z.to_nat b). split; [lia|]. apply in_seq. lia.
Qed.

Lemma encode_continuation (g : Z) :
  Z.lor 0x80 (Z.land g 0x3F) = 0x80 + g mod 64.
Proof.
  change 0x3F with (Z.ones 6). rewrite Z.land_ones by lia.
  change 0x80 with (2 * 2 ^ 6). change (2 ^ 6) with 64 at 2.
  apply lor_disjoint_add; [lia|]. change (2 ^ 6) with 64.
  apply Z.mod_pos_bound. lia.
Qed.

(** *** The encoder, byte by byte *)

Lemma utf8_valid_ucs4_spec (v : Z) :
  utf8_valid_ucs4 v = true <->
  0 <= v <= 0x10FFFF /\ ~ (0xD800 <= v <= 0xDFFF).
Proof.
  unfold utf8_valid_ucs4.
  destruct (Z.leb_spec 0 v), (Z.leb_spec v 0x10FFFF),
    (Z.leb_spec 0xD800 v), (Z.leb_spec v 0xDFFF); simpl;
    (split; [intros; lia || discriminate | intros; reflexivity || lia]).
Qed.

(** The bytes of an encoding, as sums. *)
Lemma term_utf8_encode_bytes (v : Z) :
  utf8_valid_ucs4 v = true ->
  term_utf8_encode v =
    if v <? 0x80 then [v]
    else if v <? 0x800 then [0xC0 + v / 64; 0x80 + v mod 64]
    else if v <? 0x10000 then
      [0xE0 + v / 4096; 0x80 + (v / 64) mod 64; 0x80 + v mod 64]
    else [0xF0 + v / 262144; 0x80 + (v / 4096) mod 64;
          0x80 + (v / 64) mod 64; 0x80 + v mod 64].
Proof.
  intros Hv. unfold term_utf8_encode. rewrite Hv.
  apply utf8_valid_ucs4_spec in Hv as [Hr _].
  destruct (Z.ltb_spec v 0x80); [reflexivity|].
  rewrite !encode_continuation, !Z.shiftr_div_pow2 by lia.
  change (2 ^ 6) with 64. change (2 ^ 12) with 4096.
  change (2 ^ 18) with 262144.
  destruct (Z.ltb_spec v 0x800).
  { change 0xC0 with (6 * 2 ^ 5) at 1.
    rewrite lor_disjoint_add
      by (change (2 ^ 5) with 32; Z.div_mod_to_equations; lia).
    reflexivity. }
  destruct (Z.ltb_spec v 0x10000).
  { change 0xE0 with (14 * 2 ^ 4) at 1.
    rewrite lor_disjoint_add
      by (change (2 ^ 4) with 16; Z.div_mod_to_equations; lia).
    reflexivity. }
  change 0xF0 with (30 * 2 ^ 3) at 1.
  rewrite lor_disjoint_add
    by (change (2 ^ 3) with 8; Z.div_mod_to_equations; lia).
  reflexivity.
Qed.

(** *** Sequences by ranges *)

Ltac no_test a :=
  lazymatch a with
  | context [Z.ltb _ _] => fail
  | context [Z.leb _ _] => fail
  | context [Z.eqb _ _] => fail
  | _ => idtac
  end.

Ltac decide_cmp :=
  repeat match goal with
         | |- context [Z.eqb ?a ?b] =>
             no_test a; no_test b; destruct (Z.eqb_spec a b); try lia
         | |- context [Z.ltb ?a ?b] =>
             no_test a; no_test b; destruct (Z.ltb_spec a b); try lia
         | |- context [Z.leb ?a ?b] =>
             no_test a; no_test b; destruct (Z.leb_spec a b); try lia
         end.

Ltac decide_cmp_in H :=
  repeat match type of H with
         | context [Z.eqb ?a ?b] =>
             no_test a; no_test b; destruct (Z.eqb_spec a b); try lia
         | context [Z.ltb ?a ?b] =>
             no_test a; no_test b; destruct (Z.ltb_spec a b); try lia
         | context [Z.leb ?a ?b] =>
             no_test a; no_test b; destruct (Z.leb_spec a b); try lia
         end.

Lemma utf8_seq_len_range (b0 : Z) : 0 <= utf8_seq_len b0 <= 4.
Proof. unfold utf8_seq_len. decide_cmp. Qed.

Lemma utf8_lead_spec (b : Z) :
  0 <= b < 256 ->
  utf8_lead b = if 2 <=? utf8_seq_len b
                then Some (utf8_seq_len b, utf8_payload b) else None.
Proof.
  intros Hb.
  apply (byte_forall
           (fun b => bool_decide
                       (utf8_lead b = if 2 <=? utf8_seq_len b
                                      then Some (utf8_seq_len b, utf8_payload b)
                                      else None))) in Hb.
  - by apply bool_decide_eq_true in Hb.
  - vm_compute. reflexivity.
Qed.

Lemma utf8_tail_range (lead i : Z) :
  0x80 <= utf8_tail_lo lead i <= utf8_tail_hi lead i /\
  utf8_tail_hi lead i <= 0xBF.
Proof. unfold utf8_tail_lo, utf8_tail_hi. decide_cmp. Qed.

Lemma utf8_is_continuation_range (lead i b : Z) :
  utf8_is_continuation lead i b = true -> 0x80 <= b <= 0xBF.
Proof.
  unfold utf8_is_continuation. intros H.
  apply andb_true_iff in H as [Hl Hh]. apply Z.leb_le in Hl, Hh.
  pose proof (utf8_tail_range lead i). lia.
Qed.

Lemma utf8_tails_ok_app (lead i : Z) (a b : list Z) :
  utf8_tails_ok lead i (a ++ b)
  = utf8_tails_ok lead i a && utf8_tails_ok lead (i + Z.of_nat (length a)) b.
Proof.
  revert i; induction a as [|x a IH]; intros i; cbn [app utf8_tails_ok length].
  - by rewrite Z.add_0_r.
  - rewrite IH, <- andb_assoc. do 3 f_equal. lia.
Qed.

Lemma utf8_tails_ok_range (lead i : Z) (tl : list Z) :
  utf8_tails_ok lead i tl = true -> Forall (fun b => 0x80 <= b <= 0xBF) tl.
Proof.
  revert i; induction tl as [|b tl IH]; intros i; cbn [utf8_tails_ok].
  - constructor.
  - intros H. apply andb_true_iff in H as [Hb Ht].
    constructor; [by eapply utf8_is_continuation_range|].
    by eapply IH.
Qed.

Lemma utf8_wf_bytes (s : list Z) :
  utf8_wf s = true -> Forall (fun b => 0 <= b <= 0xFF) s.
Proof.
  destruct s as [|b0 tl]; [discriminate|]. unfold utf8_wf. intros H.
  apply andb_true_iff in H as [H Ht]. apply andb_true_iff in H as [H0 Hl].
  apply Z.leb_le in H0, Hl.
  constructor.
  - assert (Hp : 0 < utf8_seq_len b0) by (cbn [length] in *; lia).
    unfold utf8_seq_len in Hp. decide_cmp_in Hp.
  - eapply Forall_impl; [by eapply utf8_tails_ok_range|].
    simpl. intros; lia.
Qed.

(** A beginning with one more byte, and a beginning cut short. *)
Lemma utf8_wf_snoc (b0 : Z) (tl : list Z) (b : Z) :
  utf8_wf (b0 :: tl) = true ->
  utf8_wf ((b0 :: tl) ++ [b])
  = (Z.of_nat (length (b0 :: tl)) <? utf8_seq_len b0)
    && utf8_is_continuation b0 (Z.of_nat (length (b0 :: tl))) b.
Proof.
  unfold utf8_wf. cbn [app]. intros H.
  apply andb_true_iff in H as [H Ht]. apply andb_true_iff in H as [H0 Hl].
  rewrite utf8_tails_ok_app. cbn [utf8_tails_ok].
  rewrite Ht, H0, andb_true_r. cbn [andb].
  cbn [length] in *. rewrite length_app. cbn [length].
  replace (1 + Z.of_nat (length tl)) with (Z.of_nat (S (length tl))) by lia.
  f_equal.
  destruct (Z.leb_spec (Z.of_nat (S (length tl + 1))) (utf8_seq_len b0)),
    (Z.ltb_spec (Z.of_nat (S (length tl))) (utf8_seq_len b0));
    (reflexivity || lia).
Qed.

Lemma utf8_wf_prefix (s r : list Z) :
  s <> [] -> utf8_wf (s ++ r) = true ->
  utf8_wf s = true /\ utf8_len s = utf8_len (s ++ r).
Proof.
  destruct s as [|b0 tl]; [done|]. intros _. unfold utf8_wf. cbn [app utf8_len].
  intros H.
  apply andb_true_iff in H as [H Ht]. apply andb_true_iff in H as [H0 Hl].
  rewrite utf8_tails_ok_app in Ht. apply andb_true_iff in Ht as [Ht _].
  split; [|reflexivity].
  rewrite Ht, H0, andb_true_r. cbn [andb].
  apply Z.leb_le. apply Z.leb_le in Hl.
  cbn [length] in *. rewrite length_app in Hl. lia.
Qed.

Lemma utf8_value_snoc (b0 : Z) (tl : list Z) (b : Z) :
  utf8_value ((b0 :: tl) ++ [b]) = utf8_value (b0 :: tl) * 64 + (b - 0x80).
Proof. unfold utf8_value. cbn [app]. by rewrite fold_left_app. Qed.

(** The encoding of a valid code point is a whole sequence by ranges, and
    its payload is the code point. *)
Lemma term_utf8_encode_wf (v : Z) :
  utf8_valid_ucs4 v = true ->
  utf8_wf (term_utf8_encode v) = true /\
  Z.of_nat (length (term_utf8_encode v)) = utf8_len (term_utf8_encode v) /\
  utf8_value (term_utf8_encode v) = v.
Proof.
  intros Hv. rewrite (term_utf8_encode_bytes v Hv).
  apply utf8_valid_ucs4_spec in Hv as [Hr Hs].
  destruct (Z.ltb_spec v 0x80); [|destruct (Z.ltb_spec v 0x800);
    [|destruct (Z.ltb_spec v 0x10000)]];
    unfold utf8_wf, utf8_len, utf8_value, utf8_seq_len, utf8_payload;
    cbn [utf8_tails_ok length fold_left];
    unfold utf8_is_continuation, utf8_tail_lo, utf8_tail_hi;
    Z.div_mod_to_equations;
    (split; [|split]); decide_cmp; cbn [andb]; (reflexivity || lia).
Qed.

(** A whole sequence by ranges is the encoding of its payload, a valid code
    point. *)
Lemma utf8_wf_complete (s : list Z) :
  utf8_wf s = true -> Z.of_nat (length s) = utf8_len s ->
  utf8_valid_ucs4 (utf8_value s) = true /\
  term_utf8_encode (utf8_value s) = s.
Proof.
  intros Hwf Hlen.
  enough (Hv : utf8_valid_ucs4 (utf8_value s) = true /\
               (utf8_valid_ucs4 (utf8_value s) = true ->
                term_utf8_encode (utf8_value s) = s))
    by (destruct Hv; auto).
  destruct s as [|b0 [|b1 [|b2 [|b3 [|b4 tl]]]]]; [discriminate|..];
    unfold utf8_len in Hlen; cbn [length] in Hlen;
    try (pose proof (utf8_seq_len_range b0); lia);
    unfold utf8_wf in Hwf; cbn [utf8_tails_ok length] in Hwf;
    unfold utf8_is_continuation, utf8_tail_lo, utf8_tail_hi in Hwf;
    unfold utf8_seq_len in Hwf, Hlen;
    decide_cmp_in Hlen; decide_cmp_in Hwf; cbn [andb] in Hwf;
    try discriminate;
    unfold utf8_value, utf8_payload; cbn [fold_left]; decide_cmp;
    (split;
     [apply utf8_valid_ucs4_spec; lia
     |intros Hv; rewrite (term_utf8_encode_bytes _ Hv); decide_cmp;
      repeat f_equal; Z.div_mod_to_equations; lia]).
Qed.

(** *** One byte through the decoder *)

Lemma utf8_tracks_init : utf8_tracks [] term_utf8_init.
Proof. repeat split. constructor. Qed.

Lemma utf8_tracks_done (p : term_utf8) :
  length (chars p) = 5%nat -> utf8_tracks [] (utf8_done p).
Proof. intros Hl. repeat split; [exact Hl | constructor]. Qed.

(** The decoder's next step is read off the bytes it holds back and the
    new byte: more input is needed while they are the beginning of a
    longer sequence, a code point is handed out when they are a whole
    sequence, and they are replayed when they are no beginning. *)
Lemma term_utf8_decode_tracks (kept : list Z) (p : term_utf8) (c : Z) :
  utf8_tracks kept p ->
  exists p' out,
    term_utf8_decode p c = Some (p', out) /\
    ((utf8_wf (kept ++ [c mod 256]) = true /\
      Z.of_nat (length (kept ++ [c mod 256])) < utf8_len (kept ++ [c mod 256]) /\
      out = [] /\ utf8_tracks (kept ++ [c mod 256]) p') \/
     (utf8_wf (kept ++ [c mod 256]) = true /\
      Z.of_nat (length (kept ++ [c mod 256])) = utf8_len (kept ++ [c mod 256]) /\
      out = [utf8_value (kept ++ [c mod 256])] /\ utf8_tracks [] p') \/
     (utf8_wf (kept ++ [c mod 256]) = false /\
      out = kept ++ [c mod 256] /\ utf8_tracks [] p')).
Proof.
  intros (Hlen & Hi & Htake & Hbytes & Hk).
  assert (Hb : 0 <= c mod 256 < 256) by (apply Z.mod_pos_bound; lia).
  set (b := c mod 256) in *.
  destruct kept as [|k0 tl].
  - (* nothing is held back *)
    unfold term_utf8_decode. fold b. rewrite Hk. cbn [negb orb].
    rewrite (utf8_lead_spec b Hb).
    rewrite (chars_store_Some (chars p) 0 b) by lia.
    pose proof (utf8_seq_len_range b) as Hr.
    cbn [app]. unfold utf8_wf, utf8_len. cbn [length utf8_tails_ok].
    replace (0 <=? b) with true by (symmetry; apply Z.leb_le; lia).
    rewrite andb_true_l, andb_true_r.
    change (Z.of_nat 1) with 1.
    destruct (Z.leb_spec 2 (utf8_seq_len b)) as [H2|H2]; cbn [mbind option_bind].
    + eexists _, _. split; [reflexivity|]. left.
      split; [apply Z.leb_le; lia|]. split; [lia|]. split; [reflexivity|].
      unfold utf8_tracks. cbn [chars i_bytes n_bytes valid ucs4 length].
      rewrite length_insert.
      split; [exact Hlen|]. split; [reflexivity|].
      split; [destruct (chars p); [discriminate|reflexivity]|].
      split; [constructor; [lia|constructor]|].
      split; [reflexivity|].
      unfold utf8_wf, utf8_len, utf8_value. cbn [length utf8_tails_ok fold_left].
      replace (0 <=? b) with true by (symmetry; apply Z.leb_le; lia).
      split; [rewrite andb_true_l, andb_true_r; apply Z.leb_le; lia|].
      change (Z.of_nat 1) with 1.
      split; [lia|]. split; [unfold bits3; apply Z.mod_small; lia|].
      rewrite Z.shiftl_mul_pow2 by lia. reflexivity.
    + destruct (Z.leb_spec 1 (utf8_seq_len b)) as [H1|H1].
      * eexists _, _. split; [reflexivity|]. right; left.
        split; [reflexivity|]. split; [lia|].
        split.
        -- unfold utf8_value, utf8_payload. cbn [fold_left].
           assert (b < 0x80)
             by (unfold utf8_seq_len in H1, H2; decide_cmp_in H2).
           replace (b <? 0x80) with true by (symmetry; apply Z.ltb_lt; lia).
           destruct (chars p); [discriminate|reflexivity].
        -- apply utf8_tracks_done. cbn [chars]. by rewrite length_insert.
      * eexists _, _. split; [reflexivity|]. right; right.
        split; [reflexivity|].
        split; [destruct (chars p); [discriminate|reflexivity]|].
        apply utf8_tracks_done. cbn [chars]. by rewrite length_insert.
  - (* a sequence is pending *)
    destruct Hk as (Hv & Hwf & Hlt & Hn & Hu).
    assert (Hk0 : nth 0 (chars p) 0 = k0).
    { destruct (chars p) as [|x cs]; [discriminate|].
      cbn [length take] in Htake. by injection Htake as -> _. }
    pose proof (utf8_seq_len_range k0) as Hr.
    unfold utf8_len in Hlt, Hn, Hu.
    assert (Hnat : Z.to_nat (i_bytes p) = length (k0 :: tl)) by lia.
    unfold term_utf8_decode. fold b. rewrite Hv, Hk0. cbn [negb orb].
    replace (n_bytes p <=? i_bytes p) with false
      by (symmetry; apply Z.leb_gt; lia).
    rewrite (chars_store_Some (chars p) (i_bytes p) b) by lia.
    cbn [mbind option_bind].
    assert (Hb3 : bits3 (i_bytes p + 1) = i_bytes p + 1)
      by (unfold bits3; apply Z.mod_small; lia).
    rewrite Hb3, Hnat.
    rewrite (utf8_wf_snoc k0 tl b Hwf).
    replace (Z.of_nat (length (k0 :: tl)) <? utf8_seq_len k0) with true
      by (symmetry; apply Z.ltb_lt; lia).
    rewrite andb_true_l, <- Hi.
    assert (Hlen' : Z.of_nat (length ((k0 :: tl) ++ [b])) = i_bytes p + 1)
      by (rewrite length_app; cbn [length] in *; lia).
    rewrite Hlen'. change (utf8_len ((k0 :: tl) ++ [b])) with (utf8_seq_len k0).
    destruct (utf8_is_continuation k0 (i_bytes p) b) eqn:Hc.
    + apply utf8_is_continuation_range in Hc as Hcr.
      assert (Hu' : Z.lor (ucs4 p)
                      (Z.shiftl (Z.land b 0x3F)
                         (6 * (n_bytes p - (i_bytes p + 1))))
                    = utf8_value ((k0 :: tl) ++ [b])
                      * 2 ^ (6 * (utf8_seq_len k0 - (i_bytes p + 1)))).
      { rewrite utf8_value_snoc, Hu, Hn, <- Hi.
        replace (6 * (utf8_seq_len k0 - i_bytes p))
          with (6 * (utf8_seq_len k0 - (i_bytes p + 1)) + 6) by lia.
        assert (Hland : Z.land b 0x3F = b - 0x80).
        { change 0x3F with (Z.ones 6). rewrite Z.land_ones by lia.
          change (2 ^ 6) with 64. Z.div_mod_to_equations. lia. }
        rewrite Hland. apply ucs4_accumulate; lia. }
      rewrite Hu', Hn.
      destruct (Z.ltb_spec (i_bytes p + 1) (utf8_seq_len k0)) as [Hm|Hm].
      * eexists _, _. split; [reflexivity|]. left.
        split; [reflexivity|]. split; [lia|]. split; [reflexivity|].
        unfold utf8_tracks. cbn [chars i_bytes n_bytes valid ucs4].
        rewrite length_insert.
        split; [exact Hlen|]. split; [lia|].
        split.
        { rewrite length_app. cbn [length].
          replace (S (length tl) + 1)%nat with (S (length (k0 :: tl)))
            by (cbn [length]; lia).
          rewrite take_S_insert by (cbn [length] in *; lia).
          cbn [length] in Htake |- *. by rewrite Htake. }
        split; [apply Forall_app; split;
                [exact Hbytes | constructor; [lia|constructor]]|].
        cbn [app].
        split; [reflexivity|].
        split.
        { change (k0 :: tl ++ [b]) with ((k0 :: tl) ++ [b]).
          rewrite (utf8_wf_snoc k0 tl b Hwf), <- Hi, Hc.
          apply andb_true_iff; split; [apply Z.ltb_lt; lia|reflexivity]. }
        change (k0 :: tl ++ [b]) with ((k0 :: tl) ++ [b]).
        rewrite Hlen'.
        change (utf8_len ((k0 :: tl) ++ [b])) with (utf8_seq_len k0).
        split; [lia|]. split; [reflexivity|]. reflexivity.
      * eexists _, _. split; [reflexivity|]. right; left.
        split; [reflexivity|]. split; [lia|].
        split.
        { replace (utf8_seq_len k0 - (i_bytes p + 1)) with 0 by lia.
          cbn. by rewrite Z.mul_1_r. }
        apply utf8_tracks_done. cbn [chars]. by rewrite length_insert.
    + eexists _, _. split; [reflexivity|]. right; right.
      split; [reflexivity|].
      split.
      { replace (Z.to_nat (i_bytes p + 1)) with (S (length (k0 :: tl))) by lia.
        rewrite take_S_insert by (cbn [length] in *; lia).
        cbn [length] in Htake |- *. by rewrite Htake. }
      apply utf8_tracks_done. cbn [chars]. by rewrite length_insert.
Qed.

(** *** Beginnings of encodings *)

(** A beginning by ranges can be completed to the encoding of a valid
    code point, with as many bytes as its first byte still asks for. *)
Lemma utf8_wf_extend (k : nat) (s : list Z) :
  utf8_wf s = true -> utf8_len s - Z.of_nat (length s) = Z.of_nat k ->
  exists v rest,
    utf8_valid_ucs4 v = true /\ term_utf8_encode v = s ++ rest /\
    length rest = k.
Proof.
  revert s; induction k as [|k IH]; intros s Hwf Hk.
  - destruct (utf8_wf_complete s Hwf ltac:(lia)) as [Hv He].
    exists (utf8_value s), []. by rewrite app_nil_r.
  - destruct s as [|b0 tl]; [discriminate|].
    set (b := utf8_tail_lo b0 (Z.of_nat (length (b0 :: tl)))).
    assert (Hc : utf8_is_continuation b0 (Z.of_nat (length (b0 :: tl))) b = true).
    { unfold utf8_is_continuation, b.
      pose proof (utf8_tail_range b0 (Z.of_nat (length (b0 :: tl)))).
      apply andb_true_iff; split; apply Z.leb_le; lia. }
    unfold utf8_len in Hk.
    assert (Hwf' : utf8_wf ((b0 :: tl) ++ [b]) = true).
    { rewrite (utf8_wf_snoc b0 tl b Hwf), Hc.
      apply andb_true_iff; split; [apply Z.ltb_lt; lia|reflexivity]. }
    destruct (IH ((b0 :: tl) ++ [b]) Hwf') as (v & rest & Hv & He & Hl).
    { change (utf8_len ((b0 :: tl) ++ [b])) with (utf8_seq_len b0).
      rewrite length_app. cbn [length] in *. lia. }
    exists v, (b :: rest). split; [exact Hv|].
    split; [by rewrite He, <- app_assoc|]. cbn [length]. by rewrite Hl.
Qed.

(** Beginnings by ranges are the beginnings of encodings. *)
Lemma utf8_viable_wf (s : list Z) :
  s <> [] -> utf8_viable s <-> utf8_wf s = true.
Proof.
  intros Hs. split.
  - intros (v & rest & Hv & He).
    destruct (term_utf8_encode_wf v Hv) as (Hwf & _).
    rewrite He in Hwf. by apply (utf8_wf_prefix s rest Hs).
  - intros Hwf.
    assert (Hk : 0 <= utf8_len s - Z.of_nat (length s)).
    { destruct s as [|b0 tl]; [done|]. unfold utf8_wf in Hwf.
      apply andb_true_iff in Hwf as [Hwf _].
      apply andb_true_iff in Hwf as [_ Hwf]. apply Z.leb_le in Hwf.
      unfold utf8_len. lia. }
    destruct (utf8_wf_extend (Z.to_nat (utf8_len s - Z.of_nat (length s))) s
                Hwf ltac:(lia)) as (v & rest & Hv & He & _).
    by exists v, rest.
Qed.

(** *** Runs of the decoder *)

Lemma utf8_kept_snoc (p p' : term_utf8) (bs : list Z) (c : Z) :
  i_bytes p = Z.of_nat (length (utf8_kept p bs)) ->
  i_bytes p' = i_bytes p + 1 ->
  utf8_kept p' (bs ++ [c]) = utf8_kept p bs ++ [c mod 256].
Proof.
  unfold utf8_kept. intros Hi Hi'.
  rewrite length_drop, length_map in Hi.
  rewrite map_app. cbn [map]. rewrite length_app. cbn [length].
  rewrite drop_app_le by (rewrite length_map; lia).
  f_equal. f_equal. lia.
Qed.

Lemma utf8_kept_none (p : term_utf8) (bs : list Z) :
  i_bytes p = 0 -> utf8_kept p bs = [].
Proof.
  unfold utf8_kept. intros ->. apply drop_ge. rewrite length_map. lia.
Qed.

Lemma utf8_tracks_i_bytes (kept : list Z) (p : term_utf8) :
  utf8_tracks kept p -> i_bytes p = Z.of_nat (length kept).
Proof. by intros (_ & Hi & _). Qed.

(** After any input the decoder holds back the last [i_bytes] bytes of
    it. *)
Lemma utf8_decode_bytes_tracks (bs pre : list Z) (p0 : term_utf8) :
  utf8_tracks (utf8_kept p0 pre) p0 ->
  exists p outs,
    utf8_decode_bytes p0 bs = Some (p, outs) /\
    utf8_tracks (utf8_kept p (pre ++ bs)) p.
Proof.
  revert pre p0; induction bs as [|c bs IH]; intros pre p0 Ht.
  - exists p0, []. split; [reflexivity|]. by rewrite app_nil_r.
  - destruct (term_utf8_decode_tracks _ p0 c Ht) as (p1 & out & E1 & Hcase).
    assert (Ht1 : utf8_tracks (utf8_kept p1 (pre ++ [c])) p1).
    { destruct Hcase as [(_ & _ & _ & Ht1)|[(_ & _ & _ & Ht1)|(_ & _ & Ht1)]].
      - rewrite (utf8_kept_snoc p0 p1); [exact Ht1| |].
        + by apply utf8_tracks_i_bytes.
        + apply utf8_tracks_i_bytes in Ht, Ht1. rewrite Ht1, Ht.
          rewrite length_app. cbn [length]. lia.
      - rewrite utf8_kept_none; [exact Ht1|]. by apply utf8_tracks_i_bytes in Ht1.
      - rewrite utf8_kept_none; [exact Ht1|]. by apply utf8_tracks_i_bytes in Ht1. }
    destruct (IH (pre ++ [c]) p1 Ht1) as (p & outs & E & Ht').
    exists p, (out :: outs). cbn [utf8_decode_bytes]. rewrite E1.
    cbn [mbind option_bind]. rewrite E. cbn [mbind option_bind].
    split; [reflexivity|]. by rewrite <- app_assoc in Ht'.
Qed.

(** The rest of a whole sequence, fed to a decoder that holds back its
    beginning: the code point comes out with the last byte. *)
Lemma utf8_decode_bytes_sequence (rest kept : list Z) (p : term_utf8) :
  utf8_tracks kept p -> rest <> [] ->
  utf8_wf (kept ++ rest) = true ->
  Z.of_nat (length (kept ++ rest)) = utf8_len (kept ++ rest) ->
  snd <$> utf8_decode_bytes p rest
  = Some (replicate (length rest - 1) [] ++ [[utf8_value (kept ++ rest)]]).
Proof.
  revert kept p; induction rest as [|c rest IH]; intros kept p Ht Hne Hwf Hlen;
    [done|].
  assert (Hc : c mod 256 = c).
  { apply utf8_wf_bytes in Hwf. apply Forall_app in Hwf as [_ Hwf].
    apply Forall_cons in Hwf as [Hc _]. apply Z.mod_small. lia. }
  destruct (term_utf8_decode_tracks kept p c Ht) as (p1 & out & E1 & Hcase).
  rewrite Hc in Hcase.
  replace (kept ++ c :: rest) with ((kept ++ [c]) ++ rest) in Hwf, Hlen |- *
    by (by rewrite <- app_assoc).
  destruct (utf8_wf_prefix (kept ++ [c]) rest) as [Hwf1 Hlen1];
    [by destruct kept | exact Hwf |].
  cbn [utf8_decode_bytes]. rewrite E1. cbn [mbind option_bind].
  destruct rest as [|c' rest].
  - rewrite app_nil_r in *.
    destruct Hcase as [(_ & Hlt & _)|[(_ & _ & -> & _)|(Hf & _)]];
      [lia|reflexivity|congruence].
  - rewrite length_app in Hlen. cbn [length] in Hlen.
    destruct Hcase as [(_ & _ & -> & Ht1)|[(_ & He & _)|(Hf & _)]];
      [|lia|congruence].
    specialize (IH (kept ++ [c]) p1 Ht1 ltac:(done) Hwf).
    rewrite length_app in IH. cbn [length] in IH. specialize (IH Hlen).
    destruct (utf8_decode_bytes p1 (c' :: rest)) as [[p2 outs]|];
      [|discriminate].
    cbn in IH |- *. injection IH as ->. by rewrite Nat.sub_0_r.
Qed.

(** The encoder writes one to four bytes. *)
Lemma term_utf8_encode_length (g : Z) :
  (1 <= length (term_utf8_encode g) <= 4)%nat.
Proof.
  unfold term_utf8_encode.
  destruct (utf8_valid_ucs4 g);
    repeat match goal with |- context [if ?b then _ else _] => destruct b end;
    simpl; lia.
Qed.

Lemma term_utf8_encode_range (g : Z) :
  Forall (fun b => 0 <= b <= 0xFF) (term_utf8_encode g).
Proof.
  destruct (utf8_valid_ucs4 g) eqn:Hv.
  - apply utf8_wf_bytes. by apply term_utf8_encode_wf.
  - unfold term_utf8_encode. rewrite Hv.
    repeat (constructor; [vm_compute; split; discriminate|]). constructor.
Qed.

(** *** The decoder against the encoder *)

Lemma utf8_wf_whole (v : Z) (s : list Z) :
  utf8_valid_ucs4 v = true -> term_utf8_encode v = s ->
  utf8_wf s = true /\ Z.of_nat (length s) = utf8_len s /\ utf8_value s = v.
Proof. intros Hv <-. by apply term_utf8_encode_wf. Qed.

Lemma utf8_wf_part (v : Z) (s rest : list Z) :
  utf8_valid_ucs4 v = true -> s <> [] -> rest <> [] ->
  term_utf8_encode v = s ++ rest ->
  utf8_wf s = true /\ Z.of_nat (length s) < utf8_len s.
Proof.
  intros Hv Hs Hr He.
  destruct (utf8_wf_whole v (s ++ rest) Hv He) as (Hwf & Hlen & _).
  destruct (utf8_wf_prefix s rest Hs Hwf) as [Hwf' Hlen'].
  split; [exact Hwf'|]. rewrite Hlen', <- Hlen, length_app.
  destruct rest; [done|]. cbn [length]. lia.
Qed.

Lemma utf8_wf_single (b : Z) :
  0 <= b < 256 ->
  utf8_wf [b] = (1 <=? utf8_seq_len b) /\
  (utf8_seq_len b = 1 -> utf8_value [b] = b) /\
  (2 <= utf8_seq_len b <-> 0xC2 <= b <= 0xF4).
Proof.
  intros Hb. unfold utf8_wf, utf8_value, utf8_payload, utf8_seq_len.
  cbn [length utf8_tails_ok fold_left]. change (Z.of_nat 1) with 1.
  replace (0 <=? b) with true by (symmetry; apply Z.leb_le; lia).
  rewrite andb_true_l, andb_true_r.
  split; [reflexivity|]. split; decide_cmp.
Qed.

Lemma utf8_wf_last (kept : list Z) (b : Z) :
  kept <> [] -> utf8_wf (kept ++ [b]) = true -> 0x80 <= b <= 0xBF.
Proof.
  destruct kept as [|k0 tl]; [done|]. intros _. unfold utf8_wf. cbn [app].
  intros H. apply andb_true_iff in H as [_ H].
  rewrite utf8_tails_ok_app in H. apply andb_true_iff in H as [_ H].
  cbn [utf8_tails_ok] in H. apply andb_true_iff in H as [H _].
  by eapply utf8_is_continuation_range.
Qed.

(** What one byte brings about, told by the bytes held back and the
    encoder alone. *)
Lemma term_utf8_decode_by_input (kept : list Z) (p : term_utf8) (c : Z) :
  utf8_tracks kept p ->
  exists p' out,
    term_utf8_decode p c = Some (p', out) /\
    (forall v, utf8_valid_ucs4 v = true ->
       term_utf8_encode v = kept ++ [c mod 256] -> out = [v]) /\
    (forall v rest, utf8_valid_ucs4 v = true -> rest <> [] ->
       term_utf8_encode v = kept ++ [c mod 256] ++ rest -> out = []) /\
    (~ utf8_viable (kept ++ [c mod 256]) ->
       out = kept ++ [c mod 256] /\ Forall (fun x => 0 <= x <= 0xFF) out) /\
    (utf8_viable (kept ++ [c mod 256]) \/ ~ utf8_viable (kept ++ [c mod 256])) /\
    (kept = [] ->
       out = if (0xC2 <=? c mod 256) && (c mod 256 <=? 0xF4) then []
             else [c mod 256]) /\
    (kept <> [] -> ~ 0x80 <= c mod 256 <= 0xBF -> out = kept ++ [c mod 256]) /\
    (length out <= 5)%nat /\
    utf8_tracks (match out with [] => kept ++ [c mod 256] | _ => [] end) p'.
Proof.
  intros Ht.
  assert (Hb : 0 <= c mod 256 < 256) by (apply Z.mod_pos_bound; lia).
  assert (Hne : kept ++ [c mod 256] <> []) by (by destruct kept).
  destruct (term_utf8_decode_tracks kept p c Ht) as (p' & out & E & Hcase).
  pose proof Ht as (_ & _ & _ & Hbytes & Hk).
  exists p', out. split; [exact E|].
  set (b := c mod 256) in *. set (s := kept ++ [b]) in *.
  pose proof (utf8_viable_wf s Hne) as Hvw.
  assert (Hpart : forall v rest, utf8_valid_ucs4 v = true -> rest <> [] ->
            term_utf8_encode v = kept ++ [b] ++ rest ->
            utf8_wf s = true /\ Z.of_nat (length s) < utf8_len s).
  { intros v rest Hv Hr He. rewrite app_assoc in He.
    by apply (utf8_wf_part v s rest). }
  destruct Hcase as [(Hwf & Hlt & -> & Ht')|[(Hwf & Heq & -> & Ht')|(Hwf & -> & Ht')]].
  - (* more input is needed *)
    split; [intros v Hv He;
            destruct (utf8_wf_whole v s Hv He) as (_ & Hl & _); lia|].
    split; [reflexivity|].
    split; [intros Hn; destruct Hn; by apply Hvw|].
    split; [left; by apply Hvw|].
    split.
    { intros ->. subst s. cbn [app length] in *.
      destruct (utf8_wf_single b Hb) as (_ & _ & Hr).
      unfold utf8_len in Hlt.
      destruct (proj1 Hr ltac:(lia)) as [H1 H2].
      apply Z.leb_le in H1, H2. by rewrite H1, H2. }
    split; [intros Hk0 Hn; destruct Hn; by apply (utf8_wf_last kept b)|].
    split; [cbn [length]; lia|exact Ht'].
  - (* a code point *)
    split; [intros v Hv He;
            destruct (utf8_wf_whole v s Hv He) as (_ & _ & <-); reflexivity|].
    split; [intros v rest Hv Hr He;
            destruct (Hpart v rest Hv Hr He); lia|].
    split; [intros Hn; destruct Hn; by apply Hvw|].
    split; [left; by apply Hvw|].
    split.
    { intros ->. subst s. cbn [app length] in *.
      destruct (utf8_wf_single b Hb) as (_ & Hval & Hr).
      unfold utf8_len in Heq. rewrite Hval by lia.
      destruct (Z.leb_spec 0xC2 b), (Z.leb_spec b 0xF4);
        cbn [andb]; try reflexivity.
      assert (2 <= utf8_seq_len b) by (apply Hr; lia). lia. }
    split; [intros Hk0 Hn; destruct Hn; by apply (utf8_wf_last kept b)|].
    split; [cbn [length]; lia|exact Ht'].
  - (* no beginning of an encoding *)
    split; [intros v Hv He;
            destruct (utf8_wf_whole v s Hv He) as (Hw & _); congruence|].
    split; [intros v rest Hv Hr He;
            destruct (Hpart v rest Hv Hr He); congruence|].
    split.
    { intros _. split; [reflexivity|].
      apply Forall_app. split; [exact Hbytes|].
      constructor; [lia|constructor]. }
    split; [right; intros Hv; apply Hvw in Hv; congruence|].
    split.
    { intros ->. subst s. cbn [app length] in *.
      destruct (utf8_wf_single b Hb) as (Hw & _ & Hr).
      rewrite Hw in Hwf. apply Z.leb_gt in Hwf.
      destruct (Z.leb_spec 0xC2 b), (Z.leb_spec b 0xF4);
        cbn [andb]; try reflexivity.
      assert (2 <= utf8_seq_len b) by (apply Hr; lia). lia. }
    split; [reflexivity|].
    split.
    { apply utf8_tracks_i_bytes in Ht. subst s. rewrite length_app.
      cbn [length].
      assert (Hi : Z.of_nat (length kept) <= 4); [|lia].
      destruct kept as [|k0 tl]; [cbn; lia|].
      destruct Hk as (_ & _ & Hlt & _). unfold utf8_len in Hlt.
      pose proof (utf8_seq_len_range k0). lia. }
    subst s. by destruct kept.
Qed.

(** C4: the decoder has a result for every byte after every input.  It
    holds back the last [i_bytes] bytes of the input, never more than
    four and always the beginning of the encoding of a valid code point,
    and with the next byte [b] it hands out
    - the code point [v] if the bytes held back and [b] are the standard
      encoding of [v],
    - nothing if they are a proper beginning of an encoding, and holds
      [b] back as well,
    - the bytes held back and [b], each as the code point of its own
      value up to 0xFF, if they are no beginning of any encoding: this
      is the case of an invalid first or continuation byte,
    and one of the three is the case.  A first byte outside C2..F4
    stands alone, a byte outside 80..BF after bytes held back replays
    them.  No more than five code points come out at once, the buffer
    keeps its five slots, and C3 28 gives U+00C3 and U+0028 with the
    second byte. *)
Theorem term_utf8_decode_never_fails (bs : list Z) (c : Z) :
  exists p outs p' out,
    utf8_decode_bytes term_utf8_init bs = Some (p, outs) /\
    term_utf8_decode p c = Some (p', out) /\
    length (utf8_kept p bs) = Z.to_nat (i_bytes p) /\
    (utf8_kept p bs = [] \/
     exists v rest, utf8_valid_ucs4 v = true /\ rest <> [] /\
                    term_utf8_encode v = utf8_kept p bs ++ rest) /\
    (forall v, utf8_valid_ucs4 v = true ->
       term_utf8_encode v = utf8_kept p bs ++ [c mod 256] -> out = [v]) /\
    (forall v rest, utf8_valid_ucs4 v = true -> rest <> [] ->
       term_utf8_encode v = utf8_kept p bs ++ [c mod 256] ++ rest ->
       out = []) /\
    (~ utf8_viable (utf8_kept p bs ++ [c mod 256]) ->
       out = utf8_kept p bs ++ [c mod 256] /\
       Forall (fun x => 0 <= x <= 0xFF) out) /\
    (utf8_viable (utf8_kept p bs ++ [c mod 256]) \/
     ~ utf8_viable (utf8_kept p bs ++ [c mod 256])) /\
    (utf8_kept p bs = [] ->
       out = if (0xC2 <=? c mod 256) && (c mod 256 <=? 0xF4) then []
             else [c mod 256]) /\
    (utf8_kept p bs <> [] -> ~ 0x80 <= c mod 256 <= 0xBF ->
       out = utf8_kept p bs ++ [c mod 256]) /\
    utf8_kept p' (bs ++ [c])
    = match out with [] => utf8_kept p bs ++ [c mod 256] | _ => [] end /\
    (length out <= 5)%nat /\
    0 <= i_bytes p <= 4 /\ 0 <= i_bytes p' <= 4 /\
    length (chars p) = 5%nat /\ length (chars p') = 5%nat /\
    snd <$> utf8_decode_bytes term_utf8_init [0xC3; 0x28]
    = Some [[]; [0xC3; 0x28]].
Proof.
  destruct (utf8_decode_bytes_tracks bs [] term_utf8_init utf8_tracks_init)
    as (p & outs & E & Ht).
  cbn [app] in Ht.
  destruct (term_utf8_decode_by_input _ p c Ht)
    as (p' & out & E' & H1 & H2 & H3 & H4 & H5 & H6 & H7 & Ht').
  assert (Hpending : forall kept q, utf8_tracks kept q ->
            0 <= i_bytes q <= 4 /\ length (chars q) = 5%nat /\
            (kept = [] \/
             exists v rest, utf8_valid_ucs4 v = true /\ rest <> [] /\
                            term_utf8_encode v = kept ++ rest)).
  { intros kept q (Hl & Hi & _ & _ & Hk).
    destruct kept as [|k0 tl].
    - cbn [length] in Hi. split; [lia|]. split; [exact Hl|]. by left.
    - destruct Hk as (_ & Hwf & Hlt & _).
      pose proof (utf8_seq_len_range k0). unfold utf8_len in Hlt.
      split; [lia|]. split; [exact Hl|]. right.
      destruct (utf8_wf_extend
                  (Z.to_nat (utf8_seq_len k0 - Z.of_nat (length (k0 :: tl))))
                  (k0 :: tl) Hwf) as (v & rest & Hv & He & Hr).
      { unfold utf8_len. lia. }
      exists v, rest. split; [exact Hv|]. split; [|exact He].
      intros ->. cbn [length] in *. lia. }
  destruct (Hpending _ _ Ht) as (Hi & Hl & Hk).
  destruct (Hpending _ _ Ht') as (Hi' & Hl' & _).
  exists p, outs, p', out.
  split; [exact E|]. split; [exact E'|].
  split; [apply utf8_tracks_i_bytes in Ht; lia|].
  split; [exact Hk|].
  split; [exact H1|]. split; [exact H2|]. split; [exact H3|].
  split; [exact H4|]. split; [exact H5|]. split; [exact H6|].
  split.
  { pose proof (utf8_tracks_i_bytes _ _ Ht) as Hn.
    pose proof (utf8_tracks_i_bytes _ _ Ht') as Hn'.
    destruct out.
    - apply utf8_kept_snoc; [exact Hn|].
      rewrite Hn', Hn, length_app. cbn [length]. lia.
    - by apply utf8_kept_none. }
  split; [exact H7|].
  split; [exact Hi|]. split; [exact Hi'|].
  split; [exact Hl|]. split; [exact Hl'|]. reflexivity.
Qed.

(** C5: a valid code point, encoded and fed byte by byte to a zeroed
    decoder, comes out as that one code point when the last byte arrives
    and not before; an encoding has one to four bytes; an invalid code
    point is encoded as U+FFFD. *)
Theorem term_utf8_encode_decode_roundtrip (c : Z) :
  (utf8_valid_ucs4 c = true ->
     snd <$> utf8_decode_bytes term_utf8_init (term_utf8_encode c)
       = Some (replicate (length (term_utf8_encode c) - 1) [] ++ [[c]])) /\
  (1 <= length (term_utf8_encode c) <= 4)%nat /\
  (utf8_valid_ucs4 c = false ->
     term_utf8_encode c = term_utf8_encode 0xFFFD /\
     term_utf8_encode c = [0xEF; 0xBF; 0xBD]).
Proof.
  split; [|split].
  - intros Hv.
    destruct (term_utf8_encode_wf c Hv) as (Hwf & Hlen & Hval).
    rewrite (utf8_decode_bytes_sequence (term_utf8_encode c) [] term_utf8_init
               utf8_tracks_init);
      [by rewrite app_nil_l, Hval | | exact Hwf | exact Hlen].
    intros He. by rewrite He in Hwf.
  - apply term_utf8_encode_length.
  - intros Hv. unfold term_utf8_encode. rewrite Hv. split; reflexivity.
Qed.

Lemma term_utf8_encode_decode_roundtrip_witness :
  snd <$> utf8_decode_bytes term_utf8_init (term_utf8_encode 0x20AC)
    = Some [[]; []; [0x20AC]] /\
  term_utf8_encode 0xD800 = [0xEF; 0xBF; 0xBD].
Proof.
  split.
  - apply (proj1 (term_utf8_encode_decode_roundtrip 0x20AC)). reflexivity.
  - apply (proj2 (proj2 (term_utf8_encode_decode_roundtrip 0xD800))).
    reflexivity.
Defined.

Example term_utf8_encode_euro : term_utf8_encode 0x20AC = [0xE2; 0x82; 0xAC].
Proof. reflexivity. Qed.

Example term_utf8_encode_max :
  term_utf8_encode 0x10FFFF = [0xF4; 0x8F; 0xBF; 0xBF].
Proof. reflexivity. Qed.

Example term_utf8_decode_ascii :
  snd <$> utf8_decode_bytes term_utf8_init [0x41; 0xC3; 0xA9; 0x80]
    = Some [[0x41]; []; [0xE9]; [0x80]].
Proof. reflexivity. Qed.

Example term_utf8_decode_truncated :
  snd <$> utf8_decode_bytes term_utf8_init [0xF0; 0x9F; 0x98; 0x41]
    = Some [[]; []; []; [0xF0; 0x9F; 0x98; 0x41]].
Proof. reflexivity. Qed.

(** Bytes that start no encoding stand alone, and an overlong or
    surrogate form is replayed byte by byte. *)
Example term_utf8_decode_no_lead :
  snd <$> utf8_decode_bytes term_utf8_init [0xC0; 0x80; 0xF5; 0xE2; 0x82; 0x41]
    = Some [[0xC0]; [0x80]; [0xF5]; []; []; [0xE2; 0x82; 0x41]] /\
  snd <$> utf8_decode_bytes term_utf8_init [0xE0; 0x80; 0xED; 0xA0]
    = Some [[]; [0xE0; 0x80]; []; [0xED; 0xA0]].
Proof. split; reflexivity. Qed.

(** ** The parser *)

Import Parser.

Section ParserFacts.
Variable term_cmd_lookup : bool -> seq_type -> Z -> Z -> Z.
Variable term_charset_lookup : Z -> Z -> Z.
Variable alloc : Z.

Local Abbreviation feed :=
  (term_parser_feed term_cmd_lookup term_charset_lookup).
Local Abbreviation feed_all :=
  (parser_feed_all term_cmd_lookup term_charset_lookup).
Local Abbreviation transition :=
  (parser_transition term_cmd_lookup term_charset_lookup).
Local Abbreviation feed_to_state :=
  (parser_feed_to_state term_cmd_lookup term_charset_lookup).

(** *** The bounds *)

Lemma ignore_state_not_counting (s : parser_state) :
  counting_state (ignore_state s) = false.
Proof. by destruct s. Qed.

Lemma seq_param_ok (s s' : term_seq) (raw : Z) :
  seq_param s raw = Some s' ->
  length (args s') = length (args s) /\
  n_st s' = n_st s /\ st s' = st s /\
  (n_args s' = n_args s \/
   (n_args s' = n_args s + 1 /\ n_args s' + 1 <= TERM_PARSER_ARG_MAX)).
Proof.
  unfold seq_param.
  destruct (raw =? 0x3B).
  - destruct (Z.ltb_spec (n_args s + 1) TERM_PARSER_ARG_MAX); [|discriminate].
    intros [= <-]; simpl. repeat split; try reflexivity. right. lia.
  - destruct (raw =? 0x3A); intros [= <-]; simpl;
      rewrite ?length_insert; repeat split; try reflexivity; by left.
Qed.

Lemma st_grow_le (fuel : nat) (a need : Z) :
  a <= Z.max alloc TERM_PARSER_ST_MAX ->
  st_grow fuel a need <= Z.max alloc TERM_PARSER_ST_MAX.
Proof.
  revert a; induction fuel as [|fuel IH]; intros a Ha; cbn [st_grow];
    [exact Ha|].
  destruct (need <=? a); [exact Ha|]. apply IH. lia.
Qed.

Lemma st_grow_pos (fuel : nat) (a need : Z) :
  1 <= a -> 1 <= st_grow fuel a need.
Proof.
  revert a; induction fuel as [|fuel IH]; intros a Ha; cbn [st_grow];
    [exact Ha|].
  destruct (need <=? a); [exact Ha|]. apply IH.
  unfold TERM_PARSER_ST_MAX. lia.
Qed.

Lemma st_grow_fits (fuel : nat) (a need : Z) :
  1 <= a -> need <= Z.min (2 ^ Z.of_nat fuel * a) TERM_PARSER_ST_MAX ->
  need <= st_grow fuel a need.
Proof.
  revert a; induction fuel as [|fuel IH]; intros a Ha Hn; cbn [st_grow].
  - change (2 ^ Z.of_nat 0) with 1 in Hn. lia.
  - destruct (Z.leb_spec need a); [assumption|]. apply IH.
    + unfold TERM_PARSER_ST_MAX. lia.
    + rewrite Nat2Z.inj_succ, Z.pow_succ_r in Hn by lia.
      assert (1 <= 2 ^ Z.of_nat fuel) by (apply Z.pow_le_mono_r with (b := 0); lia).
      unfold TERM_PARSER_ST_MAX in *. nia.
Qed.

(** What a value that fits adds to the string. *)
Lemma parser_put_Some (p p' : term_parser) (raw : Z) :
  parser_put p raw = Some p' ->
  state p' = state p /\ is_host p' = is_host p /\
  type (seq p') = type (seq p) /\ command (seq p') = command (seq p) /\
  terminator (seq p') = terminator (seq p) /\
  args (seq p') = args (seq p) /\ n_args (seq p') = n_args (seq p) /\
  st (seq p') = st (seq p) ++ Utf8.term_utf8_encode raw /\
  n_st (seq p')
  = n_st (seq p) + Z.of_nat (length (Utf8.term_utf8_encode raw)) /\
  n_st (seq p') + 1 <= TERM_PARSER_ST_MAX /\
  n_st (seq p') + 1 <= st_alloc p' /\
  st_alloc p' = st_grow 12 (st_alloc p) (n_st (seq p') + 1).
Proof.
  unfold parser_put.
  destruct (Z.leb_spec (n_st (seq p) + Z.of_nat (length (term_utf8_encode raw)) + 1)
              TERM_PARSER_ST_MAX); [|discriminate].
  destruct (Z.leb_spec (n_st (seq p) + Z.of_nat (length (term_utf8_encode raw)) + 1)
              (st_grow 12 (st_alloc p)
                 (n_st (seq p) + Z.of_nat (length (term_utf8_encode raw)) + 1)));
    [|discriminate].
  cbn [andb]. intros [= <-]. cbn [seq st_alloc state is_host type command
    terminator args n_args st n_st]. repeat split; try assumption.
Qed.

Lemma parser_put_None (p : term_parser) (raw : Z) :
  TERM_PARSER_ST_MAX
  < n_st (seq p) + Z.of_nat (length (Utf8.term_utf8_encode raw)) + 1 ->
  parser_put p raw = None.
Proof.
  intros H. unfold parser_put.
  destruct (Z.leb_spec (n_st (seq p) + Z.of_nat (length (term_utf8_encode raw)) + 1)
              TERM_PARSER_ST_MAX); [lia|reflexivity].
Qed.

Lemma parser_put_fits (p : term_parser) (raw : Z) :
  1 <= st_alloc p ->
  n_st (seq p) + Z.of_nat (length (Utf8.term_utf8_encode raw)) + 1
  <= TERM_PARSER_ST_MAX ->
  exists p', parser_put p raw = Some p'.
Proof.
  intros Ha Hn. unfold parser_put.
  set (need := n_st (seq p) + Z.of_nat (length (term_utf8_encode raw)) + 1) in *.
  destruct (Z.leb_spec need TERM_PARSER_ST_MAX); [|lia].
  pose proof (st_grow_fits 12 (st_alloc p) need Ha) as Hg.
  destruct (Z.leb_spec need (st_grow 12 (st_alloc p) need)) as [|Hlt].
  - eexists. reflexivity.
  - exfalso. change (2 ^ Z.of_nat 12) with 4096 in Hg.
    unfold TERM_PARSER_ST_MAX in *. lia.
Qed.

Lemma seq_ok_finish (s : term_seq) (ty : seq_type) (raw cmd cs bump : Z) :
  seq_ok s -> 0 <= bump -> n_args s + bump <= TERM_PARSER_ARG_MAX ->
  seq_ok (seq_finish s ty raw cmd cs bump).
Proof.
  intros (H1 & H2 & H3 & H4 & H5) Hb Hn. unfold seq_ok. cbn.
  repeat split; try assumption; lia.
Qed.

Lemma seq_ok_terminate (s : term_seq) :
  seq_ok s -> n_st s + 1 <= TERM_PARSER_ST_MAX -> seq_ok (seq_terminate s).
Proof.
  intros (H1 & H2 & H3 & H4 & H5) Hn. unfold seq_ok. cbn.
  rewrite length_app. cbn [length].
  repeat split; try assumption; try lia.
  apply Forall_app. split; [assumption|]. constructor; [lia|constructor].
Qed.

Lemma seq_ok_clear : seq_ok seq_clear.
Proof.
  unfold seq_ok, TERM_PARSER_ARG_MAX, TERM_PARSER_ST_MAX. cbn.
  repeat split; try lia. constructor.
Qed.

Lemma parser_ok_clear (p : term_parser) (next : parser_state) :
  parser_ok alloc p -> parser_ok alloc (with_seq p seq_clear next).
Proof.
  intros (_ & _ & _ & Ha & Hr). pose proof seq_ok_clear as Hc.
  unfold parser_ok. cbn [with_seq seq state st_alloc].
  split; [exact Hc|].
  unfold TERM_PARSER_ARG_MAX, TERM_PARSER_ST_MAX in *. cbn.
  repeat split; try (assumption || lia); intros; try lia;
    destruct (Hr ltac:(assumption)) as (? & ? & ?); lia.
Qed.

Lemma counting_allowed (cur next : parser_state) :
  implb (counting_state next) (counting_state cur) = true ->
  counting_state next = true -> counting_state cur = true.
Proof. destruct (counting_state next), (counting_state cur); auto. Qed.

Lemma counting_not_ground (s : parser_state) :
  counting_state s = true -> s <> STATE_GROUND.
Proof. by destruct s. Qed.

Lemma put_not_ground (s : parser_state) :
  put_state s = true -> s <> STATE_GROUND.
Proof. by destruct s. Qed.

(** A record that is handed out is within the bounds. *)
Lemma parser_transition_out_ok (p : term_parser) (raw : Z)
    (next : parser_state) (act : parser_action) (r : term_seq) :
  parser_ok alloc p ->
  (act = ACTION_CSI_DISPATCH -> counting_state (state p) = true) ->
  (act = ACTION_STRING_END -> state p <> STATE_GROUND) ->
  snd (transition p raw next act) = Some r -> seq_ok r.
Proof.
  intros (Hs & Hc & Hg & _) Hcsi Hend.
  pose proof Hs as (_ & Hn & _).
  destruct act; cbn [parser_transition snd];
    try discriminate;
    try (intros [= <-]; apply seq_ok_finish; [assumption|lia|lia]).
  - destruct (seq_param (seq p) raw); discriminate.
  - intros [= <-]. specialize (Hc (Hcsi eq_refl)).
    apply seq_ok_finish; [assumption|lia|lia].
  - destruct (parser_put p raw); discriminate.
  - specialize (Hg (Hend eq_refl)).
    pose proof (seq_ok_terminate (seq p) Hs Hg) as Ht.
    pose proof Ht as (_ & Hn' & _).
    destruct (type (seq_terminate (seq p))); intros [= <-];
      try assumption; (apply seq_ok_finish; [assumption|lia|lia]).
Qed.

Lemma parser_transition_st_alloc (p : term_parser) (raw : Z)
    (next : parser_state) (act : parser_action) :
  act <> ACTION_PUT ->
  st_alloc (fst (transition p raw next act)) = st_alloc p.
Proof.
  intros Hact. destruct act; cbn [parser_transition]; try reflexivity;
    try contradiction.
  - by destruct (seq_param (seq p) raw).
  - by destruct (type (seq_terminate (seq p))).
Qed.

Ltac parser_ok_split :=
  unfold parser_ok; cbn [with_seq seq state st_alloc fst];
  split; [|split; [|split; [|split]]].

(** A transition of the diagram keeps the parser within its bounds. *)
Lemma parser_transition_ok (p : term_parser) (raw : Z)
    (next : parser_state) (act : parser_action) :
  parser_ok alloc p -> transition_allowed (state p) next act = true ->
  parser_ok alloc (fst (transition p raw next act)).
Proof.
  intros Hok Hallowed. pose proof Hok as (Hs & Hc & Hg & Ha & Hr).
  pose proof Hs as (Hlen & Hn & Hst & Hmax & Hb).
  pose proof (counting_allowed (state p) next) as Hca.
  pose proof (counting_not_ground (state p)) as Hcg.
  assert (Hkeep : forall s',
             seq_ok s' -> n_args s' = n_args (seq p) -> n_st s' = n_st (seq p) ->
             implb (counting_state next) (counting_state (state p)) = true ->
             (next = STATE_GROUND \/ state p <> STATE_GROUND) ->
             parser_ok alloc (with_seq p s' next)).
  { intros s' Hs' En Est Himp Hgr. parser_ok_split.
    - exact Hs'.
    - intros Hcn. rewrite En. apply Hc. by apply Hca.
    - intros Hne. rewrite Est. apply Hg. by destruct Hgr.
    - exact Ha.
    - intros H1. destruct (Hr H1) as (Hr1 & Hr2 & Hr3). rewrite Est.
      split; [exact Hr1|]. split; [exact Hr2|].
      intros Hne. apply Hr3. by destruct Hgr. }
  assert (Hgr : forall b1 b2 : bool,
             implb (counting_state next) (counting_state (state p))
             && (bool_decide (next = STATE_GROUND)
                 || negb (bool_decide (state p = STATE_GROUND))) = true ->
             implb (counting_state next) (counting_state (state p)) = true /\
             (next = STATE_GROUND \/ state p <> STATE_GROUND)).
  { intros _ _ H. apply andb_true_iff in H as [H1 H2]. split; [exact H1|].
    apply orb_true_iff in H2 as [H2|H2].
    - left. by apply bool_decide_eq_true in H2.
    - right. apply negb_true_iff, bool_decide_eq_false in H2. exact H2. }
  destruct act; cbn [parser_transition transition_allowed fst] in *.
  - (* ACTION_NONE *)
    destruct (Hgr true true Hallowed). by apply Hkeep.
  - by apply parser_ok_clear.
  - destruct (Hgr true true Hallowed).
    apply Hkeep; try (reflexivity || assumption);
      try (apply seq_ok_finish; [assumption|lia|lia]); cbn; lia.
  - destruct (Hgr true true Hallowed).
    apply Hkeep; try (reflexivity || assumption);
      try (apply seq_ok_finish; [assumption|lia|lia]); cbn; lia.
  - destruct (Hgr true true Hallowed).
    apply Hkeep; try (reflexivity || assumption);
      try (apply seq_ok_finish; [assumption|lia|lia]); cbn; lia.
  - (* ACTION_COLLECT *)
    destruct (Hgr true true Hallowed).
    apply Hkeep; try (reflexivity || assumption).
  - (* ACTION_PARAM *)
    specialize (Hc Hallowed). specialize (Hcg Hallowed).
    destruct (seq_param (seq p) raw) as [s'|] eqn:E.
    + apply seq_param_ok in E as (El & En1 & Es & Hna).
      parser_ok_split.
      * unfold seq_ok. rewrite El, En1, Es. repeat split; try assumption; lia.
      * intros _. lia.
      * intros _. rewrite En1. by apply Hg.
      * exact Ha.
      * intros H1. destruct (Hr H1) as (Hr1 & Hr2 & Hr3). rewrite En1.
        split; [exact Hr1|]. split; [exact Hr2|]. intros _. by apply Hr3.
    + parser_ok_split.
      * exact Hs.
      * by rewrite ignore_state_not_counting.
      * intros _. by apply Hg.
      * exact Ha.
      * intros H1. destruct (Hr H1) as (Hr1 & Hr2 & Hr3).
        split; [exact Hr1|]. split; [exact Hr2|]. intros _. by apply Hr3.
  - (* ACTION_ESC_DISPATCH *)
    destruct (Hgr true true Hallowed).
    apply Hkeep; try (reflexivity || assumption);
      try (apply seq_ok_finish; [assumption|lia|lia]); cbn; lia.
  - (* ACTION_CSI_DISPATCH *)
    apply andb_true_iff in Hallowed as [Hcur Hnext].
    apply bool_decide_eq_true in Hnext. subst next.
    specialize (Hc Hcur). specialize (Hcg Hcur).
    parser_ok_split.
    + apply seq_ok_finish; [assumption|lia|lia].
    + discriminate.
    + done.
    + exact Ha.
    + intros H1. destruct (Hr H1) as (Hr1 & Hr2 & Hr3).
      split; [exact Hr1|]. split; [exact Hr2|]. done.
  - (* ACTION_DCS_START *)
    apply andb_true_iff in Hallowed as [Hcur Hnext].
    apply negb_true_iff in Hnext.
    specialize (Hc Hcur). specialize (Hcg Hcur).
    parser_ok_split.
    + apply seq_ok_finish; [assumption|lia|lia].
    + rewrite Hnext. discriminate.
    + intros _. by apply Hg.
    + exact Ha.
    + intros H1. destruct (Hr H1) as (Hr1 & Hr2 & Hr3).
      split; [exact Hr1|]. split; [exact Hr2|]. intros _. by apply Hr3.
  - (* ACTION_OSC_START *)
    pose proof seq_ok_clear as Hcl.
    parser_ok_split.
    + apply seq_ok_finish; [assumption|lia|cbn; unfold TERM_PARSER_ARG_MAX; lia].
    + intros _. cbn. unfold TERM_PARSER_ARG_MAX. lia.
    + intros _. cbn. unfold TERM_PARSER_ST_MAX. lia.
    + exact Ha.
    + intros H1. destruct (Hr H1) as (Hr1 & Hr2 & Hr3). cbn.
      split; [exact Hr1|]. split; lia.
  - (* ACTION_SOS_START *)
    pose proof seq_ok_clear as Hcl.
    parser_ok_split.
    + apply seq_ok_finish; [assumption|lia|cbn; unfold TERM_PARSER_ARG_MAX; lia].
    + intros _. cbn. unfold TERM_PARSER_ARG_MAX. lia.
    + intros _. cbn. unfold TERM_PARSER_ST_MAX. lia.
    + exact Ha.
    + intros H1. destruct (Hr H1) as (Hr1 & Hr2 & Hr3). cbn.
      split; [exact Hr1|]. split; lia.
  - (* ACTION_PUT *)
    apply andb_true_iff in Hallowed as [Hcur Hnext].
    apply negb_true_iff in Hnext.
    pose proof (put_not_ground _ Hcur) as Hpg.
    destruct (parser_put p raw) as [p'|] eqn:E.
    + apply parser_put_Some in E
        as (_ & _ & _ & _ & _ & Ea & Ena & Est & En & Hm & Hal & Hgrow).
      parser_ok_split.
      * unfold seq_ok. rewrite Ea, Ena, Est.
        split; [exact Hlen|]. split; [exact Hn|].
        split; [rewrite En, length_app; lia|]. split; [lia|].
        apply Forall_app. split; [exact Hb|apply term_utf8_encode_range].
      * rewrite Hnext. discriminate.
      * intros _. exact Hm.
      * rewrite Hgrow. by apply st_grow_le.
      * intros H1. destruct (Hr H1) as (Hr1 & Hr2 & Hr3).
        split; [rewrite Hgrow; by apply st_grow_pos|]. split; [lia|].
        intros _. exact Hal.
    + parser_ok_split.
      * exact Hs.
      * by rewrite ignore_state_not_counting.
      * intros _. by apply Hg.
      * exact Ha.
      * intros H1. destruct (Hr H1) as (Hr1 & Hr2 & Hr3).
        split; [exact Hr1|]. split; [exact Hr2|]. intros _. by apply Hr3.
  - (* ACTION_STRING_END *)
    apply andb_true_iff in Hallowed as [Hcur Hnext].
    apply bool_decide_eq_true in Hnext. subst next.
    pose proof (put_not_ground _ Hcur) as Hpg.
    specialize (Hg Hpg).
    pose proof (seq_ok_terminate (seq p) Hs Hg) as Ht.
    assert (Hend : forall s', seq_ok s' -> n_st s' = n_st (seq p) + 1 ->
               parser_ok alloc (with_seq p s' STATE_GROUND)).
    { intros s' Hs' En. parser_ok_split.
      - exact Hs'.
      - discriminate.
      - done.
      - exact Ha.
      - intros H1. destruct (Hr H1) as (Hr1 & Hr2 & Hr3).
        split; [exact Hr1|]. split; [|done]. rewrite En. by apply Hr3. }
    pose proof Ht as (_ & Hn' & _).
    destruct (type (seq_terminate (seq p))); cbn [fst]; apply Hend;
      try exact Ht; try reflexivity;
      (apply seq_ok_finish; [exact Ht|lia|lia]).
  - (* ACTION_CLOSE_IGNORED *)
    destruct (Hgr true true Hallowed).
    apply Hkeep; try (reflexivity || assumption);
      try (apply seq_ok_finish; [assumption|lia|lia]); cbn; lia.
Qed.

Lemma parser_ok_clear_after (p q : term_parser) (next : parser_state) :
  parser_ok alloc p -> st_alloc q = st_alloc p ->
  parser_ok alloc (with_seq q seq_clear next).
Proof.
  intros Hok Hq. pose proof (parser_ok_clear p next Hok) as H.
  unfold parser_ok in *. cbn [with_seq seq state st_alloc] in *.
  by rewrite Hq.
Qed.

(** Every step keeps the parser within its bounds and hands out a record
    within them, if any. *)
Lemma term_parser_feed_ok (p : term_parser) (raw : Z) :
  parser_ok alloc p ->
  parser_ok alloc (fst (feed p raw)) /\
  (forall r, snd (feed p raw) = Some r -> seq_ok r).
Proof.
  intros Hok. unfold term_parser_feed, parser_feed_to_state.
  destruct (state p) eqn:Est; cbn [string_state string_end_action andb orb];
    repeat match goal with
           | |- context [if ?b then _ else _] => destruct b
           end;
    try (split;
         [apply parser_transition_ok; [assumption | rewrite Est; reflexivity]
         |intros r; apply parser_transition_out_ok;
          [assumption
          |intros E; first [discriminate E | rewrite Est; reflexivity]
          |intros E; first [discriminate E | rewrite Est; discriminate]]]).
  all: match goal with
       | |- context [parser_transition _ _ ?q ?r ?next ?act] =>
           pose proof (parser_transition_st_alloc q r next act
                         ltac:(discriminate)) as Hal;
           pose proof (fun x => parser_transition_out_ok q r next act x Hok
                         ltac:(intros E; discriminate E)
                         ltac:(intros E; first [discriminate E
                                               | rewrite Est; discriminate]))
             as Hout;
           destruct (transition q r next act) as [p' out]
       end.
  all: split; [by apply (parser_ok_clear_after p) | exact Hout].
Qed.

Lemma parser_feed_all_ok (raws : list Z) (p : term_parser) :
  parser_ok alloc p ->
  parser_ok alloc (fst (feed_all p raws)) /\
  Forall (fun out => forall r, out = Some r -> seq_ok r) (snd (feed_all p raws)).
Proof.
  revert p; induction raws as [|raw raws IH]; intros p Hok;
    cbn [parser_feed_all].
  - split; [exact Hok | constructor].
  - destruct (term_parser_feed_ok p raw Hok) as [Hok1 Hout].
    destruct (feed p raw) as [p1 out].
    destruct (IH p1 Hok1) as [Hok2 Houts].
    destruct (feed_all p1 raws) as [p2 outs].
    split; [exact Hok2 | by constructor].
Qed.

Lemma parser_ok_new (host : bool) : parser_ok alloc (term_parser_new host alloc).
Proof.
  pose proof seq_ok_clear as Hc. unfold parser_ok. cbn.
  split; [exact Hc|]. unfold TERM_PARSER_ARG_MAX, TERM_PARSER_ST_MAX.
  repeat split; try lia; done.
Qed.

Lemma parser_feed_all_app (xs ys : list Z) (p : term_parser) :
  feed_all p (xs ++ ys)
  = (fst (feed_all (fst (feed_all p xs)) ys),
     snd (feed_all p xs) ++ snd (feed_all (fst (feed_all p xs)) ys)).
Proof.
  revert p; induction xs as [|x xs IH]; intros p; cbn [app parser_feed_all].
  - cbn [fst snd app]. by destruct (feed_all p ys).
  - destruct (feed p x) as [p1 out]. rewrite IH.
    destruct (feed_all p1 xs) as [p2 outs]. cbn [fst snd].
    destruct (feed_all p2 ys) as [p3 outs']. reflexivity.
Qed.

(** *** Which transition a value takes *)

Ltac decide_tests :=
  repeat match goal with
         | |- context [Z.eqb ?a ?b] => destruct (Z.eqb_spec a b); try lia
         | |- context [Z.leb ?a ?b] => destruct (Z.leb_spec a b); try lia
         end;
  cbn [andb orb negb].

Ltac feed_by_cases E :=
  unfold term_parser_feed, parser_feed_to_state, between; rewrite E;
  cbn [string_state string_end_action param_next]; decide_tests; reflexivity.

Lemma feed_param (p : term_parser) (raw : Z) :
  param_state (state p) = true -> 0x30 <= raw <= 0x3B ->
  feed p raw = transition p raw (param_next (state p)) ACTION_PARAM.
Proof.
  destruct (state p) eqn:E; try discriminate; intros _ Hr; feed_by_cases E.
Qed.

Lemma feed_ignore_param (p : term_parser) (raw : Z) :
  is_ignore_state (state p) = true -> 0x30 <= raw <= 0x3B ->
  feed p raw = transition p raw (state p) ACTION_NONE.
Proof.
  destruct (state p) eqn:E; try discriminate; intros _ Hr; feed_by_cases E.
Qed.

Lemma feed_csi_ignore (p : term_parser) (raw : Z) :
  state p = STATE_CSI_IGNORE -> 0x20 <= raw <= 0x3F ->
  feed p raw = transition p raw STATE_CSI_IGNORE ACTION_NONE.
Proof. intros E Hr; feed_by_cases E. Qed.

Lemma feed_csi_ignore_final (p : term_parser) (raw : Z) :
  state p = STATE_CSI_IGNORE -> 0x40 <= raw <= 0x7E ->
  feed p raw = transition p raw STATE_GROUND ACTION_CLOSE_IGNORED.
Proof. intros E Hr; feed_by_cases E. Qed.

Lemma feed_csi_final (p : term_parser) (raw : Z) :
  state p = STATE_CSI_ENTRY \/ state p = STATE_CSI_PARAM ->
  0x40 <= raw <= 0x7E ->
  feed p raw = transition p raw STATE_GROUND ACTION_CSI_DISPATCH.
Proof. intros [E|E] Hr; feed_by_cases E. Qed.

Lemma feed_string_put (p : term_parser) (raw : Z) :
  put_state (state p) = true -> string_value raw ->
  feed p raw = transition p raw (state p) ACTION_PUT.
Proof.
  unfold string_value.
  destruct (state p) eqn:E; try discriminate; intros _ Hr; feed_by_cases E.
Qed.

Lemma leaves_string_false (raw : Z) :
  leaves_string raw = false <->
  raw <> 0x9C /\ raw <> 0x07 /\ raw <> 0x1B /\ raw <> 0x18 /\ raw <> 0x1A.
Proof.
  unfold leaves_string.
  destruct (Z.eqb_spec raw 0x9C), (Z.eqb_spec raw 0x07),
    (Z.eqb_spec raw 0x1B), (Z.eqb_spec raw 0x18), (Z.eqb_spec raw 0x1A);
    cbn; split; (discriminate || tauto || lia).
Qed.

Lemma leaves_string_true (raw : Z) :
  leaves_string raw = true <->
  raw = 0x9C \/ raw = 0x07 \/ raw = 0x1B \/ raw = 0x18 \/ raw = 0x1A.
Proof.
  unfold leaves_string.
  destruct (Z.eqb_spec raw 0x9C), (Z.eqb_spec raw 0x07),
    (Z.eqb_spec raw 0x1B), (Z.eqb_spec raw 0x18), (Z.eqb_spec raw 0x1A);
    cbn; split; (discriminate || tauto || lia).
Qed.

Lemma string_value_stays (raw : Z) :
  string_value raw -> leaves_string raw = false.
Proof. unfold string_value. intros H. apply leaves_string_false. lia. Qed.

Lemma feed_dcs_ignore (p : term_parser) (raw : Z) :
  state p = STATE_DCS_IGNORE -> leaves_string raw = false ->
  feed p raw = transition p raw STATE_DCS_IGNORE ACTION_NONE.
Proof.
  intros E Hr. apply leaves_string_false in Hr. feed_by_cases E.
Qed.

(** *** The IGNORE states *)

(** In the IGNORE state of a control sequence nothing is handed out but
    records that close the sequence as ignored, and controls that are
    carried out inside it. *)
Lemma csi_ignore_out (p : term_parser) (raw : Z) (r : term_seq) :
  state p = STATE_CSI_IGNORE -> snd (feed p raw) = Some r ->
  seq_ignored r raw \/ type r = TERM_SEQ_CONTROL.
Proof.
  intros E. unfold term_parser_feed, parser_feed_to_state. rewrite E.
  cbn [string_state string_end_action andb orb].
  repeat match goal with
         | |- context [if ?b then _ else _] => destruct b
         end;
    cbn [parser_transition snd]; try discriminate;
    intros [= <-]; (by left) || (by right).
Qed.

(** In the IGNORE state of a string a terminator, CAN or SUB closes the
    sequence as ignored; anything else changes nothing. *)
Lemma dcs_ignore_leave (p : term_parser) (raw : Z) :
  state p = STATE_DCS_IGNORE -> leaves_string raw = true ->
  exists r, snd (feed p raw) = Some r /\ seq_ignored r raw /\
            n_st r = n_st (seq p) /\
            state (fst (feed p raw)) = state_after raw.
Proof.
  intros E Hr. apply leaves_string_true in Hr.
  destruct Hr as [->|[->|[->|[->| ->]]]];
    unfold term_parser_feed; rewrite E; cbn; eexists; by repeat split.
Qed.

Lemma dcs_ignore_stay (p : term_parser) (raw : Z) :
  state p = STATE_DCS_IGNORE -> leaves_string raw = false ->
  exists p1, feed p raw = (p1, None) /\ state p1 = STATE_DCS_IGNORE /\
             seq p1 = seq p /\ st_alloc p1 = st_alloc p.
Proof.
  intros E Hr. rewrite feed_dcs_ignore by assumption.
  cbn [parser_transition]. eexists. by repeat split.
Qed.

Lemma dcs_ignore_run (raws : list Z) (p : term_parser) :
  state p = STATE_DCS_IGNORE ->
  Forall (fun raw => leaves_string raw = false) raws ->
  snd (feed_all p raws) = replicate (length raws) None /\
  state (fst (feed_all p raws)) = STATE_DCS_IGNORE /\
  seq (fst (feed_all p raws)) = seq p.
Proof.
  revert p; induction raws as [|raw raws IH]; intros p E Hall.
  - by cbn.
  - apply Forall_cons in Hall as [Hraw Hall].
    cbn [parser_feed_all length replicate].
    destruct (dcs_ignore_stay p raw E Hraw) as (p1 & -> & E1 & Es & _).
    destruct (IH p1 E1 Hall) as (Ho & Hst & Hs).
    destruct (feed_all p1 raws) as [p2 outs]. cbn [fst snd] in *.
    split; [by rewrite Ho|]. split; [exact Hst|]. by rewrite Hs.
Qed.

(** *** Parameters *)

Lemma param_step (p : term_parser) (raw : Z) :
  param_state (state p) = true -> 0x30 <= raw <= 0x3B ->
  exists p1, feed p raw = (p1, None) /\
    ((raw = 0x3B /\ n_args (seq p) + 1 < TERM_PARSER_ARG_MAX /\
      state p1 = param_next (state p) /\
      n_args (seq p1) = n_args (seq p) + 1) \/
     (raw = 0x3B /\ TERM_PARSER_ARG_MAX <= n_args (seq p) + 1 /\
      state p1 = ignore_state (state p) /\ seq p1 = seq p) \/
     (raw <> 0x3B /\ state p1 = param_next (state p) /\
      n_args (seq p1) = n_args (seq p))).
Proof.
  intros Hs Hr. rewrite feed_param by assumption.
  cbn [parser_transition]. unfold seq_param.
  destruct (Z.eqb_spec raw 0x3B) as [->|Hne].
  - destruct (Z.ltb_spec (n_args (seq p) + 1) TERM_PARSER_ARG_MAX).
    + eexists. split; [reflexivity|]. left. simpl. auto.
    + eexists. split; [reflexivity|]. right; left. simpl.
      repeat split; try assumption. by destruct (state p).
  - destruct (raw =? 0x3A); eexists; (split; [reflexivity|]);
      right; right; simpl; auto.
Qed.

Lemma ignore_param_step (p : term_parser) (raw : Z) :
  is_ignore_state (state p) = true -> 0x30 <= raw <= 0x3B ->
  exists p1, feed p raw = (p1, None) /\ state p1 = state p /\ seq p1 = seq p.
Proof.
  intros Hs Hr. rewrite feed_ignore_param by assumption.
  cbn [parser_transition]. eexists. by repeat split.
Qed.

Lemma count_separators_cons (raw : Z) (params : list Z) :
  count_separators (raw :: params)
  = (if raw =? 0x3B then 1 else 0) + count_separators params.
Proof.
  unfold count_separators. cbn [count_occ].
  destruct (Z.eq_dec raw 0x3B) as [->|Hne].
  - rewrite Z.eqb_refl. lia.
  - destruct (Z.eqb_spec raw 0x3B); [contradiction | lia].
Qed.

Lemma count_separators_nonneg (params : list Z) : 0 <= count_separators params.
Proof. unfold count_separators. lia. Qed.

Lemma param_or_ignore (s : parser_state) :
  param_state s = true -> is_ignore_state s = false.
Proof. by destruct s. Qed.

Lemma ignore_state_idem (s : parser_state) :
  is_ignore_state s = true -> ignore_state s = s.
Proof. by destruct s. Qed.

Lemma ignore_state_is_ignore (s : parser_state) :
  is_ignore_state (ignore_state s) = true.
Proof. by destruct s. Qed.

Lemma param_next_facts (s : parser_state) :
  param_state s = true ->
  param_state (param_next s) = true /\
  ignore_state (param_next s) = ignore_state s.
Proof. by destruct s. Qed.

(** Parameter bytes, in a sequence of either kind: the parser counts
    separators, and goes to the IGNORE state of the kind when one asks
    for a seventeenth parameter. *)
Lemma params_run (params : list Z) (p : term_parser) :
  Forall (fun raw => 0x30 <= raw <= 0x3B) params ->
  param_state (state p) = true \/ is_ignore_state (state p) = true ->
  (param_state (state p) = true ->
   n_args (seq p) + 1 <= TERM_PARSER_ARG_MAX) ->
  snd (feed_all p params) = replicate (length params) None /\
  (param_state (state (fst (feed_all p params))) = true \/
   is_ignore_state (state (fst (feed_all p params))) = true) /\
  ignore_state (state (fst (feed_all p params))) = ignore_state (state p) /\
  (is_ignore_state (state p) = true \/
   TERM_PARSER_ARG_MAX <= n_args (seq p) + count_separators params ->
   state (fst (feed_all p params)) = ignore_state (state p)) /\
  (param_state (state p) = true ->
   n_args (seq p) + count_separators params < TERM_PARSER_ARG_MAX ->
   param_state (state (fst (feed_all p params))) = true /\
   n_args (seq (fst (feed_all p params)))
   = n_args (seq p) + count_separators params).
Proof.
  revert p; induction params as [|raw params IH]; intros p Hall Hs Hn.
  - cbn [parser_feed_all fst snd length replicate].
    change (count_separators []) with 0. rewrite Z.add_0_r.
    split; [reflexivity|]. split; [assumption|]. split; [reflexivity|].
    split.
    + intros [H|H]; [by rewrite ignore_state_idem|].
      destruct Hs as [Hs|Hs]; [specialize (Hn Hs); lia|].
      by rewrite ignore_state_idem.
    + intros Hp _. by split.
  - apply Forall_cons in Hall as [Hraw Hall].
    rewrite count_separators_cons. cbn [parser_feed_all length replicate].
    pose proof (count_separators_nonneg params) as Hnn.
    destruct (is_ignore_state (state p)) eqn:Eig.
    + destruct (ignore_param_step p raw Eig Hraw) as (p1 & -> & E1 & Es).
      destruct (IH p1 Hall ltac:(right; by rewrite E1)
                  ltac:(rewrite E1; intros Hp;
                        apply param_or_ignore in Hp; congruence))
        as (Ho & Hst & Hfam & Hig & _).
      destruct (feed_all p1 params) as [p2 outs]. cbn [fst snd] in *.
      rewrite E1 in Hfam, Hig.
      split; [by rewrite Ho|]. split; [exact Hst|]. split; [exact Hfam|].
      split.
      * intros _. apply Hig. by left.
      * intros Hp. apply param_or_ignore in Hp. congruence.
    + assert (Hp : param_state (state p) = true) by (by destruct Hs).
      destruct (param_next_facts _ Hp) as [Hpn Hfn]. specialize (Hn Hp).
      destruct (param_step p raw Hp Hraw) as (p1 & -> & Hcase).
      destruct Hcase as [(-> & Hlt & E1 & En1)
                        |[(-> & Hge & E1 & Es)|(Hne & E1 & En1)]].
      * destruct (IH p1 Hall ltac:(left; by rewrite E1) ltac:(intros _; lia))
          as (Ho & Hst & Hfam & Hig & Hno).
        destruct (feed_all p1 params) as [p2 outs]. cbn [fst snd] in *.
        rewrite E1 in Hfam, Hig, Hno. rewrite En1 in Hig, Hno.
        rewrite Hfn in Hfam, Hig. change (0x3B =? 0x3B) with true.
        split; [by rewrite Ho|]. split; [exact Hst|]. split; [exact Hfam|].
        split.
        -- intros [H|H]; [discriminate|]. apply Hig. right. lia.
        -- intros _ H. destruct (Hno Hpn ltac:(lia)) as [H1 H2].
           split; [exact H1 | lia].
      * destruct (IH p1 Hall
                    ltac:(right; rewrite E1; apply ignore_state_is_ignore)
                    ltac:(intros _; by rewrite Es))
          as (Ho & Hst & Hfam & Hig & _).
        destruct (feed_all p1 params) as [p2 outs]. cbn [fst snd] in *.
        rewrite E1 in Hfam, Hig.
        rewrite (ignore_state_idem (ignore_state (state p)))
          in Hfam, Hig by apply ignore_state_is_ignore.
        change (0x3B =? 0x3B) with true.
        split; [by rewrite Ho|]. split; [exact Hst|]. split; [exact Hfam|].
        split.
        -- intros _. apply Hig. left. apply ignore_state_is_ignore.
        -- intros _ H. lia.
      * destruct (IH p1 Hall ltac:(left; by rewrite E1) ltac:(intros _; lia))
          as (Ho & Hst & Hfam & Hig & Hno).
        destruct (feed_all p1 params) as [p2 outs]. cbn [fst snd] in *.
        rewrite E1 in Hfam, Hig, Hno. rewrite En1 in Hig, Hno.
        rewrite Hfn in Hfam, Hig.
        replace (raw =? 0x3B) with false by (symmetry; by apply Z.eqb_neq).
        split; [by rewrite Ho|]. split; [exact Hst|]. split; [exact Hfam|].
        split.
        -- intros [H|H]; [discriminate|]. apply Hig. right. lia.
        -- intros _ H. destruct (Hno Hpn ltac:(lia)) as [H1 H2].
           split; [exact H1 | lia].
Qed.

(** *** Strings *)

Lemma string_bytes_cons (raw : Z) (raws : list Z) :
  string_bytes (raw :: raws) = Utf8.term_utf8_encode raw ++ string_bytes raws.
Proof. reflexivity. Qed.

Lemma put_ignore_state (s : parser_state) :
  put_state s = true -> ignore_state s = STATE_DCS_IGNORE.
Proof. by destruct s. Qed.

Lemma string_put_step (p : term_parser) (raw : Z) :
  put_state (state p) = true -> string_value raw ->
  exists p1, feed p raw = (p1, None) /\
    ((exists p', parser_put p raw = Some p' /\ state p1 = state p /\
                 seq p1 = seq p' /\ st_alloc p1 = st_alloc p' /\
                 is_host p1 = is_host p) \/
     (parser_put p raw = None /\ state p1 = STATE_DCS_IGNORE /\
      seq p1 = seq p /\ st_alloc p1 = st_alloc p)).
Proof.
  intros Hs Hr. rewrite feed_string_put by assumption.
  cbn [parser_transition].
  destruct (parser_put p raw) as [p'|] eqn:E.
  - eexists. split; [reflexivity|]. left. exists p'.
    apply parser_put_Some in E as (_ & Eh & _). by repeat split.
  - eexists. split; [reflexivity|]. right. cbn.
    repeat split. by apply put_ignore_state.
Qed.

(** A run of string values: once the bytes with their closing zero
    would pass 4096, the parser is in the IGNORE state. *)
Lemma string_run (raws : list Z) (p : term_parser) :
  Forall string_value raws ->
  put_state (state p) = true \/ state p = STATE_DCS_IGNORE ->
  (put_state (state p) = true -> n_st (seq p) + 1 <= TERM_PARSER_ST_MAX) ->
  snd (feed_all p raws) = replicate (length raws) None /\
  (put_state (state (fst (feed_all p raws))) = true \/
   state (fst (feed_all p raws)) = STATE_DCS_IGNORE) /\
  (state p = STATE_DCS_IGNORE \/
   TERM_PARSER_ST_MAX
   < n_st (seq p) + Z.of_nat (length (string_bytes raws)) + 1 ->
   state (fst (feed_all p raws)) = STATE_DCS_IGNORE).
Proof.
  revert p; induction raws as [|raw raws IH]; intros p Hall Hs Hn.
  - cbn [parser_feed_all fst snd length replicate string_bytes map concat].
    split; [reflexivity|]. split; [assumption|].
    intros [H|H]; [assumption|].
    destruct Hs as [Hs|Hs]; [specialize (Hn Hs); lia | assumption].
  - apply Forall_cons in Hall as [Hraw Hall].
    cbn [parser_feed_all length replicate].
    rewrite string_bytes_cons, length_app.
    destruct (decide (state p = STATE_DCS_IGNORE)) as [E|E].
    + destruct (dcs_ignore_stay p raw E (string_value_stays raw Hraw))
        as (p1 & -> & E1 & Eseq & _).
      destruct (IH p1 Hall ltac:(by right)
                  ltac:(rewrite E1; discriminate)) as (Ho & Hst & Hig).
      destruct (feed_all p1 raws) as [p2 outs]. cbn [fst snd] in *.
      split; [by rewrite Ho|]. split; [exact Hst|].
      intros _. apply Hig. by left.
    + assert (Hput : put_state (state p) = true) by (by destruct Hs).
      destruct (string_put_step p raw Hput Hraw) as (p1 & -> & Hcase).
      destruct Hcase as [(p' & Eput & E1 & Es & _)|(_ & E1 & Eseq & _)].
      * apply parser_put_Some in Eput
          as (_ & _ & _ & _ & _ & _ & _ & _ & En & Hm & _).
        destruct (IH p1 Hall ltac:(left; by rewrite E1)
                    ltac:(intros _; by rewrite Es)) as (Ho & Hst & Hig).
        destruct (feed_all p1 raws) as [p2 outs]. cbn [fst snd] in *.
        split; [by rewrite Ho|]. split; [exact Hst|].
        intros [H|H]; [contradiction|]. apply Hig. right.
        rewrite Es, En. lia.
      * destruct (IH p1 Hall ltac:(by right)
                    ltac:(rewrite E1; discriminate)) as (Ho & Hst & Hig).
        destruct (feed_all p1 raws) as [p2 outs]. cbn [fst snd] in *.
        split; [by rewrite Ho|]. split; [exact Hst|].
        intros _. apply Hig. by left.
Qed.

(** A run of string values that fit: their bytes are appended. *)
Lemma string_run_fits (raws : list Z) (p : term_parser) :
  Forall string_value raws -> put_state (state p) = true ->
  1 <= st_alloc p ->
  n_st (seq p) + Z.of_nat (length (string_bytes raws)) + 1
  <= TERM_PARSER_ST_MAX ->
  snd (feed_all p raws) = replicate (length raws) None /\
  state (fst (feed_all p raws)) = state p /\
  is_host (fst (feed_all p raws)) = is_host p /\
  type (seq (fst (feed_all p raws))) = type (seq p) /\
  st (seq (fst (feed_all p raws))) = st (seq p) ++ string_bytes raws /\
  n_st (seq (fst (feed_all p raws)))
  = n_st (seq p) + Z.of_nat (length (string_bytes raws)).
Proof.
  revert p; induction raws as [|raw raws IH]; intros p Hall Hs Ha Hfit.
  - cbn [parser_feed_all fst snd length replicate string_bytes map concat].
    rewrite app_nil_r. repeat split; lia.
  - apply Forall_cons in Hall as [Hraw Hall].
    cbn [parser_feed_all length replicate].
    rewrite string_bytes_cons, length_app in *.
    destruct (parser_put_fits p raw Ha ltac:(lia)) as (q & Eq).
    destruct (string_put_step p raw Hs Hraw) as (p1 & -> & Hcase).
    destruct Hcase as [(p' & Eput & E1 & Es & Eal & Eh)|(Eput & _)];
      [|congruence].
    apply parser_put_Some in Eput
      as (_ & _ & Ety & _ & _ & _ & _ & Est & En & _ & _ & Hgrow).
    destruct (IH p1 Hall ltac:(by rewrite E1)
                ltac:(rewrite Eal, Hgrow; by apply st_grow_pos)
                ltac:(rewrite Es, En; lia))
      as (Ho & Hst & Hh & Hty & Hbs & Hnst).
    destruct (feed_all p1 raws) as [p2 outs]. cbn [fst snd] in *.
    rewrite Es in Hty, Hbs, Hnst.
    split; [by rewrite Ho|]. split; [congruence|]. split; [congruence|].
    split; [congruence|].
    split; [by rewrite Hbs, Est, <- app_assoc|]. rewrite Hnst, En. lia.
Qed.

(** A terminator in a state that keeps a string. *)
Lemma put_end (p : term_parser) (term : Z) :
  put_state (state p) = true -> string_terminator term ->
  snd (feed p term) = snd (transition p term STATE_GROUND ACTION_STRING_END) /\
  state (fst (feed p term)) = state_after term.
Proof.
  intros Hs [->|[->| ->]]; destruct (state p) eqn:E; try discriminate;
    unfold term_parser_feed; rewrite E;
    cbn [Z.eqb Pos.eqb orb andb string_state string_end_action
           parser_transition];
    destruct (type (seq_terminate (seq p))); split; reflexivity.
Qed.

Lemma string_end_osc (p : term_parser) (term : Z) :
  type (seq p) = TERM_SEQ_OSC ->
  exists r,
    snd (transition p term STATE_GROUND ACTION_STRING_END) = Some r /\
    type r = TERM_SEQ_OSC /\ terminator r = term /\
    command r = term_cmd_lookup (is_host p) TERM_SEQ_OSC term 0 /\
    st r = st (seq p) ++ [0] /\ n_st r = n_st (seq p) + 1.
Proof.
  intros Hty. cbn [parser_transition].
  change (type (seq_terminate (seq p))) with (type (seq p)). rewrite Hty.
  eexists. split; [reflexivity|]. by repeat split.
Qed.

(** *** Where a sequence starts *)

Lemma feed_escape (p : term_parser) :
  state (fst (feed p 0x1B)) = STATE_ESCAPE /\
  seq (fst (feed p 0x1B)) = seq_clear /\
  st_alloc (fst (feed p 0x1B)) = st_alloc p /\
  is_host (fst (feed p 0x1B)) = is_host p.
Proof.
  unfold term_parser_feed. cbn [Z.eqb Pos.eqb orb andb].
  destruct (state p); cbn [string_state string_end_action parser_transition];
    try destruct (type (seq_terminate (seq p))); by repeat split.
Qed.

Lemma feed_introducer (p : term_parser) (intro : Z) (next : parser_state)
    (act : parser_action) :
  state p = STATE_ESCAPE ->
  (intro = 0x5B /\ next = STATE_CSI_ENTRY /\ act = ACTION_CLEAR) \/
  (intro = 0x50 /\ next = STATE_DCS_ENTRY /\ act = ACTION_CLEAR) \/
  (intro = 0x5D /\ next = STATE_OSC_STRING /\ act = ACTION_OSC_START) ->
  feed p intro = transition p intro next act.
Proof.
  intros E [(-> & -> & ->)|[(-> & -> & ->)|(-> & -> & ->)]];
    unfold term_parser_feed, parser_feed_to_state; rewrite E; reflexivity.
Qed.

Lemma parser_transition_is_host (p : term_parser) (raw : Z)
    (next : parser_state) (act : parser_action) :
  is_host (fst (transition p raw next act)) = is_host p.
Proof.
  destruct act; cbn [parser_transition]; try reflexivity.
  - by destruct (seq_param (seq p) raw).
  - destruct (parser_put p raw) as [p'|] eqn:E; [|reflexivity].
    by apply parser_put_Some in E as (_ & Eh & _).
  - by destruct (type (seq_terminate (seq p))).
Qed.

Lemma term_parser_feed_is_host (p : term_parser) (raw : Z) :
  is_host (fst (feed p raw)) = is_host p.
Proof.
  unfold term_parser_feed, parser_feed_to_state.
  destruct (state p); cbn [string_state string_end_action andb orb];
    repeat match goal with
           | |- context [if ?b then _ else _] => destruct b
           end;
    try apply parser_transition_is_host.
  all: match goal with
       | |- context [parser_transition _ _ ?q ?r ?next ?act] =>
           pose proof (parser_transition_is_host q r next act) as H;
           destruct (transition q r next act)
       end; exact H.
Qed.

Lemma parser_feed_all_is_host (raws : list Z) (p : term_parser) :
  is_host (fst (feed_all p raws)) = is_host p.
Proof.
  revert p; induction raws as [|raw raws IH]; intros p;
    cbn [parser_feed_all]; [reflexivity|].
  pose proof (term_parser_feed_is_host p raw) as H1.
  destruct (feed p raw) as [p1 out]. specialize (IH p1).
  destruct (feed_all p1 raws) as [p2 outs]. cbn [fst] in *. congruence.
Qed.

Lemma string_terminator_leaves (term : Z) :
  string_terminator term -> leaves_string term = true.
Proof. intros H. apply leaves_string_true. unfold string_terminator in H. tauto. Qed.

(** C6: a parser stays within its bounds whatever it is fed, and so
    does every record it hands out: sixteen argument slots and at most
    sixteen arguments, a string of at most 4096 bytes, each a byte,
    counted by [n_st]; its buffer is never larger than 4096 bytes, or
    than it was at the start.  A separator that asks for a seventeenth
    parameter, in a control sequence or in a device control string, and
    a value whose bytes do not fit into the 4096 with the closing zero,
    send the parser to the IGNORE state of the sequence.  There nothing
    of the sequence is handed out, until the final byte of a control
    sequence, or ST (as 0x9C or as the ESC of ESC \), BEL, CAN or SUB in
    a string, closes it with a record of type IGNORE and command
    TERM_CMD_NONE.  So a control sequence with more than sixteen
    parameters, a device control string with more than sixteen, and a
    string of more than 4095 bytes, read from any state of the sequence,
    are closed that way; with up to sixteen parameters a control
    sequence is dispatched with its parameters counted, and a string
    that fits is handed out with its bytes and the closing zero.  ESC
    and the byte that follows it start a sequence from any state. *)
Theorem term_parser_overflow_is_bounded :
  (forall host : bool, parser_ok alloc (term_parser_new host alloc)) /\
  (forall (p : term_parser) (raws : list Z),
     parser_ok alloc p ->
     parser_ok alloc (fst (feed_all p raws)) /\
     Forall (fun out => forall r, out = Some r -> seq_ok r)
       (snd (feed_all p raws))) /\
  (forall p : term_parser,
     param_state (state p) = true ->
     TERM_PARSER_ARG_MAX <= n_args (seq p) + 1 ->
     exists p1,
       feed p 0x3B = (p1, None) /\ state p1 = ignore_state (state p) /\
       is_ignore_state (state p1) = true /\ seq p1 = seq p) /\
  (forall (p : term_parser) (raw : Z),
     put_state (state p) = true -> string_value raw ->
     TERM_PARSER_ST_MAX
     < n_st (seq p) + Z.of_nat (length (Utf8.term_utf8_encode raw)) + 1 ->
     exists p1,
       feed p raw = (p1, None) /\ state p1 = STATE_DCS_IGNORE /\
       seq p1 = seq p /\ st_alloc p1 = st_alloc p) /\
  (forall (p : term_parser) (raw : Z),
     state p = STATE_CSI_IGNORE ->
     (forall r, snd (feed p raw) = Some r ->
                seq_ignored r raw \/ type r = TERM_SEQ_CONTROL) /\
     (0x20 <= raw <= 0x3F ->
        snd (feed p raw) = None /\
        state (fst (feed p raw)) = STATE_CSI_IGNORE) /\
     (0x40 <= raw <= 0x7E ->
        exists r, snd (feed p raw) = Some r /\ seq_ignored r raw /\
                  state (fst (feed p raw)) = STATE_GROUND)) /\
  (forall (p : term_parser) (raw : Z),
     state p = STATE_DCS_IGNORE ->
     (leaves_string raw = false ->
        snd (feed p raw) = None /\
        state (fst (feed p raw)) = STATE_DCS_IGNORE /\
        seq (fst (feed p raw)) = seq p) /\
     (leaves_string raw = true ->
        exists r, snd (feed p raw) = Some r /\ seq_ignored r raw /\
                  state (fst (feed p raw)) = state_after raw)) /\
  (forall (p : term_parser) (params : list Z) (final : Z),
     parser_ok alloc p ->
     state p = STATE_CSI_ENTRY \/ state p = STATE_CSI_PARAM \/
     state p = STATE_CSI_IGNORE ->
     Forall (fun raw => 0x30 <= raw <= 0x3B) params ->
     0x40 <= final <= 0x7E ->
     exists r,
       state (fst (feed_all p (params ++ [final]))) = STATE_GROUND /\
       snd (feed_all p (params ++ [final]))
       = replicate (length params) None ++ [Some r] /\
       (state p = STATE_CSI_IGNORE \/
        TERM_PARSER_ARG_MAX <= n_args (seq p) + count_separators params ->
        seq_ignored r final) /\
       (state p <> STATE_CSI_IGNORE ->
        n_args (seq p) + count_separators params < TERM_PARSER_ARG_MAX ->
        type r = TERM_SEQ_CSI /\ terminator r = final /\
        n_args r = n_args (seq p) + count_separators params + 1 /\
        command r
        = term_cmd_lookup (is_host p) TERM_SEQ_CSI final (intermediates r))) /\
  (forall (p : term_parser) (params rest : list Z) (term : Z),
     parser_ok alloc p ->
     state p = STATE_DCS_ENTRY \/ state p = STATE_DCS_PARAM \/
     state p = STATE_DCS_IGNORE ->
     Forall (fun raw => 0x30 <= raw <= 0x3B) params ->
     Forall (fun raw => leaves_string raw = false) rest ->
     string_terminator term ->
     state p = STATE_DCS_IGNORE \/
     TERM_PARSER_ARG_MAX <= n_args (seq p) + count_separators params ->
     exists r,
       state (fst (feed_all p (params ++ rest ++ [term]))) = state_after term /\
       snd (feed_all p (params ++ rest ++ [term]))
       = replicate (length params + length rest) None ++ [Some r] /\
       seq_ignored r term) /\
  (forall (p : term_parser) (raws : list Z) (term : Z),
     parser_ok alloc p ->
     put_state (state p) = true \/ state p = STATE_DCS_IGNORE ->
     Forall string_value raws -> string_terminator term ->
     state p = STATE_DCS_IGNORE \/
     TERM_PARSER_ST_MAX
     < n_st (seq p) + Z.of_nat (length (string_bytes raws)) + 1 ->
     exists r,
       state (fst (feed_all p (raws ++ [term]))) = state_after term /\
       snd (feed_all p (raws ++ [term]))
       = replicate (length raws) None ++ [Some r] /\
       seq_ignored r term /\ n_st r <= TERM_PARSER_ST_MAX) /\
  (forall (p : term_parser) (raws : list Z) (term : Z),
     parser_ok alloc p -> 1 <= alloc ->
     state p = STATE_OSC_STRING -> type (seq p) = TERM_SEQ_OSC ->
     Forall string_value raws -> string_terminator term ->
     n_st (seq p) + Z.of_nat (length (string_bytes raws)) + 1
     <= TERM_PARSER_ST_MAX ->
     exists r,
       state (fst (feed_all p (raws ++ [term]))) = state_after term /\
       snd (feed_all p (raws ++ [term]))
       = replicate (length raws) None ++ [Some r] /\
       type r = TERM_SEQ_OSC /\ terminator r = term /\
       command r = term_cmd_lookup (is_host p) TERM_SEQ_OSC term 0 /\
       st r = st (seq p) ++ string_bytes raws ++ [0] /\
       n_st r = n_st (seq p) + Z.of_nat (length (string_bytes raws)) + 1) /\
  (forall p : term_parser,
     (state (fst (feed_all p [0x1B; 0x5B])) = STATE_CSI_ENTRY /\
      seq (fst (feed_all p [0x1B; 0x5B])) = seq_clear /\
      snd (feed_all p [0x1B; 0x5B]) = [snd (feed p 0x1B); None]) /\
     (state (fst (feed_all p [0x1B; 0x50])) = STATE_DCS_ENTRY /\
      seq (fst (feed_all p [0x1B; 0x50])) = seq_clear /\
      snd (feed_all p [0x1B; 0x50]) = [snd (feed p 0x1B); None]) /\
     (state (fst (feed_all p [0x1B; 0x5D])) = STATE_OSC_STRING /\
      type (seq (fst (feed_all p [0x1B; 0x5D]))) = TERM_SEQ_OSC /\
      st (seq (fst (feed_all p [0x1B; 0x5D]))) = [] /\
      n_st (seq (fst (feed_all p [0x1B; 0x5D]))) = 0 /\
      snd (feed_all p [0x1B; 0x5D]) = [snd (feed p 0x1B); None])).
Proof.
  split; [exact parser_ok_new|].
  split; [intros p raws; apply parser_feed_all_ok|].
  split.
  { intros p Hs Hn.
    destruct (param_step p 0x3B Hs ltac:(lia)) as (p1 & E & Hcase).
    exists p1. split; [exact E|].
    destruct Hcase as [(_ & Hlt & _)|[(_ & _ & E1 & Es)|(Hne & _)]];
      [lia | | done].
    split; [exact E1|]. split; [|exact Es].
    rewrite E1. apply ignore_state_is_ignore. }
  split.
  { intros p raw Hs Hraw Hover.
    destruct (string_put_step p raw Hs Hraw) as (p1 & E & Hcase).
    exists p1. split; [exact E|].
    destruct Hcase as [(p' & Eput & _)|(_ & E1 & Es & Ea)].
    - rewrite parser_put_None in Eput by assumption. discriminate.
    - by repeat split. }
  split.
  { intros p raw E. split; [intros r; by apply csi_ignore_out|]. split.
    - intros Hr. rewrite feed_csi_ignore by assumption. by split.
    - intros Hr. rewrite feed_csi_ignore_final by assumption.
      cbn [parser_transition fst snd]. eexists. by repeat split. }
  split.
  { intros p raw E. split.
    - intros Hr. destruct (dcs_ignore_stay p raw E Hr) as (p1 & -> & ? & ? & _).
      by repeat split.
    - intros Hr. destruct (dcs_ignore_leave p raw E Hr) as (r & ? & ? & _ & ?).
      by exists r. }
  split.
  { intros p params final Hok Hs Hall Hfinal.
    pose proof Hok as (_ & Hc & _).
    rewrite parser_feed_all_app.
    destruct (params_run params p Hall) as (Ho & Hst & Hfam & Hig & Hno).
    { destruct Hs as [E|[E|E]]; rewrite E; [left | left | right]; reflexivity. }
    { intros Hp. apply Hc. by destruct (state p). }
    pose proof (parser_feed_all_is_host params p) as Hh.
    set (p1 := fst (feed_all p params)) in *.
    rewrite Ho. cbn [fst snd parser_feed_all].
    assert (Hfam' : ignore_state (state p1) = STATE_CSI_IGNORE).
    { rewrite Hfam. by destruct Hs as [E|[E|E]]; rewrite E. }
    assert (Hig' : ignore_state (state p) = STATE_CSI_IGNORE).
    { by destruct Hs as [E|[E|E]]; rewrite E. }
    destruct (decide (state p1 = STATE_CSI_IGNORE)) as [E1|E1].
    - rewrite feed_csi_ignore_final by assumption.
      cbn [parser_transition fst snd]. eexists.
      split; [reflexivity|]. split; [reflexivity|]. split.
      + intros _. by repeat split.
      + intros Hne Hlt. exfalso.
        assert (Hp : param_state (state p) = true).
        { destruct Hs as [E|[E|E]]; [by rewrite E | by rewrite E | done]. }
        destruct (Hno Hp Hlt) as [Hp1 _]. fold p1 in Hp1.
        rewrite E1 in Hp1. discriminate.
    - assert (Hs1 : state p1 = STATE_CSI_ENTRY \/ state p1 = STATE_CSI_PARAM).
      { revert Hst Hfam' E1. clear.
        destruct (state p1); cbn; intros [?|?] ? ?;
          try discriminate; try contradiction; auto. }
      rewrite feed_csi_final by assumption.
      cbn [parser_transition fst snd]. eexists.
      split; [reflexivity|]. split; [reflexivity|]. split.
      + intros Hover. exfalso. apply E1. rewrite <- Hig'. apply Hig.
        destruct Hover as [E|Hge]; [left; by rewrite E | by right].
      + intros Hne Hlt.
        assert (Hp : param_state (state p) = true).
        { destruct Hs as [E|[E|E]]; [by rewrite E | by rewrite E | done]. }
        destruct (Hno Hp Hlt) as [_ Hn1]. fold p1 in Hn1.
        cbn. rewrite Hn1, Hh. by repeat split. }
  split.
  { intros p params rest term Hok Hs Hall Hrest Hterm Hover.
    pose proof Hok as (_ & Hc & _).
    rewrite !parser_feed_all_app.
    destruct (params_run params p Hall) as (Ho & _ & _ & Hig & _).
    { destruct Hs as [E|[E|E]]; rewrite E; [left | left | right]; reflexivity. }
    { intros Hp. apply Hc. by destruct (state p). }
    assert (E1 : state (fst (feed_all p params)) = STATE_DCS_IGNORE).
    { rewrite Hig.
      - by destruct Hs as [E|[E|E]]; rewrite E.
      - destruct Hover as [E|Hge]; [left; by rewrite E | by right]. }
    set (p1 := fst (feed_all p params)) in *.
    destruct (dcs_ignore_run rest p1 E1 Hrest) as (Ho2 & E2 & _).
    set (p2 := fst (feed_all p1 rest)) in *.
    destruct (dcs_ignore_leave p2 term E2 (string_terminator_leaves _ Hterm))
      as (r & Hout & Hr & _ & Hafter).
    exists r. cbn [parser_feed_all fst snd].
    destruct (feed p2 term) as [p3 out]. cbn [fst snd] in *.
    split; [exact Hafter|]. split; [|exact Hr].
    rewrite Ho, Ho2, Hout, app_assoc, <- replicate_add. reflexivity. }
  split.
  { intros p raws term Hok Hs Hall Hterm Hover.
    pose proof Hok as (_ & _ & Hg & _).
    rewrite parser_feed_all_app.
    destruct (string_run raws p Hall Hs) as (Ho & _ & Hig).
    { intros Hp. apply Hg. by apply put_not_ground. }
    specialize (Hig Hover).
    destruct (parser_feed_all_ok raws p Hok) as [Hok1 _].
    set (p1 := fst (feed_all p raws)) in *.
    destruct (dcs_ignore_leave p1 term Hig (string_terminator_leaves _ Hterm))
      as (r & Hout & Hr & Hn & Hafter).
    exists r. cbn [parser_feed_all fst snd].
    destruct (feed p1 term) as [p2 out]. cbn [fst snd] in *.
    split; [exact Hafter|]. split; [by rewrite Ho, Hout|].
    split; [exact Hr|]. rewrite Hn.
    by destruct Hok1 as ((_ & _ & _ & Hmax & _) & _). }
  split.
  { intros p raws term Hok Halloc E Hty Hall Hterm Hfit.
    pose proof Hok as (_ & _ & _ & _ & Hr).
    destruct (Hr Halloc) as (Ha & _).
    rewrite parser_feed_all_app.
    destruct (string_run_fits raws p Hall ltac:(by rewrite E) Ha Hfit)
      as (Ho & Hst & Hh & Hty1 & Hbs & Hn).
    set (p1 := fst (feed_all p raws)) in *.
    destruct (put_end p1 term ltac:(by rewrite Hst, E) Hterm) as [Hout Hafter].
    destruct (string_end_osc p1 term ltac:(by rewrite Hty1))
      as (r & Hrec & Hr1 & Hr2 & Hr3 & Hr4 & Hr5).
    exists r. cbn [parser_feed_all fst snd].
    destruct (feed p1 term) as [p2 out]. cbn [fst snd] in *.
    split; [exact Hafter|]. split; [by rewrite Ho, Hout, Hrec|].
    split; [exact Hr1|]. split; [exact Hr2|].
    split; [by rewrite Hr3, Hh|].
    split; [by rewrite Hr4, Hbs, <- app_assoc|]. by rewrite Hr5, Hn. }
  intros p.
  destruct (feed_escape p) as (E & Es & _).
  cbn [parser_feed_all].
  destruct (feed p 0x1B) as [q out]. cbn [fst snd] in *.
  rewrite (feed_introducer q 0x5B STATE_CSI_ENTRY ACTION_CLEAR E)
    by (left; done).
  rewrite (feed_introducer q 0x50 STATE_DCS_ENTRY ACTION_CLEAR E)
    by (right; left; done).
  rewrite (feed_introducer q 0x5D STATE_OSC_STRING ACTION_OSC_START E)
    by (right; right; done).
  cbn. by repeat split.
Qed.

End ParserFacts.

Lemma term_parser_overflow_is_bounded_witness :
  (exists r,
     snd (parser_feed_all cmd_lookup_example charset_lookup_example
            (fst (parser_feed_all cmd_lookup_example charset_lookup_example
                    (term_parser_new true 64) [0x1B; 0x5B]))
            (replicate 16 0x3B ++ [0x6D]))
     = replicate 16 None ++ [Some r] /\
     seq_ignored r 0x6D) /\
  (exists r,
     snd (parser_feed_all cmd_lookup_example charset_lookup_example
            (fst (parser_feed_all cmd_lookup_example charset_lookup_example
                    (term_parser_new true 64) [0x1B; 0x50]))
            (replicate 20 0x3B ++ [0x71; 0x41] ++ [0x9C]))
     = replicate 22 None ++ [Some r] /\
     seq_ignored r 0x9C) /\
  (exists r,
     snd (parser_feed_all cmd_lookup_example charset_lookup_example
            (fst (parser_feed_all cmd_lookup_example charset_lookup_example
                    (term_parser_new true 64) [0x1B; 0x5D]))
            (replicate 4096 0x41 ++ [0x1B]))
     = replicate 4096 None ++ [Some r] /\
     seq_ignored r 0x1B /\ n_st r <= TERM_PARSER_ST_MAX) /\
  (exists r,
     snd (parser_feed_all cmd_lookup_example charset_lookup_example
            (fst (parser_feed_all cmd_lookup_example charset_lookup_example
                    (term_parser_new true 64) [0x1B; 0x5D]))
            ([0x30; 0x3B; 0x68; 0x69] ++ [0x07]))
     = replicate 4 None ++ [Some r] /\
     type r = TERM_SEQ_OSC /\ n_st r = 5 /\
     st r = [0x30; 0x3B; 0x68; 0x69; 0]).
Proof.
  pose proof (term_parser_overflow_is_bounded
                cmd_lookup_example charset_lookup_example 64)
    as (Hnew & Hbound & _ & _ & _ & _ & Hcsi & Hdcs & Hstr & Hosc & _).
  assert (Hok : forall raws,
             parser_ok 64
               (fst (parser_feed_all cmd_lookup_example charset_lookup_example
                       (term_parser_new true 64) raws)))
    by (intros raws; apply Hbound, Hnew).
  split; [|split; [|split]].
  - destruct (Hcsi _ (replicate 16 0x3B) 0x6D (Hok [0x1B; 0x5B])
                ltac:(left; reflexivity)
                ltac:(apply Forall_replicate; lia) ltac:(lia))
      as (r & _ & Hout & Hover & _).
    exists r. rewrite length_replicate in Hout. split; [exact Hout|].
    apply Hover. right. vm_compute. discriminate.
  - destruct (Hdcs _ (replicate 20 0x3B) [0x71; 0x41] 0x9C (Hok [0x1B; 0x50])
                ltac:(left; reflexivity)
                ltac:(apply Forall_replicate; lia)
                ltac:(repeat constructor)
                ltac:(left; reflexivity)
                ltac:(right; vm_compute; discriminate))
      as (r & _ & Hout & Hr).
    exists r. rewrite length_replicate in Hout. split; [exact Hout|exact Hr].
  - destruct (Hstr _ (replicate 4096 0x41) 0x1B (Hok [0x1B; 0x5D])
                ltac:(left; reflexivity)
                ltac:(apply Forall_replicate; unfold string_value; lia)
                ltac:(right; right; reflexivity)
                ltac:(right; vm_compute; reflexivity))
      as (r & _ & Hout & Hr & Hn).
    exists r. rewrite length_replicate in Hout.
    split; [exact Hout|]. split; [exact Hr | exact Hn].
  - destruct (Hosc _ [0x30; 0x3B; 0x68; 0x69] 0x07 (Hok [0x1B; 0x5D])
                ltac:(lia) ltac:(reflexivity) ltac:(reflexivity)
                ltac:(repeat (constructor; [unfold string_value; lia|]);
                      constructor)
                ltac:(right; left; reflexivity)
                ltac:(vm_compute; discriminate))
      as (r & _ & Hout & Hty & _ & _ & Hst & Hn).
    exists r. split; [exact Hout|]. split; [exact Hty|].
    split; [exact Hn | exact Hst].
Defined.

(** ESC [ ; 5 H: two parameters, the first left out. *)
Example parser_csi_defaults :
  map (fun out => (fun r => (type r, n_args r, take 2 (args r))) <$> out)
    (snd (parser_feed_all cmd_lookup_example charset_lookup_example
            (term_parser_new true 64) [0x1B; 0x5B; 0x3B; 0x35; 0x48]))
  = [None; None; None; None; Some (TERM_SEQ_CSI, 2, [-1; 5])].
Proof. reflexivity. Qed.

(** ESC ] 0 ; hi BEL: the string with its closing zero, five bytes. *)
Example parser_osc_title :
  map (fun out => (fun r => (type r, n_st r, st r)) <$> out)
    (snd (parser_feed_all cmd_lookup_example charset_lookup_example
            (term_parser_new true 64)
            [0x1B; 0x5D; 0x30; 0x3B; 0x68; 0x69; 0x07]))
  = [None; None; None; None; None; None;
     Some (TERM_SEQ_OSC, 5, [0x30; 0x3B; 0x68; 0x69; 0])].
Proof. reflexivity. Qed.

(** The payload is counted in bytes: U+20AC and U+1F600 take seven. *)
Example parser_osc_bytes :
  (fun r => (type r, n_st r, st r)) <$>
    (default None
       (last (snd (parser_feed_all cmd_lookup_example charset_lookup_example
                     (term_parser_new true 64)
                     [0x1B; 0x5D; 0x20AC; 0x1F600; 0x9C]))))
  = Some (TERM_SEQ_OSC, 8, [0xE2; 0x82; 0xAC; 0xF0; 0x9F; 0x98; 0x80; 0]).
Proof. reflexivity. Qed.

(** A string of 4095 bytes fits, one of 4096 is given up, whatever ends
    it. *)
Example parser_osc_overflow :
  map (fun term =>
         (fun r => (type r, command r, n_st r)) <$>
           (default None
              (last (snd (parser_feed_all cmd_lookup_example
                            charset_lookup_example (term_parser_new true 64)
                            ([0x1B; 0x5D] ++ replicate 4096 0x41 ++ [term]))))))
    [0x07; 0x9C; 0x1B]
  = [Some (TERM_SEQ_IGNORE, TERM_CMD_NONE, 4095);
     Some (TERM_SEQ_IGNORE, TERM_CMD_NONE, 4095);
     Some (TERM_SEQ_IGNORE, TERM_CMD_NONE, 4095)] /\
  (fun r => (type r, n_st r)) <$>
    (default None
       (last (snd (parser_feed_all cmd_lookup_example charset_lookup_example
                     (term_parser_new true 64)
                     ([0x1B; 0x5D] ++ replicate 4095 0x41 ++ [0x07])))))
  = Some (TERM_SEQ_OSC, 4096).
Proof. split; vm_compute; reflexivity. Qed.

(** ESC P with twenty separators: the string is given up, and ST closes
    it. *)
Example parser_dcs_overflow :
  map (fun out => (fun r => (type r, command r)) <$> out)
    (snd (parser_feed_all cmd_lookup_example charset_lookup_example
            (term_parser_new true 64)
            ([0x1B; 0x50] ++ replicate 20 0x3B ++ [0x71; 0x41; 0x9C])))
  = replicate 24 None ++ [Some (TERM_SEQ_IGNORE, TERM_CMD_NONE)].
Proof. vm_compute. reflexivity. Qed.
(** * Further properties of the header *)

(** ** Equality of characters *)

Lemma memcmp_decides (sa sb : list Z) :
  length sa = length sb ->
  (memcmp sa sb (length sa) =? 0) = bool_decide (sa = sb).
Proof.
  intros Hlen. destruct (decide (sa = sb)) as [->|Hne].
  - rewrite memcmp_refl by lia. by rewrite bool_decide_eq_true_2.
  - rewrite bool_decide_eq_false_2 by assumption.
    apply Z.eqb_neq. intros H. by apply Hne, memcmp_zero.
Qed.

(** X1: [term_char_equal] compares what the two handles resolve to: when
    both resolve, the answer is whether the two UCS-4 sequences are the
    same, whatever [term_char_resolve] is; when one does not resolve,
    there is no answer. *)
Theorem term_char_equal_decides {Mem : Type} `{!TermCharImpl Mem}
    (m : Mem) (a b : term_char_t) (sa sb : list Z) :
  term_char_resolve m a = Some sa ->
  term_char_resolve m b = Some sb ->
  term_char_equal m a b = Some (bool_decide (sa = sb)).
Proof.
  intros Ha Hb. unfold term_char_equal. rewrite Ha, Hb. simpl. f_equal.
  destruct (Nat.eqb_spec (length sa) (length sb)) as [Hlen|Hlen].
  - by rewrite memcmp_decides.
  - rewrite bool_decide_eq_false_2; [reflexivity | congruence].
Qed.

Lemma term_char_equal_decides_witness :
  term_char_equal heap_example (TERM_CHAR_INIT 16) (TERM_CHAR_INIT 0xCB)
    = Some false /\
  term_char_equal heap_example (TERM_CHAR_INIT 0xCB)
    (TERM_CHAR_INIT (char_pack 0x65 0 0)) = Some true.
Proof.
  split.
  - apply (term_char_equal_decides heap_example (TERM_CHAR_INIT 16)
             (TERM_CHAR_INIT 0xCB) [0x65; 0x301; 0x302; 0x303] [0x65]);
      reflexivity.
  - apply (term_char_equal_decides heap_example (TERM_CHAR_INIT 0xCB)
             (TERM_CHAR_INIT (char_pack 0x65 0 0)) [0x65] [0x65]);
      reflexivity.
Defined.

(** X2: [term_char_equal] is symmetric, also in having no answer, and
    transitive, for every implementation of [term_char_resolve]. *)
Theorem term_char_equal_sym_trans {Mem : Type} `{!TermCharImpl Mem}
    (m : Mem) (a b c : term_char_t) :
  term_char_equal m a b = term_char_equal m b a /\
  (term_char_equal m a b = Some true ->
   term_char_equal m b c = Some true ->
   term_char_equal m a c = Some true).
Proof.
  destruct (term_char_resolve m a) as [sa|] eqn:Ha;
    destruct (term_char_resolve m b) as [sb|] eqn:Hb.
  - rewrite (term_char_equal_decides m a b sa sb Ha Hb).
    rewrite (term_char_equal_decides m b a sb sa Hb Ha).
    split.
    + f_equal. apply bool_decide_ext. split; congruence.
    + intros [= Hab%bool_decide_eq_true].
      destruct (term_char_resolve m c) as [sc|] eqn:Hc.
      * rewrite (term_char_equal_decides m b c sb sc Hb Hc).
        rewrite (term_char_equal_decides m a c sa sc Ha Hc).
        intros [= Hbc%bool_decide_eq_true]. f_equal.
        apply bool_decide_eq_true. congruence.
      * unfold term_char_equal. rewrite Hb, Hc. discriminate.
  - unfold term_char_equal. rewrite Ha, Hb. simpl. split; [reflexivity|].
    discriminate.
  - unfold term_char_equal. rewrite Ha, Hb. simpl. split; [reflexivity|].
    discriminate.
  - unfold term_char_equal. rewrite Ha, Hb. simpl. split; [reflexivity|].
    discriminate.
Qed.

(** ** The three kinds of handle *)

Lemma land_1_cases (v : Z) : Z.land v 1 = 0 \/ Z.land v 1 = 1.
Proof.
  change 1 with (Z.ones 1) at 1 2. rewrite Z.land_ones by lia.
  change (2 ^ 1) with 2. pose proof (Z.mod_pos_bound v 2 ltac:(lia)). lia.
Qed.

(** X3: every handle is of exactly one kind: the null handle, an
    allocated one, or one with the low bit set; a handle with the low bit
    set is neither null nor allocated, and [term_char_free] hands the
    allocator back untouched for it, whatever [term_char_set] is. *)
Theorem term_char_kinds {Mem : Type} `{!TermCharImpl Mem}
    (m : Mem) (h : term_char_t) :
  (term_char_is_null h = true /\ term_char_is_allocated h = false /\
   Z.land (_value h) 0x1 = 0 /\ h = TERM_CHAR_NULL) \/
  (term_char_is_null h = false /\ term_char_is_allocated h = true /\
   Z.land (_value h) 0x1 = 0 /\ h <> TERM_CHAR_NULL) \/
  (term_char_is_null h = false /\ term_char_is_allocated h = false /\
   Z.land (_value h) 0x1 = 1 /\ term_char_free m h = (m, TERM_CHAR_NULL)).
Proof.
  destruct h as [v]. unfold term_char_free, term_char_is_allocated,
    term_char_is_null, TERM_CHAR_NULL. cbn [_value].
  destruct (Z.eqb_spec v 0) as [->|Hv].
  - left. by repeat split.
  - right. destruct (land_1_cases v) as [H0|H1].
    + left. rewrite H0. repeat split. congruence.
    + right. rewrite H1. by repeat split.
Qed.

(** ** The flag enum as a set of bits *)

Import Catalog.

Lemma assoc_In (k v : Z) (l : list (Z * Z)) :
  assoc k l = Some v -> In (k, v) l.
Proof.
  induction l as [|[k' v'] l IH]; cbn [assoc]; [discriminate|].
  destruct (Z.eqb_spec k k') as [->|Hne].
  - intros [= ->]. by left.
  - intros H. right. by apply IH.
Qed.

Lemma term_seq_flag_table_pow2 :
  Forall (fun '(c, f) => 0x20 <= c <= 0x3F /\ f = 2 ^ (c - 0x20))
    term_seq_flag_table.
Proof.
  unfold term_seq_flag_table.
  repeat (constructor; [split; [lia | reflexivity]|]). constructor.
Qed.

Lemma term_seq_flag_pow2 (ch f : Z) :
  term_seq_flag ch = Some f -> 0x20 <= ch <= 0x3F /\ f = 2 ^ (ch - 0x20).
Proof.
  intros H%assoc_In. pose proof term_seq_flag_table_pow2 as Hall.
  rewrite Forall_forall in Hall. apply list_elem_of_In in H.
  exact (Hall (ch, f) H).
Qed.

Lemma land_pow2_distinct (a b : Z) :
  0 <= a -> 0 <= b -> a <> b -> Z.land (2 ^ a) (2 ^ b) = 0.
Proof.
  intros Ha Hb Hne. apply Z.bits_inj'. intros k Hk.
  rewrite Z.land_spec, !Z.pow2_bits_eqb, Z.bits_0 by lia.
  destruct (Z.eqb_spec a k), (Z.eqb_spec b k); simpl; (reflexivity || lia).
Qed.

(** X4: every enumerator of the flag enum is one bit of an [unsigned
    int], the bit its character selects, and two different characters
    never share a bit: the flags of different characters are different
    and have no bit in common. *)
Theorem term_seq_flag_single_bit (ch f : Z) :
  term_seq_flag ch = Some f ->
  0 < f < 2 ^ 32 /\
  (forall k, Z.testbit f k = (ch - 0x20 =? k)) /\
  (forall ch' f', term_seq_flag ch' = Some f' ->
     (f' = f <-> ch' = ch) /\ (ch' <> ch -> Z.land f f' = 0)).
Proof.
  intros Hf. pose proof Hf as [Hch ->]%term_seq_flag_pow2.
  split; [|split].
  - split; [apply Z.pow_pos_nonneg; lia|].
    apply Z.pow_lt_mono_r; lia.
  - intros k. apply Z.pow2_bits_eqb. lia.
  - intros ch' f' Hf'. pose proof Hf' as [Hch' ->]%term_seq_flag_pow2.
    split; [split|].
    + intros Heq. apply Z.pow_inj_r in Heq; lia.
    + intros ->. reflexivity.
    + intros Hne. apply land_pow2_distinct; lia.
Qed.

Lemma term_seq_flag_single_bit_witness :
  0 < TERM_SEQ_FLAG_WHAT < 2 ^ 32 /\
  Z.testbit TERM_SEQ_FLAG_WHAT 31 = true /\
  Z.land TERM_SEQ_FLAG_WHAT TERM_SEQ_FLAG_CASH = 0.
Proof.
  destruct (term_seq_flag_single_bit 0x3F TERM_SEQ_FLAG_WHAT eq_refl)
    as (Hb & Hbit & Hother).
  split; [exact Hb|]. split; [exact (Hbit 31)|].
  apply (Hother 0x24 TERM_SEQ_FLAG_CASH eq_refl). lia.
Defined.

Lemma lor_below_pow2 (a b n : Z) :
  0 <= n -> 0 <= a < 2 ^ n -> 0 <= b < 2 ^ n -> 0 <= Z.lor a b < 2 ^ n.
Proof.
  intros Hn Ha Hb. split; [apply Z.lor_nonneg; lia|].
  rewrite <- (Z.mod_small a (2 ^ n)), <- (Z.mod_small b (2 ^ n)) by lia.
  rewrite <- !Z.land_ones, <- Z.land_lor_distr_l, Z.land_ones by lia.
  apply Z.mod_pos_bound. apply Z.pow_pos_nonneg; lia.
Qed.

(** X5: a mask made by or-ing the flags of some characters fits an
    [unsigned int], and testing it against the flag of a character gives
    that flag when the character is among them and zero when it is
    not. *)
Theorem term_seq_mask_test (chs : list Z) (ch f : Z) :
  term_seq_flag ch = Some f ->
  Z.land (term_seq_mask chs) f = (if bool_decide (ch ∈ chs) then f else 0) /\
  0 <= term_seq_mask chs < 2 ^ 32.
Proof.
  intros Hf. destruct (term_seq_flag_single_bit ch f Hf) as (Hb & _ & Hother).
  induction chs as [|c chs [IH IHb]]; cbn [term_seq_mask foldr].
  - split; [|lia]. rewrite bool_decide_eq_false_2 by apply not_elem_of_nil.
    apply Z.land_0_l.
  - fold (term_seq_mask chs). split.
    + rewrite Z.land_lor_distr_l, IH.
      destruct (term_seq_flag c) as [g|] eqn:Hg; cbn [default id].
      * destruct (Hother c g Hg) as [Hsame Hdisj].
        destruct (decide (c = ch)) as [->|Hne].
        -- assert (g = f) as -> by congruence.
           rewrite Z.land_diag.
           rewrite (bool_decide_eq_true_2 (ch ∈ ch :: chs))
             by apply list_elem_of_here.
           destruct (bool_decide (ch ∈ chs));
             [apply Z.lor_diag | apply Z.lor_0_r].
        -- rewrite (Z.land_comm g f), (Hdisj Hne), Z.lor_0_l.
           apply (f_equal (fun b : bool => if b then f else 0)).
           apply bool_decide_ext. rewrite elem_of_cons. intuition congruence.
      * rewrite Z.land_0_l, Z.lor_0_l.
        apply (f_equal (fun b : bool => if b then f else 0)).
        apply bool_decide_ext. rewrite elem_of_cons. intuition congruence.
    + apply lor_below_pow2; [lia | | exact IHb].
      destruct (term_seq_flag c) as [g|] eqn:Hg; cbn [default id]; [|lia].
      destruct (term_seq_flag_single_bit c g Hg) as (Hg' & _). lia.
Qed.

Lemma term_seq_mask_test_witness :
  Z.land (term_seq_mask [0x24; 0x3F]) TERM_SEQ_FLAG_WHAT = TERM_SEQ_FLAG_WHAT /\
  Z.land (term_seq_mask [0x24; 0x3F]) TERM_SEQ_FLAG_BANG = 0.
Proof.
  split.
  - exact (proj1 (term_seq_mask_test [0x24; 0x3F] 0x3F TERM_SEQ_FLAG_WHAT
                    eq_refl)).
  - exact (proj1 (term_seq_mask_test [0x24; 0x3F] 0x21 TERM_SEQ_FLAG_BANG
                    eq_refl)).
Defined.

(** ** The color and charset enums as ranges *)

Import Color.

(** X6: the color codes are the numbers below [TERM_CCODE_CNT], each
    named once, and all fit the [uint8_t] field [ccode]; the light
    colors are the dark ones plus 8 and start right after them, so the
    two groups do not meet. *)
Theorem term_ccode_enum_dense (c : Z) :
  (In c term_ccodes <-> 0 <= c < TERM_CCODE_CNT) /\
  NoDup term_ccodes /\
  TERM_CCODE_CNT <= 2 ^ 8 /\
  (In c term_ccodes_dark <-> TERM_CCODE_BLACK <= c <= TERM_CCODE_WHITE) /\
  (In c term_ccodes_light <-> In (c - 8) term_ccodes_dark) /\
  (In c term_ccodes_light <->
     TERM_CCODE_WHITE < c <= TERM_CCODE_LIGHT_WHITE).
Proof.
  assert (Hall : term_ccodes = seqZ 0 19) by reflexivity.
  assert (Hdark : term_ccodes_dark = seqZ 3 8) by reflexivity.
  assert (Hlight : term_ccodes_light = seqZ 11 8) by reflexivity.
  rewrite Hall, Hdark, Hlight, <- !list_elem_of_In, !elem_of_seqZ.
  change TERM_CCODE_CNT with 19. change TERM_CCODE_BLACK with 3.
  change TERM_CCODE_WHITE with 10. change TERM_CCODE_LIGHT_WHITE with 18.
  repeat split; try lia. apply NoDup_seqZ.
Qed.

(** X7: the charset selectors that name a table are the numbers from 1
    to below [TERM_CHARSET_94_CNT], each named once apart from the two
    NRCS aliases; the 96-compat ones lie below [TERM_CHARSET_96_CNT], the
    94-compat ones from there on, and with [TERM_CHARSET_NONE] and the
    user-preferred slot the selectors number [TERM_CHARSET_CNT]. *)
Theorem term_charset_enum_dense (v : Z) :
  (In v term_charsets_96 <->
     TERM_CHARSET_NONE < v < TERM_CHARSET_96_CNT) /\
  (In v term_charsets_94 <->
     TERM_CHARSET_96_CNT <= v < TERM_CHARSET_94_CNT) /\
  NoDup (TERM_CHARSET_NONE :: term_charsets_96 ++ term_charsets_94
           ++ [TERM_CHARSET_USERPREF_SUPPLEMENTAL]) /\
  (In v (TERM_CHARSET_NONE :: term_charsets_96 ++ term_charsets_94
           ++ [TERM_CHARSET_USERPREF_SUPPLEMENTAL]) <->
     0 <= v < TERM_CHARSET_CNT).
Proof.
  assert (H96 : term_charsets_96 = seqZ 1 6) by reflexivity.
  assert (H94 : term_charsets_94 = seqZ 7 23) by reflexivity.
  assert (Hall : TERM_CHARSET_NONE :: term_charsets_96 ++ term_charsets_94
                   ++ [TERM_CHARSET_USERPREF_SUPPLEMENTAL] = seqZ 0 31)
    by reflexivity.
  rewrite Hall, H96, H94, <- !list_elem_of_In, !elem_of_seqZ.
  change TERM_CHARSET_NONE with 0. change TERM_CHARSET_96_CNT with 7.
  change TERM_CHARSET_94_CNT with 30. change TERM_CHARSET_CNT with 31.
  repeat split; try lia. apply NoDup_seqZ.
Qed.
